(** * gpt-from-scratch: a shallow embedding of [gpt.py] and [train.py]

    The development follows the two source files.  Floating-point tensors
    are lists of real numbers (with one extra point for the [-inf] that
    [masked_fill] writes), integer tensors are lists of naturals, Python
    exceptions are an error result, and everything the code does to the
    outside world (torch's global random generator, the file system, the
    module object, standard output) is threaded through one state record.
    Rounding, overflow and NaN of IEEE arithmetic are not modelled. *)

From Stdlib Require Import Reals Lra ZArith.
From stdpp Require Import gmap strings list.

(** ** Configuration constants

    [gpt.py] fixes these as module-level constants.  They are collected in
    a class so that a statement can also speak about another configuration.
    [BATCH_SIZE] is imported by [train.py] from [gpt], but no definition of
    it is part of the sources: it is a parameter of the configuration. *)

Class Config := {
  NUM_LAYERS : nat;
  NUM_HEADS : nat;
  SEQ_LEN : nat;
  EMBED_SIZE : nat;
  DROPOUT : R;
  BATCH_SIZE : nat
}.

(** The constants as [gpt.py] has them. *)
Definition source_config (batch_size : nat) : Config :=
  {| NUM_LAYERS := 6; NUM_HEADS := 6; SEQ_LEN := 256; EMBED_SIZE := 384;
     DROPOUT := (2 / 10)%R; BATCH_SIZE := batch_size |}.

(** Hyperparameters of [train.py]. *)
Definition LEARNING_RATE : R := (1 / 1000)%R.
Definition EVAL_INTERVAL : Z := 1000.
Definition EVAL_ITERS : nat := 100.

Inductive split := TRAIN | EVAL.

#[export] Instance split_eq_dec : EqDecision split.
Proof. solve_decision. Defined.

(** ** Dense tensors *)

Abbreviation vec := (list R) (only parsing).
Abbreviation mat := (list (list R)) (only parsing).

(** A score after [masked_fill]: a real number or [float('-inf')]. *)
Inductive xreal := NegInf | Finite (r : R).

Definition vsum (v : vec) : R := foldr Rplus 0%R v.
Definition dot (u v : vec) : R := vsum (zip_with Rmult u v).
Definition vadd (u v : vec) : vec := zip_with Rplus u v.
Definition madd (a b : mat) : mat := zip_with vadd a b.
Definition vscale (c : R) (v : vec) : vec := map (Rmult c) v.
Definition zeros (n : nat) : vec := replicate n 0%R.

(** [a @ b.transpose(-2, -1)]: entry (i, j) is the dot product of row i of
    [a] and row j of [b]. *)
Definition matmul_transposed (a b : mat) : mat :=
  map (fun ai => map (fun bj => dot ai bj) b) a.

(** [w @ v] for [w] of shape (T, T) and [v] of shape (T, n): row i is the
    sum of the rows of [v] weighted by row i of [w]. *)
Definition matmul (n : nat) (w : mat) (v : mat) : mat :=
  map (fun wi => foldr vadd (zeros n) (zip_with vscale wi v)) w.

(** [torch.tril(torch.ones(n, n))]; the entries are the floats 1.0 and 0.0,
    kept as numerals so that the test [== 0] of [masked_fill] is decidable. *)
Definition tril_ones (n : nat) : list (list nat) :=
  map (fun i => map (fun j => if decide (j ≤ i) then 1 else 0) (seq 0 n)) (seq 0 n).

Definition xexp (x : xreal) : R :=
  match x with
  | NegInf => 0%R
  | Finite r => exp r
  end.

(** [F.softmax(row, dim=-1)]: [exp(x_i) / sum_j exp(x_j)], with
    [exp(-inf) = 0]. *)
Definition softmax (row : list xreal) : vec :=
  let z := vsum (map xexp row) in
  map (fun x => (xexp x / z)%R) row.

Definition relu (v : vec) : vec := map (Rmax 0) v.

(** Entry [t[b, i, j]] of a tensor of three dimensions, when it exists. *)
Definition entry (t : list mat) (b i j : nat) : option R :=
  m ← t !! b; r ← m !! i; r !! j.

(** ** Parameter-holding modules *)

(** [nn.Linear]: [weight] has one row per output feature. *)
Record Linear := {
  weight : mat;
  bias : option vec
}.

Definition out_features (l : Linear) : nat := length (weight l).

Definition Linear_forward (l : Linear) (x : vec) : vec :=
  let y := map (fun w => dot x w) (weight l) in
  match bias l with
  | Some b => vadd y b
  | None => y
  end.

(** [nn.LayerNorm] over the last dimension, [eps = 1e-5]. *)
Record LayerNorm := {
  ln_weight : vec;
  ln_bias : vec
}.

Definition LayerNorm_forward (l : LayerNorm) (x : vec) : vec :=
  let n := INR (length x) in
  let mean := (vsum x / n)%R in
  let var := (vsum (map (fun xi => (xi - mean) * (xi - mean)) x) / n)%R in
  let xhat := map (fun xi => ((xi - mean) / sqrt (var + 1 / 100000))%R) x in
  vadd (zip_with Rmult xhat (ln_weight l)) (ln_bias l).

(** [FeedForward.net]: [Linear, ReLU, Linear, Dropout]; only the two linear
    maps hold parameters. *)
Record FeedForward := {
  net_0 : Linear;
  net_2 : Linear
}.

(** [Head]: the attribute [head_size] is stored by [__init__] and never read
    again ([forward] uses [k.shape[-1]]), so the record keeps the three
    projections and the registered buffer [tril]. *)
Record Head := {
  key : Linear;
  query : Linear;
  value : Linear;
  tril : list (list nat)
}.

Record MultiHeadAttention := {
  heads : list Head;
  proj : Linear
}.

Record Block := {
  sa : MultiHeadAttention;
  ffwd : FeedForward;
  ln1 : LayerNorm;
  ln2 : LayerNorm
}.

(** What [state_dict()] of a [GPT] holds: every parameter and buffer. *)
Record StateDict := {
  token_embedding_table : mat;
  position_embedding_table : mat;
  blocks : list Block;
  ln_f : LayerNorm;
  lm_head : Linear
}.

(** The module object.  [train()] and [eval()] set the [training] flag of
    every submodule at once and nothing else writes it, so one flag stands
    for all of them; it is not part of the state dict. *)
Record GPT := {
  state_dict : StateDict;
  training : bool
}.

(** Shapes, as [load_state_dict] compares them. *)
Definition mat_shape (m : mat) : list nat := map length m.
Definition Linear_shape (l : Linear) : list (list nat) :=
  [mat_shape (weight l); match bias l with Some b => [length b] | None => [] end].
Definition LayerNorm_shape (l : LayerNorm) : list (list nat) :=
  [[length (ln_weight l)]; [length (ln_bias l)]].
Definition Head_shape (h : Head) : list (list nat) :=
  Linear_shape (key h) ++ Linear_shape (query h) ++ Linear_shape (value h)
    ++ [map length (tril h)].
Definition Block_shape (b : Block) : list (list (list nat)) :=
  map Head_shape (heads (sa b))
    ++ [Linear_shape (proj (sa b)); Linear_shape (net_0 (ffwd b));
        Linear_shape (net_2 (ffwd b)); LayerNorm_shape (ln1 b); LayerNorm_shape (ln2 b)].
Definition StateDict_shape (s : StateDict) : list (list (list (list nat))) :=
  [[[mat_shape (token_embedding_table s)]; [mat_shape (position_embedding_table s)];
    LayerNorm_shape (ln_f s); Linear_shape (lm_head s)]]
    ++ map Block_shape (blocks s).

(** ** External collaborators

    The automatic-differentiation engine and the AdamW optimizer are used
    through their interface only: the gradient of the loss of a forward pass
    (which depends on the module, the batch and the generator state the pass
    started from, because of dropout), and the optimizer's update. *)

(** torch's global random generator, as an oracle tape: every sequence of
    outcomes the generator can produce is the reading of some tape. *)
Record Generator := {
  tape : nat → nat;
  real_tape : nat → R;
  cursor : nat
}.

Class Engine := {
  OptState : Type;
  Grad : Type;
  AdamW_new : StateDict → R → OptState;
  param_groups : OptState → list nat;
  backward : GPT → list (list nat) → list (list nat) → Generator → Grad;
  AdamW_step : OptState → StateDict → Grad → StateDict * OptState
}.

(** The [tokenizers] library. *)
Class TokenizerLib := {
  Tokenizer : Type;
  get_vocab_size : Tokenizer → nat;
  encode_ids : Tokenizer → string → list nat;
  decode : Tokenizer → list nat → string;
  bpe_train : list string → Tokenizer;
  set_post_processor : Tokenizer → Tokenizer
}.

(** ** Program state *)

(** The value of [loss]: [float('inf')] before the first step, a scalar
    afterwards. *)
Inductive Loss := LossInf | LossVal (r : R).

Inductive Exn :=
| IndexError
| RuntimeError
| TypeError
| ZeroDivisionError
| ValueError
| AttributeError
| NameError
| UnpicklingError
| Exception
| FileNotFoundError (path : string).

Inductive result (A : Type) :=
| Ok (a : A)
| Raise (e : Exn).
Arguments Ok {A} a.
Arguments Raise {A} e.

(** What is written to standard output, and the steps of [main] that the
    statements below speak about. *)
Inductive Event :=
| EvPrintDevice
| EvPrintLoadingTokenizer (file : string)
| EvPrintSavingTokenizer (file : string)
| EvPrintTokenizing (s : split)
| EvPrintFinishedLoading
| EvPrintLoadedCheckpoint (path : string) (epoch : Z)
| EvPrintGenerating (n : Z)
| EvPrintText (text : string)
| EvPrintStartingTraining
| EvPrintStep (i : Z) (train_loss eval_loss : R)
| EvPrintCheckpointing (epoch : Z)
| EvTokenizerLoaded
| EvTokenizerTrained
| EvDataLoaded (s : split)
| EvDataTokenized (s : split)
| EvModelConstructed (vocab_size : nat)
| EvOptimizerConstructed
| EvCheckpointRead (path : string)
| EvGenerate (max_new_tokens : nat)
| EvEstimateLoss
| EvOptimizerStep (i : Z)
| EvCheckpointWritten (path : string) (epoch : Z).

Section Program.
Context `{cfg : Config} `{eng : Engine} `{tok : TokenizerLib}.

(** The checkpoint record of [save_checkpoint]. *)
Record Checkpoint := {
  ck_epoch : Z;
  ck_model_state_dict : StateDict;
  ck_optimizer_state_dict : OptState;
  ck_loss : Loss
}.

Inductive File :=
| FText (text : string)
| FTokenizer (t : Tokenizer)
| FTensor (data : list nat)
| FCheckpoint (c : Checkpoint).

(** [net] is the module object that [main] names [model] and [m];
    [optimizer] is [optim]; [DATA] is the module-level dictionary of
    [train.py]; [heap] holds the integer context tensors of [generate],
    addressed by position, so that building a new tensor and writing into an
    old one are different things. *)
Record World := {
  fs : gmap string File;
  generator : Generator;
  net : option GPT;
  optimizer : option OptState;
  DATA : split → list nat;
  heap : list (list (list nat));
  log : list Event
}.

Definition set_fs (f : gmap string File) (w : World) : World :=
  {| fs := f; generator := generator w; net := net w; optimizer := optimizer w;
     DATA := DATA w; heap := heap w; log := log w |}.
Definition set_generator (g : Generator) (w : World) : World :=
  {| fs := fs w; generator := g; net := net w; optimizer := optimizer w;
     DATA := DATA w; heap := heap w; log := log w |}.
Definition set_net (m : option GPT) (w : World) : World :=
  {| fs := fs w; generator := generator w; net := m; optimizer := optimizer w;
     DATA := DATA w; heap := heap w; log := log w |}.
Definition set_optimizer (o : option OptState) (w : World) : World :=
  {| fs := fs w; generator := generator w; net := net w; optimizer := o;
     DATA := DATA w; heap := heap w; log := log w |}.
Definition set_DATA (d : split → list nat) (w : World) : World :=
  {| fs := fs w; generator := generator w; net := net w; optimizer := optimizer w;
     DATA := d; heap := heap w; log := log w |}.
Definition set_heap (h : list (list (list nat))) (w : World) : World :=
  {| fs := fs w; generator := generator w; net := net w; optimizer := optimizer w;
     DATA := DATA w; heap := h; log := log w |}.
Definition set_log (l : list Event) (w : World) : World :=
  {| fs := fs w; generator := generator w; net := net w; optimizer := optimizer w;
     DATA := DATA w; heap := heap w; log := l |}.

(** ** The monad of the program: state and exceptions *)

Definition M (A : Type) : Type := World → result A * World.

#[export] Instance M_ret : MRet M := λ A a w, (Ok a, w).
#[export] Instance M_bind : MBind M := λ A B k c w,
  match c w with
  | (Ok a, w') => k a w'
  | (Raise e, w') => (Raise e, w')
  end.

Definition raise {A} (e : Exn) : M A := λ w, (Raise e, w).
Definition gets {A} (f : World → A) : M A := λ w, (Ok (f w), w).
Definition modify (f : World → World) : M unit := λ w, (Ok tt, f w).
Definition emit (e : Event) : M unit := modify (λ w, set_log (log w ++ [e]) w).

(** One raw draw from the generator. *)
Definition draw : M nat := λ w,
  let g := generator w in
  (Ok (tape g (cursor g)),
   set_generator {| tape := tape g; real_tape := real_tape g; cursor := S (cursor g) |} w).

Definition draw_real : M R := λ w,
  let g := generator w in
  (Ok (real_tape g (cursor g)),
   set_generator {| tape := tape g; real_tape := real_tape g; cursor := S (cursor g) |} w).

(** [torch.randint(high, (n,))]: [n] integers of [0, high); an error when
    the range is empty. *)
Definition randint (high : Z) (n : nat) : M (list nat) :=
  if decide (high ≤ 0)%Z then raise RuntimeError
  else mapM (λ _, r ← draw; mret (r mod Z.to_nat high)) (seq 0 n).

(** The equally likely outcomes of one draw of [torch.randint(high, ...)]. *)
Definition randint_outcomes (high : Z) : list nat := seq 0 (Z.to_nat high).

(** [torch.multinomial(probs, num_samples=1)] for [probs] of shape
    (B, n_categories): one category per row.  The tape may name any
    category; which ones have positive probability is the generator's
    matter. *)
Definition multinomial (n_categories : nat) (probs : mat) : M (list (list nat)) :=
  if decide (n_categories = 0) then raise RuntimeError
  else mapM (λ _, r ← draw; mret [r mod n_categories]) probs.

(** [nn.Dropout(p)] on one entry: the identity outside training; in
    training the entry is zeroed or scaled by [1 / (1 - p)]. *)
Definition dropout1 (p : R) (train : bool) (x : R) : M R :=
  if train then r ← draw; mret (if Nat.odd r then (x / (1 - p))%R else 0%R)
  else mret x.

Definition dropout_vec (p : R) (train : bool) (v : vec) : M vec :=
  mapM (dropout1 p train) v.
Definition dropout_mat (p : R) (train : bool) (m : mat) : M mat :=
  mapM (dropout_vec p train) m.
Definition dropout_batch (p : R) (train : bool) (x : list mat) : M (list mat) :=
  mapM (dropout_mat p train) x.

(** ** gpt.py: construction *)

(** A freshly drawn (rows x cols) matrix.  The constructors of [nn.Linear]
    and [nn.Embedding] draw their default initial weights; [_init_weights]
    then overwrites them with draws of [normal_(mean=0.0, std=0.02)]. *)
Definition draw_mat (rows cols : nat) : M mat :=
  mapM (λ _, mapM (λ _, draw_real) (seq 0 cols)) (seq 0 rows).

Definition Linear_init (in_features out_features : nat) (with_bias : bool) : M Linear :=
  w ← draw_mat out_features in_features;
  b ← (if with_bias then v ← mapM (λ _, draw_real) (seq 0 out_features); mret (Some v)
       else mret None);
  mret {| weight := w; bias := b |}.

Definition LayerNorm_init (n : nat) : LayerNorm :=
  {| ln_weight := replicate n 1%R; ln_bias := replicate n 0%R |}.

Definition FeedForward_init (n_embd : nat) : M FeedForward :=
  l0 ← Linear_init n_embd (4 * n_embd) true;
  l2 ← Linear_init (4 * n_embd) n_embd true;
  mret {| net_0 := l0; net_2 := l2 |}.

Definition Head_init (head_size : nat) : M Head :=
  k ← Linear_init EMBED_SIZE head_size false;
  q ← Linear_init EMBED_SIZE head_size false;
  v ← Linear_init EMBED_SIZE head_size false;
  mret {| key := k; query := q; value := v; tril := tril_ones SEQ_LEN |}.

Definition MultiHeadAttention_init (num_heads head_size : nat) : M MultiHeadAttention :=
  hs ← mapM (λ _, Head_init head_size) (seq 0 num_heads);
  p ← Linear_init (num_heads * head_size) EMBED_SIZE true;
  mret {| heads := hs; proj := p |}.

(** [Block.__init__]: [num_embd // num_heads] is the one operation of the
    constructors that can raise. *)
Definition Block_init (num_embd num_heads : nat) : M Block :=
  head_size ← (if decide (num_heads = 0) then raise ZeroDivisionError
               else mret (num_embd / num_heads));
  a ← MultiHeadAttention_init num_heads head_size;
  f ← FeedForward_init num_embd;
  mret {| sa := a; ffwd := f; ln1 := LayerNorm_init num_embd; ln2 := LayerNorm_init num_embd |}.

(** [GPT._init_weights] on the module kinds it distinguishes. *)
Definition redraw (m : mat) : M mat := mapM (mapM (λ _, draw_real)) m.

Definition init_weights_Linear (l : Linear) : M Linear :=
  w ← redraw (weight l);
  mret {| weight := w; bias := (λ b : vec, replicate (length b) 0%R) <$> bias l |}.

Definition init_weights_Head (h : Head) : M Head :=
  k ← init_weights_Linear (key h);
  q ← init_weights_Linear (query h);
  v ← init_weights_Linear (value h);
  mret {| key := k; query := q; value := v; tril := tril h |}.

Definition init_weights_Block (b : Block) : M Block :=
  hs ← mapM init_weights_Head (heads (sa b));
  p ← init_weights_Linear (proj (sa b));
  l0 ← init_weights_Linear (net_0 (ffwd b));
  l2 ← init_weights_Linear (net_2 (ffwd b));
  mret {| sa := {| heads := hs; proj := p |}; ffwd := {| net_0 := l0; net_2 := l2 |};
          ln1 := ln1 b; ln2 := ln2 b |}.

(** [GPT.__init__]; a new module is in training mode. *)
Definition GPT_init (vocab_size : nat) : M GPT :=
  te ← draw_mat vocab_size EMBED_SIZE;
  pe ← draw_mat SEQ_LEN EMBED_SIZE;
  bs ← mapM (λ _, Block_init EMBED_SIZE NUM_HEADS) (seq 0 NUM_LAYERS);
  lh ← Linear_init EMBED_SIZE vocab_size true;
  te ← redraw te;
  pe ← redraw pe;
  bs ← mapM init_weights_Block bs;
  lh ← init_weights_Linear lh;
  mret {| state_dict := {| token_embedding_table := te; position_embedding_table := pe;
                           blocks := bs; ln_f := LayerNorm_init EMBED_SIZE; lm_head := lh |};
          training := true |}.

(** [nn.Module.train(mode)], and [model.eval()], which is [train(False)]. *)
Definition set_training (flag : bool) : M unit := λ w,
  match net w with
  | Some m => (Ok tt, set_net (Some {| state_dict := state_dict m; training := flag |}) w)
  | None => (Raise NameError, w)
  end.

Definition GPT_eval : M unit := set_training false.
Definition GPT_train : M unit := set_training true.

Definition self : M GPT := λ w,
  match net w with
  | Some m => (Ok m, w)
  | None => (Raise NameError, w)
  end.

(** ** gpt.py: forward passes; a tensor of shape (B, T, C) is a list of B
    matrices with T rows. *)

Definition FeedForward_forward (f : FeedForward) (train : bool) (x : list mat) : M (list mat) :=
  let h := map (map (λ r, Linear_forward (net_2 f) (relu (Linear_forward (net_0 f) r)))) x in
  dropout_batch DROPOUT train h.

(** [q @ k.transpose(-2, -1) / k.shape[-1] ** 0.5] *)
Definition Head_scores (h : Head) (x : list mat) : list mat :=
  let k := map (map (Linear_forward (key h))) x in
  let q := map (map (Linear_forward (query h))) x in
  let scale := sqrt (INR (out_features (key h))) in
  map (map (map (λ s, (s / scale)%R))) (zip_with matmul_transposed q k).

(** [self.tril[i, j] == 0] *)
Definition tril_is_zero (t : list (list nat)) (i j : nat) : bool :=
  bool_decide (t !! i ≫= (.!! j) = Some 0).

(** [wei.masked_fill(self.tril[:T, :T] == 0, float('-inf'))] for [wei] of
    shape (B, T, T).  The buffer is square; its slice has [min T n] rows and
    columns and must broadcast against (T, T): it fits when [T <= n], a
    1 x 1 slice is repeated, anything else is a shape error. *)
Definition masked_fill_tril (t : list (list nat)) (T : nat) (wei : list mat)
    : M (list (list (list xreal))) :=
  let fill (at_ : nat → nat → bool) :=
    map (imap (λ i, imap (λ j s, if at_ i j then NegInf else Finite s))) wei in
  if decide (T ≤ length t) then mret (fill (tril_is_zero t))
  else if decide (length t = 1) then mret (fill (λ _ _, tril_is_zero t 0 0))
  else raise RuntimeError.

(** The time dimension of a (B, T, ...) tensor.  The nested lists do not
    record the T of a tensor without rows (B = 0): it counts as 0. *)
Definition time_dim {A} (x : list (list A)) : nat :=
  match x with
  | [] => 0
  | r :: _ => length r
  end.

(** [Head.forward] up to and including the softmax: the attention-weight
    matrix. *)
Definition Head_attention (h : Head) (x : list mat) : M (list mat) :=
  let T := time_dim x in
  wei ← masked_fill_tril (tril h) T (Head_scores h x);
  mret (map (map softmax) wei).

Definition Head_forward (h : Head) (train : bool) (x : list mat) : M (list mat) :=
  wei ← Head_attention h x;
  wei ← dropout_batch DROPOUT train wei;
  let v := map (map (Linear_forward (value h))) x in
  mret (zip_with (matmul (out_features (value h))) wei v).

(** [torch.cat(outs, dim=-1)]; an empty list of tensors is an error. *)
Definition cat_last (outs : list (list mat)) : M (list mat) :=
  match outs with
  | [] => raise RuntimeError
  | o :: os => mret (foldl (zip_with (zip_with app)) o os)
  end.

Definition MultiHeadAttention_forward (a : MultiHeadAttention) (train : bool) (x : list mat)
    : M (list mat) :=
  outs ← mapM (λ h, Head_forward h train x) (heads a);
  out ← cat_last outs;
  dropout_batch DROPOUT train (map (map (Linear_forward (proj a))) out).

Definition Block_forward (b : Block) (train : bool) (x : list mat) : M (list mat) :=
  y ← MultiHeadAttention_forward (sa b) train (map (map (LayerNorm_forward (ln1 b))) x);
  let x := zip_with madd x y in
  y ← FeedForward_forward (ffwd b) train (map (map (LayerNorm_forward (ln2 b))) x);
  mret (zip_with madd x y).

(** [nn.Sequential] *)
Fixpoint Sequential_forward (bs : list Block) (train : bool) (x : list mat) : M (list mat) :=
  match bs with
  | [] => mret x
  | b :: bs => x ← Block_forward b train x; Sequential_forward bs train x
  end.

(** [nn.Embedding]: an index outside the table is an [IndexError]. *)
Definition Embedding_forward (table : mat) (i : nat) : M vec :=
  match table !! i with
  | Some row => mret row
  | None => raise IndexError
  end.

(** [F.cross_entropy(logits, targets)] on logits of shape (N, C): the mean
    of the negated log-probabilities of the targets. *)
Definition cross_entropy (logits : mat) (targets : list nat) : M R :=
  if decide (length logits = length targets) then
    ls ← mapM (λ '(row, t),
                match softmax (Finite <$> row) !! t with
                | Some p => mret (- ln p)%R
                | None => raise IndexError
                end) (zip logits targets);
    mret (vsum ls / INR (length ls))%R
  else raise RuntimeError.

(** The logits [GPT.forward] returns: of shape (B, T, vocab) without
    targets, viewed as (B*T, vocab) with targets. *)
Inductive Logits :=
| Logits3 (l : list mat)
| Logits2 (l : mat).

Definition GPT_forward (idx : list (list nat)) (targets : option (list (list nat)))
    : M (Logits * option R) :=
  m ← self;
  let sd := state_dict m in
  let T := time_dim idx in
  tok_emb ← mapM (mapM (Embedding_forward (token_embedding_table sd))) idx;
  pos_emb ← mapM (Embedding_forward (position_embedding_table sd)) (seq 0 T);
  let x := map (λ tb, madd tb pos_emb) tok_emb in
  x ← Sequential_forward (blocks sd) (training m) x;
  let x := map (map (LayerNorm_forward (ln_f sd))) x in
  let logits := map (map (Linear_forward (lm_head sd))) x in
  match targets with
  | None => mret (Logits3 logits, None)
  | Some targets =>
      let logits := concat logits in
      if decide (length (concat targets) = length idx * T) then
        loss ← cross_entropy logits (concat targets);
        mret (Logits2 logits, Some loss)
      else raise RuntimeError
  end.

(** ** gpt.py: generate *)

Definition alloc (t : list (list nat)) : M nat := λ w,
  (Ok (length (heap w)), set_heap (heap w ++ [t]) w).

Definition deref (l : nat) : M (list (list nat)) := λ w,
  match heap w !! l with
  | Some t => (Ok t, w)
  | None => (Raise NameError, w)
  end.

(** [idx[:, -SEQ_LEN:]]; with [SEQ_LEN = 0] the slice [-0:] is the whole
    row. *)
Definition crop (row : list nat) : list nat :=
  if decide (SEQ_LEN = 0) then row else drop (length row - SEQ_LEN) row.

(** [logits[:, -1, :]] *)
Definition last_step (logits : list mat) : M mat :=
  mapM (λ l : mat, match last l with
                   | Some r => mret r
                   | None => raise IndexError
                   end) logits.

(** The body of the loop of [generate]; [idx] and the result are heap
    addresses of (B, T) and (B, T+1) tensors. *)
Definition generate_step (idx : nat) : M nat :=
  ctx ← deref idx;
  let idx_cond := map crop ctx in
  '(logits, loss) ← GPT_forward idx_cond None;
  logits ← match logits with
           | Logits3 l => last_step l
           | Logits2 _ => raise IndexError
           end;
  let probs := map (λ r, softmax (Finite <$> r)) logits in
  m ← self;
  next_idx ← multinomial (out_features (lm_head (state_dict m))) probs;
  alloc (zip_with app ctx next_idx).

Fixpoint generate (idx : nat) (max_new_tokens : nat) : M nat :=
  match max_new_tokens with
  | 0 => mret idx
  | S n => idx ← generate_step idx; generate idx n
  end.

(** ** train.py *)

(** The namespace that [argparse] builds; an option that was not given is
    [None], except for the three with a default. *)
Record Args := {
  args_train : option string;
  args_eval : option string;
  args_generate : option Z;
  args_tokenizer : string;
  args_save_checkpoint : option string;
  args_load_checkpoint : option string;
  args_checkpoint_interval : Z;
  args_epochs : Z
}.

(** How an f-string prints an optional path. *)
Definition fmt (p : option string) : string := default "None" p.

Definition lookup_file (path : string) : M (option File) :=
  λ w, (Ok (fs w !! path), w).

(** [open(path).read()] *)
Definition read_text (path : option string) : M string :=
  match path with
  | None => raise TypeError
  | Some p =>
      f ← lookup_file p;
      match f with
      | Some (FText t) => mret t
      | Some _ => raise RuntimeError
      | None => raise (FileNotFoundError p)
      end
  end.

Definition write_file (path : string) (f : File) : M unit :=
  modify (λ w, set_fs (<[path := f]> (fs w)) w).

(** [os.path.exists] and [os.path.isfile]; the file system has no
    directories. *)
Definition path_exists (path : string) : M bool :=
  gets (λ w, bool_decide (is_Some (fs w !! path))).

(** What [tokenizer.train] reads from one of its files.  The errors of the
    [tokenizers] library are bare [Exception]s; a path that is not a string
    is refused when the arguments are converted. *)
Definition train_text (path : option string) : M string :=
  match path with
  | None => raise TypeError
  | Some p =>
      f ← lookup_file p;
      match f with
      | Some (FText t) => mret t
      | _ => raise Exception
      end
  end.

(** [get_tokenizer].  The file system has no directories, so that
    [tokenizer.save] always finds the place to write to. *)
Definition get_tokenizer (train eval : option string) (tokenizer_file : string) : M Tokenizer :=
  ex ← path_exists tokenizer_file;
  tokenizer ←
    (if (ex : bool) then
       emit (EvPrintLoadingTokenizer tokenizer_file);;
       f ← lookup_file tokenizer_file;
       match f with
       | Some (FTokenizer t) => emit EvTokenizerLoaded;; mret t
       | _ => raise Exception
       end
     else
       t1 ← train_text train;
       t2 ← train_text eval;
       let t := bpe_train [t1; t2] in
       emit EvTokenizerTrained;;
       emit (EvPrintSavingTokenizer tokenizer_file);;
       write_file tokenizer_file (FTokenizer t);;
       mret t);
  mret (set_post_processor tokenizer).

Definition set_data (s : split) (d : list nat) : M unit :=
  modify (λ w, set_DATA (λ s', if decide (s' = s) then d else DATA w s') w).

(** One half of [preprocess_data]: the code is written out once for the
    training data and once for the evaluation data. *)
Definition preprocess_split (s : split) (path : option string) (tokenizer : Tokenizer) : M unit :=
  let out := fmt path +:+ "_tokenized" in
  ex ← path_exists out;
  if (ex : bool) then
    f ← lookup_file out;
    match f with
    | Some (FTensor d) => set_data s d;; emit (EvDataLoaded s)
    | _ => raise UnpicklingError
    end
  else
    emit (EvPrintTokenizing s);;
    text ← read_text path;
    let encoded := encode_ids tokenizer text in
    set_data s encoded;;
    emit (EvDataTokenized s);;
    write_file out (FTensor encoded).

Definition preprocess_data (args : Args) (tokenizer : Tokenizer) : M unit :=
  preprocess_split TRAIN (args_train args) tokenizer;;
  preprocess_split EVAL (args_eval args) tokenizer.

(** [data[a:b]] for [0 <= a <= b]; a slice stops at the end of the data. *)
Definition slice (data : list nat) (a b : nat) : list nat := take (b - a) (drop a data).

(** [get_batch]: [torch.stack] of an empty list is an error. *)
Definition get_batch (s : split) : M (list (list nat) * list (list nat)) :=
  data ← gets (λ w, DATA w s);
  ix ← randint (Z.of_nat (length data) - Z.of_nat SEQ_LEN) BATCH_SIZE;
  if decide (ix = []) then raise RuntimeError
  else
    let x := map (λ i, slice data i (i + SEQ_LEN)) ix in
    let y := map (λ i, slice data (i + 1) (i + 1 + SEQ_LEN)) ix in
    mret (x, y).

(** The offsets [get_batch] takes its windows from, as one draw of
    [torch.randint] gives them. *)
Definition get_batch_offsets (data : list nat) : list nat :=
  randint_outcomes (Z.of_nat (length data) - Z.of_nat SEQ_LEN).

Definition loss_of (l : option R) : M R :=
  match l with
  | Some r => mret r
  | None => raise TypeError
  end.

Definition estimate_split (s : split) : M R :=
  losses ← mapM (λ _, '(xb, yb) ← get_batch s;
                      '(_, loss) ← GPT_forward xb (Some yb);
                      loss_of loss) (seq 0 EVAL_ITERS);
  mret (vsum losses / INR (length losses))%R.

Definition estimate_loss : M (R * R) :=
  GPT_eval;;
  emit EvEstimateLoss;;
  lt ← estimate_split TRAIN;
  le ← estimate_split EVAL;
  GPT_train;;
  mret (lt, le).

Definition the_optimizer : M OptState := λ w,
  match optimizer w with
  | Some o => (Ok o, w)
  | None => (Raise NameError, w)
  end.

Definition save_checkpoint (path : option string) (epoch : Z) (loss : Loss) : M unit :=
  emit (EvPrintCheckpointing epoch);;
  m ← self;
  o ← the_optimizer;
  match path with
  | None => raise AttributeError
  | Some p =>
      write_file p (FCheckpoint {| ck_epoch := epoch; ck_model_state_dict := state_dict m;
                                   ck_optimizer_state_dict := o; ck_loss := loss |});;
      emit (EvCheckpointWritten p epoch)
  end.

(** [model.load_state_dict]: missing keys, unexpected keys and shape
    mismatches are errors; the mode of the module is not touched. *)
Definition load_state_dict (sd : StateDict) : M unit :=
  m ← self;
  if decide (StateDict_shape sd = StateDict_shape (state_dict m)) then
    modify (set_net (Some {| state_dict := sd; training := training m |}))
  else raise RuntimeError.

Definition optim_load_state_dict (o' : OptState) : M unit :=
  o ← the_optimizer;
  if decide (param_groups o' = param_groups o) then modify (set_optimizer (Some o'))
  else raise ValueError.

(** [load_checkpoint].  [torch.load] returns what [torch.save] wrote: a file
    of tokenized data loads as a tensor, and indexing it by
    ['model_state_dict'] is an [IndexError]; a text or tokenizer file is
    not a pickle. *)
Definition load_checkpoint (path : string) : M (Z * Loss) :=
  f ← lookup_file path;
  match f with
  | None => raise (FileNotFoundError path)
  | Some (FCheckpoint c) =>
      emit (EvCheckpointRead path);;
      load_state_dict (ck_model_state_dict c);;
      optim_load_state_dict (ck_optimizer_state_dict c);;
      emit (EvPrintLoadedCheckpoint path (ck_epoch c));;
      mret (ck_epoch c, ck_loss c)
  | Some (FTensor _) => raise IndexError
  | Some _ => raise UnpicklingError
  end.

(** [range(a, b)] *)
Definition range (a b : Z) : list Z :=
  map (λ k, (a + Z.of_nat k)%Z) (seq 0 (Z.to_nat (b - a))).

(** [a % b] *)
Definition py_mod (a b : Z) : M Z :=
  if decide (b = 0%Z) then raise ZeroDivisionError else mret (a mod b)%Z.

Fixpoint for_each {A} (l : list A) (body : A → M unit) : M unit :=
  match l with
  | [] => mret tt
  | a :: l => body a;; for_each l body
  end.

(** Forward, backward and optimizer step on one batch. *)
Definition optimization_step (i : Z) : M R :=
  '(xb, yb) ← get_batch TRAIN;
  g ← gets generator;
  '(_, loss) ← GPT_forward xb (Some yb);
  loss ← loss_of loss;
  m ← self;
  o ← the_optimizer;
  let '(sd, o) := AdamW_step o (state_dict m) (backward m xb yb g) in
  modify (set_net (Some {| state_dict := sd; training := training m |}));;
  modify (set_optimizer (Some o));;
  emit (EvOptimizerStep i);;
  mret loss.

(** The body of the training loop of [main] at epoch [i]; [epoch] is the
    epoch the loop started from. *)
Definition train_epoch (args : Args) (epoch i : Z) : M unit :=
  (if decide (i ≠ epoch ∧ (i mod EVAL_INTERVAL = 0)%Z) then
     '(lt, le) ← estimate_loss; emit (EvPrintStep i lt le)
   else mret tt);;
  loss ← optimization_step i;
  due ← (if decide (i ≠ epoch) then
           r ← py_mod i (args_checkpoint_interval args); mret (bool_decide (r = 0%Z))
         else mret false);
  if due || bool_decide (i = (args_epochs args - 1)%Z)
  then save_checkpoint (args_save_checkpoint args) i (LossVal loss)
  else mret tt.

Definition training_loop (args : Args) (epoch : Z) : M unit :=
  emit EvPrintStartingTraining;;
  for_each (range epoch (args_epochs args)) (train_epoch args epoch).

(** Lines 120-140 of [main]: everything before the choice between
    generating and training. *)
Definition main_setup (args : Args) : M (Tokenizer * Z * Loss) :=
  emit EvPrintDevice;;
  tokenizer ← get_tokenizer (args_train args) (args_eval args) (args_tokenizer args);
  preprocess_data args tokenizer;;
  emit EvPrintFinishedLoading;;
  model ← GPT_init (get_vocab_size tokenizer);
  modify (set_net (Some model));;
  emit (EvModelConstructed (get_vocab_size tokenizer));;
  modify (set_optimizer (Some (AdamW_new (state_dict model) LEARNING_RATE)));;
  emit EvOptimizerConstructed;;
  '(epoch, loss) ←
    match args_load_checkpoint args with
    | Some p =>
        if decide (p = "") then mret (0%Z, LossInf)
        else
          isfile ← path_exists p;
          if (isfile : bool) then load_checkpoint p else raise (FileNotFoundError p)
    | None => mret (0%Z, LossInf)
    end;
  mret (tokenizer, epoch, loss).

(** Lines 143-148: the branch taken when [args.generate] is given and not
    zero. *)
Definition main_generate (args : Args) (tokenizer : Tokenizer) (n : Z) : M unit :=
  emit (EvPrintGenerating n);;
  context ← alloc [[0]];
  emit (EvGenerate 300);;
  out ← generate context 300;
  out ← deref out;
  match out with
  | row :: _ => emit (EvPrintText (decode tokenizer row))
  | [] => raise IndexError
  end.

Definition main (args : Args) : M unit :=
  '(tokenizer, epoch, loss) ← main_setup args;
  match args_generate args with
  | Some n =>
      if decide (n = 0%Z) then training_loop args epoch
      else main_generate args tokenizer n
  | None => training_loop args epoch
  end.

(** The state a run of the program starts from. *)
Definition initial_world (files : gmap string File) (g : Generator) : World :=
  {| fs := files; generator := g; net := None; optimizer := None;
     DATA := λ _, []; heap := []; log := [] |}.

End Program.

(** ** Instances used to run the definitions on concrete inputs *)

(** A one-layer, one-head model with a context of two tokens. *)
Definition small_config : Config :=
  {| NUM_LAYERS := 1; NUM_HEADS := 1; SEQ_LEN := 2; EMBED_SIZE := 2;
     DROPOUT := (2 / 10)%R; BATCH_SIZE := 1 |}.

(** An engine whose optimizer leaves the parameters as they are. *)
Definition idle_engine : Engine :=
  {| OptState := unit; Grad := unit;
     AdamW_new := λ _ _, tt;
     param_groups := λ _, [];
     backward := λ _ _ _ _, tt;
     AdamW_step := λ o sd _, (sd, o) |}.

(** A tokenizer library whose tokenizers are their vocabulary size and
    encode every text as two copies of token 0 per character. *)
Definition unary_tokenizers : TokenizerLib :=
  {| Tokenizer := nat;
     get_vocab_size := λ v, v;
     encode_ids := λ _ s, replicate (2 * String.length s) 0;
     decode := λ _ l, String.concat "" (map (λ _, "a"%string) l);
     bpe_train := λ _, 1;
     set_post_processor := λ t, t |}.

Definition zero_generator : Generator :=
  {| tape := λ _, 0; real_tape := λ _, 0%R; cursor := 0 |}.

(** The constants of [gpt.py] with a head count that does not divide the
    embedding width. *)
Definition five_heads_config : Config :=
  {| NUM_LAYERS := 6; NUM_HEADS := 5; SEQ_LEN := 256; EMBED_SIZE := 384;
     DROPOUT := (2 / 10)%R; BATCH_SIZE := 1 |}.

(** A head of the source configuration: 64 features, all weights 1. *)
Definition ones_head : Head :=
  let l := {| weight := replicate 64 (replicate 384 1%R); bias := None |} in
  {| key := l; query := l; value := l; tril := tril_ones 256 |}.

(** An engine whose optimizer state is the size of its one parameter
    group and the number of steps taken. *)
Definition grouped_engine : Engine :=
  {| OptState := nat * nat; Grad := unit;
     AdamW_new := λ _ _, (1, 0);
     param_groups := λ o, [o.1];
     backward := λ _ _ _ _, tt;
     AdamW_step := λ o sd _, (sd, (o.1, S o.2)) |}.


Section Examples.
#[local] Existing Instance small_config.
#[local] Existing Instance idle_engine.
#[local] Existing Instance unary_tokenizers.

(** Two short text files; no tokenizer file, no tokenized data and no
    checkpoint yet. *)
Definition small_files : gmap string File :=
  <["t" := FText "ab"]> (<["e" := FText "cd"]> ∅).

Definition small_args (generate : option Z) (load : option string) (epochs : Z) : Args :=
  {| args_train := Some "t"; args_eval := Some "e"; args_generate := generate;
     args_tokenizer := "tok.json"; args_save_checkpoint := Some "ck.pt";
     args_load_checkpoint := load; args_checkpoint_interval := 1000;
     args_epochs := epochs |}.

Definition start_world : World := initial_world small_files zero_generator.

(** The world after the setup phase of [main] on the small files. *)
Definition after_setup (args : Args) : World := (main_setup args start_world).2.

(** The same, with a context tensor of shape (1, 0) at address 0. *)
Definition empty_context_world : World :=
  (alloc [[]] (after_setup (small_args None None 1))).2.

(** The same, with the context tensor [[0]] of shape (1, 1) at address 0. *)
Definition one_token_world : World :=
  (alloc [[0]] (after_setup (small_args None None 1))).2.


(** The world after the setup phase and [model.eval()]. *)
Definition eval_world : World :=
  (GPT_eval (after_setup (small_args None None 1))).2.

(** A module whose one parameter is [r]. *)
Definition one_param_model (r : R) : GPT :=
  {| state_dict := {| token_embedding_table := [[r]]; position_embedding_table := [];
                      blocks := []; ln_f := LayerNorm_init 0;
                      lm_head := {| weight := []; bias := None |} |};
     training := true |}.

(** A process whose module holds the parameter 1 and whose optimizer has
    taken three steps on its group of one parameter. *)
Definition trained_world : @World grouped_engine unary_tokenizers :=
  {| fs := ∅; generator := zero_generator; net := Some (one_param_model 1);
     optimizer := Some ((1, 3) : @OptState grouped_engine);
     DATA := λ _, []; heap := []; log := [] |}.

(** Another process on the files of [w]: a module that holds the parameter
    2 and an optimizer that has taken no step. *)
Definition fresh_process (w : @World grouped_engine unary_tokenizers)
    : @World grouped_engine unary_tokenizers :=
  set_optimizer (Some ((1, 0) : @OptState grouped_engine))
    (set_net (Some (one_param_model 2)) w).

(** A module that holds the parameter 2, an optimizer with one group of one
    parameter, and a checkpoint file that holds the parameter 1 and was
    written for an optimizer with one group of two parameters. *)
Definition foreign_checkpoint_world : @World grouped_engine unary_tokenizers :=
  {| fs := {[ "ck.pt"%string :=
                FCheckpoint {| ck_epoch := 3;
                               ck_model_state_dict := state_dict (one_param_model 1);
                               ck_optimizer_state_dict := ((2, 5) : @OptState grouped_engine);
                               ck_loss := LossInf |} ]};
     generator := zero_generator; net := Some (one_param_model 2);
     optimizer := Some ((1, 0) : @OptState grouped_engine);
     DATA := λ _, []; heap := []; log := [] |}.

(** The arguments of a run of [epochs] epochs on the small files without
    [--save-checkpoint]. *)
Definition unsaved_args (epochs : Z) : Args :=
  {| args_train := Some "t"; args_eval := Some "e"; args_generate := None;
     args_tokenizer := "tok.json"; args_save_checkpoint := None;
     args_load_checkpoint := None; args_checkpoint_interval := 1000;
     args_epochs := epochs |}.

(** The arguments of a run of [epochs] epochs on the small files with
    [--checkpoint-interval 0]. *)
Definition zero_interval_args (epochs : Z) : Args :=
  {| args_train := Some "t"; args_eval := Some "e"; args_generate := None;
     args_tokenizer := "tok.json"; args_save_checkpoint := Some "ck.pt";
     args_load_checkpoint := None; args_checkpoint_interval := 0;
     args_epochs := epochs |}.

(** The small files with a tokenizer file for a vocabulary of two tokens. *)
Definition two_token_files : gmap string File :=
  <["tok.json" := FTokenizer (2 : @Tokenizer unary_tokenizers)]> small_files.

(** A generator whose real draws are 0, 1, 2, ... *)
Definition counting_generator : Generator :=
  {| tape := λ _, 0; real_tape := INR; cursor := 0 |}.

(** The world after the setup phase on these files, with weights drawn
    from the counting generator, and [model.eval()]. *)
Definition two_token_world : World :=
  (GPT_eval (main_setup (small_args None None 1)
               (initial_world two_token_files counting_generator)).2).2.

End Examples.

(** ** Reasoning about the monad *)

Section Proofs.
Context `{cfg : Config} `{eng : Engine} `{tok : TokenizerLib}.

(** [w'] is [w] with the generator advanced. *)
Definition same_but_rng (w w' : World) : Prop := w' = set_generator (generator w') w.

(** [c] returns from [w], touches nothing but the generator, and its result
    satisfies [Q]. *)
Definition total {A} (c : M A) (w : World) (Q : A → Prop) : Prop :=
  ∃ a w', c w = (Ok a, w') ∧ same_but_rng w w' ∧ Q a.

(** A tensor of [B] rows that each hold [T] entries. *)
Definition shaped {A} (B T : nat) (x : list (list A)) : Prop :=
  length x = B ∧ Forall (λ r, length r = T) x.

(** Shapes that [forward] depends on: the embedding tables, the mask
    buffers, and at least one head per block. *)
Definition Block_wf (b : Block) : Prop :=
  heads (sa b) ≠ [] ∧ Forall (λ h, length (tril h) = SEQ_LEN) (heads (sa b)).

Definition GPT_wf (vocab_size : nat) (sd : StateDict) : Prop :=
  length (token_embedding_table sd) = vocab_size
  ∧ length (position_embedding_table sd) = SEQ_LEN
  ∧ Forall Block_wf (blocks sd)
  ∧ out_features (lm_head sd) = vocab_size.

(** Every token of [idx] is below [vocab_size]. *)
Definition tokens_below (vocab_size : nat) (idx : list (list nat)) : Prop :=
  Forall (Forall (λ t, t < vocab_size)) idx.

(** [w'] keeps what [w] holds outside the generator and the heap, and every
    tensor of the heap of [w] is in the heap of [w'], unchanged, at the same
    address. *)
Definition extends (w w' : World) : Prop :=
  fs w' = fs w ∧ net w' = net w ∧ optimizer w' = optimizer w
  ∧ DATA w' = DATA w ∧ log w' = log w ∧ heap w `prefix_of` heap w'.

(** A linear map from [inf] to [outf] features. *)
Definition Linear_dims (inf outf : nat) (l : Linear) : Prop :=
  shaped outf inf (weight l).

(** A head of width [head_size] over the embedding, with the mask of
    [__init__]. *)
Definition Head_dims (head_size : nat) (h : Head) : Prop :=
  Linear_dims EMBED_SIZE head_size (key h)
  ∧ Linear_dims EMBED_SIZE head_size (query h)
  ∧ Linear_dims EMBED_SIZE head_size (value h)
  ∧ tril h = tril_ones SEQ_LEN.

(** A block as [Block(num_embd, num_heads)] builds it: [num_heads] heads of
    width [num_embd // num_heads], and a projection from the width of their
    concatenation back to the embedding. *)
Definition Block_dims (num_embd num_heads : nat) (b : Block) : Prop :=
  length (heads (sa b)) = num_heads
  ∧ Forall (Head_dims (num_embd / num_heads)) (heads (sa b))
  ∧ Linear_dims (num_heads * (num_embd / num_heads)) EMBED_SIZE (proj (sa b))
  ∧ Linear_dims num_embd (4 * num_embd) (net_0 (ffwd b))
  ∧ Linear_dims (4 * num_embd) num_embd (net_2 (ffwd b)).

(** What training and inference read: the module, the optimizer, the
    data, the generator and the heap; not the files and not what was
    printed. *)
Definition core (w : World) :=
  (net w, optimizer w, DATA w, generator w, heap w).

(** [c] reads and writes the world through [core] only: from two worlds
    with the same core it gives the same outcome and worlds with the same
    core again. *)
Definition respects_core {A} (c : M A) : Prop :=
  ∀ w1 w2, core w1 = core w2 →
    (c w1).1 = (c w2).1 ∧ core (c w1).2 = core (c w2).2.

(** The events of the steps [main] takes before it looks at the checkpoint
    path: printing, the tokenizer, tokenization and loading of the data, and
    the construction of the model and the optimizer. *)
Definition setup_event (ev : Event) : Prop :=
  match ev with
  | EvPrintDevice | EvPrintLoadingTokenizer _ | EvPrintSavingTokenizer _
  | EvPrintTokenizing _ | EvPrintFinishedLoading
  | EvTokenizerLoaded | EvTokenizerTrained | EvDataLoaded _ | EvDataTokenized _
  | EvModelConstructed _ | EvOptimizerConstructed => True
  | _ => False
  end.

Definition no_checkpoint_at (p : string) (w : World) : Prop :=
  ∀ c, fs w !! p ≠ Some (FCheckpoint c).

(** From [w] to [w']: only setup events were logged and no checkpoint file
    appeared. *)
Definition setup_rel (w w' : World) : Prop :=
  (∃ evs, log w' = log w ++ evs ∧ Forall setup_event evs)
  ∧ (∀ p, no_checkpoint_at p w → no_checkpoint_at p w').

Definition setup_frame {A} (c : M A) : Prop :=
  ∀ w r w', c w = (r, w') → setup_rel w w'.

(** The epochs of the checkpoints written, in the order of writing. *)
Definition saved_epochs (evs : list Event) : list Z :=
  omap (λ ev, match ev with EvCheckpointWritten _ i => Some i | _ => None end) evs.

(** The condition of [main] for a checkpoint at epoch [i] of a loop started
    at [epoch]. *)
Definition checkpoint_due (args : Args) (epoch i : Z) : Prop :=
  (i ≠ epoch ∧ (i mod args_checkpoint_interval args = 0)%Z)
  ∨ i = (args_epochs args - 1)%Z.

#[export] Instance checkpoint_due_dec args epoch i : Decision (checkpoint_due args epoch i).
Proof. unfold checkpoint_due. apply _. Defined.

(** Whatever the outcome, [c] writes no checkpoint. *)
Definition silent {A} (c : M A) : Prop :=
  ∀ w r w', c w = (r, w') → ∃ evs, log w' = log w ++ evs ∧ saved_epochs evs = [].

(** Whatever the outcome, [c] leaves the world as it is. *)
Definition pure_frame {A} (c : M A) : Prop :=
  ∀ w r w', c w = (r, w') → w' = w.

(** Whatever the outcome, [c] touches nothing but the generator and what
    was printed. *)
Definition quiet_frame {A} (c : M A) : Prop :=
  ∀ w r w', c w = (r, w') →
    fs w' = fs w ∧ net w' = net w ∧ optimizer w' = optimizer w
    ∧ DATA w' = DATA w ∧ heap w' = heap w.

(** The steps of a training run that the log shows: a printed loss
    estimate, an optimizer step and a written checkpoint, each with its
    epoch. *)
Inductive Milestone := Estimated (i : Z) | Stepped (i : Z) | Saved (i : Z).

Definition milestone (ev : Event) : option Milestone :=
  match ev with
  | EvPrintStep i _ _ => Some (Estimated i)
  | EvOptimizerStep i => Some (Stepped i)
  | EvCheckpointWritten _ i => Some (Saved i)
  | _ => None
  end.

(** What epoch [i] of a loop started at [epoch] does, in this order. *)
Definition epoch_schedule (args : Args) (epoch i : Z) : list Milestone :=
  (if decide (i ≠ epoch ∧ (i mod EVAL_INTERVAL = 0)%Z) then [Estimated i] else [])
  ++ [Stepped i]
  ++ (if decide (checkpoint_due args epoch i) then [Saved i] else []).

(** The biases and the normalization layers of a block as [GPT.__init__]
    leaves them: no bias in the heads, zero biases elsewhere, and the
    default [nn.LayerNorm]. *)
Definition Block_fresh (b : Block) : Prop :=
  Forall (λ h, bias (key h) = None ∧ bias (query h) = None ∧ bias (value h) = None)
         (heads (sa b))
  ∧ bias (proj (sa b)) = Some (zeros EMBED_SIZE)
  ∧ bias (net_0 (ffwd b)) = Some (zeros (4 * EMBED_SIZE))
  ∧ bias (net_2 (ffwd b)) = Some (zeros EMBED_SIZE)
  ∧ ln1 b = LayerNorm_init EMBED_SIZE
  ∧ ln2 b = LayerNorm_init EMBED_SIZE.

(** The bias of a linear map, when it has one, has one entry per output
    feature. *)
Definition bias_fits (l : Linear) : Prop :=
  match bias l with
  | Some b => length b = out_features l
  | None => True
  end.

(** The biases of a block as [Block.__init__] draws them, before
    [_init_weights] is applied. *)
Definition Block_drawn (num_embd : nat) (b : Block) : Prop :=
  Forall (λ h, bias (key h) = None ∧ bias (query h) = None ∧ bias (value h) = None)
         (heads (sa b))
  ∧ (∃ v, bias (proj (sa b)) = Some v ∧ length v = EMBED_SIZE)
  ∧ (∃ v, bias (net_0 (ffwd b)) = Some v ∧ length v = 4 * num_embd)
  ∧ (∃ v, bias (net_2 (ffwd b)) = Some v ∧ length v = num_embd)
  ∧ ln1 b = LayerNorm_init num_embd
  ∧ ln2 b = LayerNorm_init num_embd.

(** Row [i] of what a head returns in evaluation mode for one element [xb]
    of the batch, [xi] being row [i] of [xb]: the values, weighted by the
    softmax of the masked scores of query [i]. *)
Definition Head_row (h : Head) (xb : mat) (i : nat) (xi : vec) : vec :=
  let scale := sqrt (INR (out_features (key h))) in
  let scores :=
    map (λ xj, (dot (Linear_forward (query h) xi) (Linear_forward (key h) xj) / scale)%R) xb in
  let wei :=
    softmax (imap (λ j s, if tril_is_zero (tril h) i j then NegInf else Finite s) scores) in
  foldr vadd (zeros (out_features (value h)))
        (zip_with vscale wei (map (Linear_forward (value h)) xb)).

(** A block with at least one head whose heads hold the causal mask of
    [Head.__init__]. *)
Definition Block_causal (b : Block) : Prop :=
  heads (sa b) ≠ [] ∧ Forall (λ h, tril h = tril_ones SEQ_LEN) (heads (sa b)).



(** Whatever the outcome, [c] adds to the log only events that satisfy
    [P]. *)
Definition logs_only {A} (P : Event → Prop) (c : M A) : Prop :=
  ∀ w r w', c w = (r, w') → ∃ evs, log w' = log w ++ evs ∧ Forall P evs.

(** The generator after [n] draws. *)
Definition advance (n : nat) (g : Generator) : Generator :=
  {| tape := tape g; real_tape := real_tape g; cursor := cursor g + n |}.


(** Whatever the outcome, [c] touches nothing but the generator. *)
Definition rng_frame {A} (c : M A) : Prop :=
  ∀ w r w', c w = (r, w') → same_but_rng w w'.

(** Whatever the outcome, [c] only advances the generator and adds tensors
    to the heap. *)
Definition heap_frame {A} (c : M A) : Prop :=
  ∀ w r w', c w = (r, w') → extends w w'.

(** Closes the goal [respects_core c] for a [c] that is written as a function
    of the world. *)
Ltac core_prim :=
  let Hc := fresh "Hc" in
  intros ? ? Hc; unfold core in Hc; injection Hc; intros;
  unfold core; simpl; split; congruence.

Lemma same_but_rng_refl w : same_but_rng w w.
Proof. by destruct w. Qed.

Lemma same_but_rng_trans w1 w2 w3 :
  same_but_rng w1 w2 → same_but_rng w2 w3 → same_but_rng w1 w3.
Proof. unfold same_but_rng. intros -> ->. by destruct w1. Qed.

Lemma same_but_rng_set g w : same_but_rng w (set_generator g w).
Proof. by destruct w. Qed.

Lemma bind_Ok {A B} (c : M A) (k : A → M B) w a w' :
  c w = (Ok a, w') → (c ≫= k) w = k a w'.
Proof. intros Hc. unfold mbind, M_bind. by rewrite Hc. Qed.

Lemma bind_Raise {A B} (c : M A) (k : A → M B) w e w' :
  c w = (Raise e, w') → (c ≫= k) w = (Raise e, w').
Proof. intros Hc. unfold mbind, M_bind. by rewrite Hc. Qed.

Lemma bind_inv {A B} (c : M A) (k : A → M B) w r w' :
  (c ≫= k) w = (r, w') →
  (∃ a w1, c w = (Ok a, w1) ∧ k a w1 = (r, w'))
  ∨ (∃ e, c w = (Raise e, w') ∧ r = Raise e).
Proof.
  unfold mbind, M_bind. destruct (c w) as [[a|e] w1]; intros Hk.
  - left. eauto.
  - right. exists e. by inversion Hk.
Qed.

Lemma total_ret {A} (a : A) w (Q : A → Prop) : Q a → total (mret a) w Q.
Proof. intros. exists a, w. split; [done|]. split; [apply same_but_rng_refl | done]. Qed.

Lemma total_bind {A B} (c : M A) (k : A → M B) w (Q : A → Prop) (R : B → Prop) :
  total c w Q →
  (∀ a w', same_but_rng w w' → Q a → total (k a) w' R) →
  total (c ≫= k) w R.
Proof.
  intros (a & w1 & Hc & Hw & Ha) Hk.
  destruct (Hk a w1 Hw Ha) as (b & w2 & Hb & Hw2 & HR).
  exists b, w2. split; [by rewrite (bind_Ok _ _ _ _ _ Hc)|].
  split; [by eapply same_but_rng_trans | done].
Qed.

Lemma total_weaken {A} (c : M A) w (Q Q' : A → Prop) :
  total c w Q → (∀ a, Q a → Q' a) → total c w Q'.
Proof. intros (a & w' & ? & ? & ?) HQ. exists a, w'. eauto. Qed.

Lemma total_mapM {A B} (f : A → M B) (Q : A → B → Prop) (l : list A) :
  ∀ w, (∀ a w', a ∈ l → same_but_rng w w' → total (f a) w' (Q a)) →
       total (mapM f l) w (Forall2 Q l).
Proof.
  induction l as [|a l IH]; intros w Hf; simpl.
  - apply total_ret. constructor.
  - eapply total_bind.
    { apply Hf; [left | apply same_but_rng_refl]. }
    intros b w1 Hw1 Hb. eapply total_bind.
    { apply IH. intros a' w' Hin Hw'. apply Hf; [by right|].
      by eapply same_but_rng_trans. }
    intros bs w2 Hw2 Hbs. apply total_ret. by constructor.
Qed.

Lemma total_draw w : total draw w (λ _, True).
Proof.
  eexists _, _. split; [reflexivity|]. split; [apply same_but_rng_set | done].
Qed.

Lemma total_draw_real w : total draw_real w (λ _, True).
Proof.
  eexists _, _. split; [reflexivity|]. split; [apply same_but_rng_set | done].
Qed.

Lemma map_fmap {A B} (f : A → B) (l : list A) : map f l = f <$> l.
Proof. reflexivity. Qed.

(** ** The causal mask *)

Lemma length_tril_ones n : length (tril_ones n) = n.
Proof. unfold tril_ones. by rewrite length_map, length_seq. Qed.

Lemma tril_is_zero_ones n i j :
  i < n → j < n → tril_is_zero (tril_ones n) i j = bool_decide (i < j).
Proof.
  intros Hi Hj. unfold tril_is_zero, tril_ones.
  rewrite list_lookup_fmap, lookup_seq_lt by done. simpl.
  rewrite list_lookup_fmap, lookup_seq_lt by done. simpl.
  destruct (decide (j ≤ i)).
  - rewrite bool_decide_eq_false_2 by (intros [=]).
    symmetry. apply bool_decide_eq_false_2. lia.
  - rewrite bool_decide_eq_true_2 by done.
    symmetry. apply bool_decide_eq_true_2. lia.
Qed.

Lemma Head_scores_lookup (h : Head) (x : list mat) b :
  Head_scores h x !! b =
  (λ xb, map (map (λ s, (s / sqrt (INR (out_features (key h))))%R))
           (matmul_transposed (map (Linear_forward (query h)) xb)
                              (map (Linear_forward (key h)) xb))) <$> x !! b.
Proof.
  unfold Head_scores.
  rewrite list_lookup_fmap, lookup_zip_with, !list_lookup_fmap.
  destruct (x !! b) as [xb|]; reflexivity.
Qed.

Lemma softmax_lookup row j :
  softmax row !! j = (λ s, (xexp s / vsum (map xexp row))%R) <$> row !! j.
Proof. unfold softmax. by rewrite list_lookup_fmap. Qed.

Lemma time_dim_le {A} (x : list (list A)) T n :
  Forall (λ m, length m = T) x → T ≤ n → time_dim x ≤ n.
Proof. intros Hx HT. destruct x as [|r x]; simpl; [lia|]. inversion Hx. lia. Qed.

Lemma Head_attention_eq (h : Head) (x : list mat) w :
  time_dim x ≤ length (tril h) →
  Head_attention h x w =
  (Ok (map (map softmax)
         (map (imap (λ i, imap (λ j s, if tril_is_zero (tril h) i j then NegInf else Finite s)))
            (Head_scores h x))), w).
Proof.
  intros HT. unfold Head_attention, masked_fill_tril.
  rewrite decide_True by done. reflexivity.
Qed.

Lemma masked_weight_zero (h : Head) (x : list mat) T b i j :
  tril h = tril_ones SEQ_LEN →
  Forall (λ m, length m = T) x →
  T ≤ SEQ_LEN → b < length x → i < j → j < T →
  entry (map (map softmax)
    (map (imap (λ i, imap (λ j s, if tril_is_zero (tril h) i j then NegInf else Finite s)))
       (Head_scores h x))) b i j = Some 0%R.
Proof.
  intros Htril Hx HT Hb Hij Hj. unfold entry.
  destruct (lookup_lt_is_Some_2 x b Hb) as [xb Hxb].
  assert (length xb = T) as Hlen by (by eapply (Forall_lookup_1 _ x b xb) in Hx).
  destruct (lookup_lt_is_Some_2 xb i) as [xi Hxi]; [lia|].
  destruct (lookup_lt_is_Some_2 xb j) as [xj Hxj]; [lia|].
  rewrite !map_fmap, !list_lookup_fmap, Head_scores_lookup, Hxb. simpl.
  unfold matmul_transposed.
  rewrite !map_fmap, !list_lookup_fmap, list_lookup_imap, !list_lookup_fmap, Hxi. simpl.
  rewrite softmax_lookup, list_lookup_imap, !map_fmap, !list_lookup_fmap, Hxj. simpl.
  rewrite Htril, tril_is_zero_ones by lia.
  rewrite bool_decide_eq_true_2 by done. simpl. f_equal. lra.
Qed.

(** C1. In [Head.forward], for every input of shape (B, T, EMBED_SIZE) with
    T <= SEQ_LEN, the masking step succeeds and the softmax-normalized
    attention-weight matrix has the entry exactly zero at every query
    position [i] and key position [j] with [j > i]: masked scores are -inf
    before the softmax, so no position attends to a later one. *)
Theorem causal_attention_weights (h : Head) (x : list mat) (T : nat) (w : World) :
  tril h = tril_ones SEQ_LEN →
  Forall (λ m, length m = T) x →
  T ≤ SEQ_LEN →
  ∃ wei, Head_attention h x w = (Ok wei, w) ∧
    ∀ b i j, b < length x → i < j → j < T →
      entry wei b i j = Some 0%R.
Proof.
  intros Htril Hx HT. eexists. split.
  - apply Head_attention_eq. rewrite Htril, length_tril_ones. by eapply time_dim_le.
  - intros b i j Hb Hij Hj. by eapply masked_weight_zero.
Qed.

(** ** Shapes through the forward pass *)

Lemma shaped_fmap {A B'} (f : list A → list B') B T T' (x : list (list A)) :
  (∀ r, length r = T → length (f r) = T') → shaped B T x → shaped B T' (map f x).
Proof.
  intros Hf [HB HT]. split; [by rewrite length_map|].
  rewrite map_fmap, Forall_fmap. eapply Forall_impl; [exact HT|]. simpl. auto.
Qed.

Lemma shaped_zip_with {A1 A2 A3} (f : list A1 → list A2 → list A3) B T T'
    (x : list (list A1)) (y : list (list A2)) :
  (∀ a b, length a = T → length b = T → length (f a b) = T') →
  shaped B T x → shaped B T y → shaped B T' (zip_with f x y).
Proof.
  intros Hf [HB HT] [HB' HT']. split; [rewrite length_zip_with; lia|].
  apply Forall_lookup. intros i r Hi.
  apply lookup_zip_with_Some in Hi as (a & b & -> & Ha & Hb).
  apply Hf.
  - by eapply (Forall_lookup_1 _ x i a) in HT.
  - by eapply (Forall_lookup_1 _ y i b) in HT'.
Qed.

Lemma shaped_Forall2 {A1 A2} B T (x : list (list A1)) (y : list (list A2)) :
  Forall2 (λ a b, length b = length a) x y → shaped B T x → shaped B T y.
Proof.
  intros H2 [HB HT]. split; [by rewrite <- (Forall2_length _ _ _ H2)|].
  clear HB. induction H2 as [|a b x y Hab H2 IH]; [constructor|].
  inversion HT; subst. constructor; [congruence | auto].
Qed.

Lemma shaped_time_dim {A} B T (x : list (list A)) :
  shaped B T x → 0 < B → time_dim x = T.
Proof. intros [HB HT] Hpos. destruct x; simpl in *; [lia|]. by inversion HT. Qed.

Lemma total_dropout1 p tr x w : total (dropout1 p tr x) w (λ _, True).
Proof.
  unfold dropout1. destruct tr; [|by apply total_ret].
  eapply total_bind; [apply total_draw|]. intros. by apply total_ret.
Qed.

Lemma total_dropout_vec p tr v w :
  total (dropout_vec p tr v) w (λ v', length v' = length v).
Proof.
  eapply total_weaken.
  - apply (total_mapM _ (λ _ _, True)). intros. apply total_dropout1.
  - intros v' Hv'. symmetry. by eapply Forall2_length.
Qed.

Lemma total_dropout_mat p tr m w :
  total (dropout_mat p tr m) w (λ m', length m' = length m).
Proof.
  eapply total_weaken.
  - apply (total_mapM _ (λ _ _, True)). intros.
    eapply total_weaken; [apply total_dropout_vec | done].
  - intros v' Hv'. symmetry. by eapply Forall2_length.
Qed.

Lemma total_dropout_batch p tr x w B T :
  shaped B T x → total (dropout_batch p tr x) w (shaped B T).
Proof.
  intros Hx. eapply total_weaken.
  - apply (total_mapM _ (λ m m', length m' = length m)). intros.
    apply total_dropout_mat.
  - intros x' Hx'. by eapply shaped_Forall2.
Qed.

Lemma length_matmul n w v : length (matmul n w v) = length w.
Proof. unfold matmul. by rewrite length_map. Qed.

Lemma length_matmul_transposed a b : length (matmul_transposed a b) = length a.
Proof. unfold matmul_transposed. by rewrite length_map. Qed.

Lemma shaped_Head_scores h x B T : shaped B T x → shaped B T (Head_scores h x).
Proof.
  intros Hx. unfold Head_scores.
  apply (shaped_fmap _ _ T); [intros; by rewrite length_map|].
  apply (shaped_zip_with _ _ T).
  - intros a b Ha Hb. by rewrite length_matmul_transposed.
  - eapply shaped_fmap; [|done]. intros. by rewrite length_map.
  - eapply shaped_fmap; [|done]. intros. by rewrite length_map.
Qed.

Lemma total_Head_attention h x w B T :
  shaped B T x → time_dim x ≤ length (tril h) →
  total (Head_attention h x) w (shaped B T).
Proof.
  intros Hx HT. eexists _, w. split; [by apply Head_attention_eq|].
  split; [apply same_but_rng_refl|].
  apply (shaped_fmap _ _ T); [intros; by rewrite length_map|].
  apply (shaped_fmap _ _ T); [intros; by rewrite length_imap|].
  by apply shaped_Head_scores.
Qed.

Lemma total_Head_forward h tr x w B T :
  shaped B T x → time_dim x ≤ length (tril h) →
  total (Head_forward h tr x) w (shaped B T).
Proof.
  intros Hx HT. unfold Head_forward.
  eapply total_bind; [by apply total_Head_attention|]. intros wei w1 _ Hwei.
  eapply total_bind; [by apply total_dropout_batch|]. intros wei' w2 _ Hwei'.
  apply total_ret. apply (shaped_zip_with _ _ T); [| done |].
  - intros. by rewrite length_matmul.
  - eapply shaped_fmap; [|done]. intros. by rewrite length_map.
Qed.

Lemma shaped_foldl_cat B T (os : list (list mat)) : ∀ o : list mat,
  shaped B T o → Forall (shaped B T) os →
  shaped B T (foldl (zip_with (zip_with app)) o os).
Proof.
  induction os as [|o' os IH]; intros o Ho Hos; simpl; [done|].
  inversion Hos; subst. apply IH; [|done].
  apply (shaped_zip_with _ _ T); [|done..].
  intros a b Ha Hb. rewrite length_zip_with. lia.
Qed.

Lemma total_cat_last B T (outs : list (list mat)) w :
  outs ≠ [] → Forall (shaped B T) outs → total (cat_last outs) w (shaped B T).
Proof.
  intros Hne Houts. destruct outs as [|o os]; [done|]. simpl.
  inversion Houts; subst. apply total_ret. by apply shaped_foldl_cat.
Qed.

Lemma total_MultiHeadAttention_forward a tr x w B T :
  shaped B T x → time_dim x ≤ SEQ_LEN →
  heads a ≠ [] → Forall (λ h, length (tril h) = SEQ_LEN) (heads a) →
  total (MultiHeadAttention_forward a tr x) w (shaped B T).
Proof.
  intros Hx HT Hne Hheads. unfold MultiHeadAttention_forward.
  eapply total_bind.
  { apply (total_mapM _ (λ _ o, shaped B T o)). intros h w' Hin _.
    apply total_Head_forward; [done|].
    rewrite Forall_forall in Hheads. by rewrite (Hheads h Hin). }
  intros outs w1 _ Houts. eapply total_bind.
  { apply (total_cat_last B T).
    - intros ->. apply Forall2_length in Houts. by destruct (heads a).
    - clear Hne Hheads. induction Houts; constructor; auto. }
  intros out w2 _ Hout. apply total_dropout_batch.
  eapply shaped_fmap; [|done]. intros. by rewrite length_map.
Qed.

Lemma total_FeedForward_forward f tr x w B T :
  shaped B T x → total (FeedForward_forward f tr x) w (shaped B T).
Proof.
  intros Hx. unfold FeedForward_forward. apply total_dropout_batch.
  eapply shaped_fmap; [|done]. intros. by rewrite length_map.
Qed.

Lemma length_madd a b : length a = length b → length (madd a b) = length a.
Proof. intros Hab. unfold madd. rewrite length_zip_with. lia. Qed.

Lemma shaped_madd B T (x y : list mat) :
  shaped B T x → shaped B T y → shaped B T (zip_with madd x y).
Proof.
  apply (shaped_zip_with _ _ T). intros a b Ha Hb. rewrite length_madd; congruence.
Qed.

Lemma time_dim_fmap {A B'} (f : list A → list B') (x : list (list A)) :
  (∀ r, length (f r) = length r) → time_dim (map f x) = time_dim x.
Proof. intros Hf. destruct x; simpl; auto. Qed.

Lemma total_Block_forward b tr x w B T :
  shaped B T x → time_dim x ≤ SEQ_LEN → Block_wf b →
  total (Block_forward b tr x) w (shaped B T).
Proof.
  intros Hx HT [Hne Hheads]. unfold Block_forward.
  eapply total_bind.
  { apply (total_MultiHeadAttention_forward _ _ _ _ B T); [| |done..].
    - eapply shaped_fmap; [|done]. intros. by rewrite length_map.
    - rewrite time_dim_fmap; [done|]. intros. by rewrite length_map. }
  intros y w1 _ Hy. eapply total_bind.
  { apply (total_FeedForward_forward _ _ _ _ B T).
    eapply shaped_fmap; [|by apply shaped_madd]. intros. by rewrite length_map. }
  intros z w2 _ Hz. apply total_ret. apply shaped_madd; [|done]. by apply shaped_madd.
Qed.

Lemma shaped_time_dim_le {A} B T n (x : list (list A)) :
  shaped B T x → T ≤ n → time_dim x ≤ n.
Proof. intros [_ Hx] HT. by eapply time_dim_le. Qed.

Lemma total_Sequential_forward bs tr B T : ∀ x w,
  shaped B T x → T ≤ SEQ_LEN → Forall Block_wf bs →
  total (Sequential_forward bs tr x) w (shaped B T).
Proof.
  induction bs as [|b bs IH]; intros x w Hx HT Hbs; simpl.
  - by apply total_ret.
  - inversion Hbs; subst. eapply total_bind.
    { apply (total_Block_forward _ _ _ _ B T); [done| |done].
      by eapply shaped_time_dim_le. }
    intros y w1 _ Hy. by apply IH.
Qed.

Lemma total_Embedding_forward (table : list (list R)) i w :
  i < length table → total (Embedding_forward table i) w (λ _, True).
Proof.
  intros Hi. unfold Embedding_forward.
  destruct (lookup_lt_is_Some_2 table i Hi) as [row ->]. by apply total_ret.
Qed.

Lemma total_self w m : net w = Some m → total self w (λ m', m' = m).
Proof.
  intros Hm. exists m, w. unfold self. rewrite Hm.
  split; [done|]. split; [apply same_but_rng_refl | done].
Qed.

Lemma same_but_rng_net w w' : same_but_rng w w' → net w' = net w.
Proof. by intros ->. Qed.

Lemma same_but_rng_heap w w' : same_but_rng w w' → heap w' = heap w.
Proof. by intros ->. Qed.

(** [GPT.forward] without targets returns logits of the shape of its input
    whenever the input fits the context window and the vocabulary. *)
Lemma total_GPT_forward V m idx w B T :
  net w = Some m → GPT_wf V (state_dict m) →
  shaped B T idx → T ≤ SEQ_LEN → tokens_below V idx →
  total (GPT_forward idx None) w
        (λ r, ∃ l, r = (Logits3 l, None) ∧ shaped B T l).
Proof.
  intros Hm (Htok & Hpos & Hblocks & Hhead) Hidx HT Hbelow. unfold GPT_forward.
  eapply total_bind; [by apply total_self|]. intros ? w0 _ ->.
  eapply total_bind.
  { apply (total_mapM _ (λ (r : list nat) (e : list (list R)), length e = length r)).
    intros r w' Hin _. eapply total_weaken.
    - apply (total_mapM _ (λ _ _, True)). intros t w'' Ht _.
      apply total_Embedding_forward. rewrite Htok.
      unfold tokens_below in Hbelow. rewrite Forall_forall in Hbelow.
      specialize (Hbelow r Hin). rewrite Forall_forall in Hbelow. by apply Hbelow.
    - intros e He. symmetry. by eapply Forall2_length. }
  intros tok_emb w1 _ Htok_emb. eapply total_bind.
  { apply (total_mapM _ (λ _ _, True)). intros t w' Ht _.
    apply total_Embedding_forward. rewrite Hpos.
    apply elem_of_seq in Ht. pose proof (shaped_time_dim_le _ _ _ _ Hidx HT). lia. }
  intros pos_emb w2 _ Hpos_emb.
  assert (shaped B T tok_emb) as Hte by (by eapply shaped_Forall2).
  assert (B = 0 ∨ length pos_emb = T) as Hpe.
  { destruct (decide (B = 0)) as [|HB]; [by left|right].
    apply Forall2_length in Hpos_emb. rewrite length_seq in Hpos_emb.
    rewrite <- Hpos_emb. apply (shaped_time_dim B); [done|lia]. }
  eapply total_bind.
  { apply (total_Sequential_forward _ _ B T); [|done..].
    destruct Hte as [HB Hte]. split; [by rewrite length_map|].
    destruct Hpe as [->|Hpe]; [by destruct tok_emb|].
    rewrite map_fmap, Forall_fmap. eapply Forall_impl; [exact Hte|]. simpl.
    intros tb Htb. rewrite length_madd; congruence. }
  intros x w3 _ Hx. apply total_ret. eexists. split; [done|].
  eapply shaped_fmap; [|eapply shaped_fmap; [|done]]; intros; by rewrite ?length_map.
Qed.

(** ** generate *)

Lemma total_run {A B'} (c : M A) (k : A → M B') w (Q : A → Prop)
    (P : result B' * World → Prop) :
  total c w Q →
  (∀ a w', same_but_rng w w' → Q a → P (k a w')) →
  P ((c ≫= k) w).
Proof.
  intros (a & w' & Hc & Hw & Ha) Hk. rewrite (bind_Ok _ _ _ _ _ Hc). by apply Hk.
Qed.

Lemma extends_refl w : extends w w.
Proof. by repeat split. Qed.

Lemma extends_trans w1 w2 w3 : extends w1 w2 → extends w2 w3 → extends w1 w3.
Proof.
  intros (?&?&?&?&?&?) (?&?&?&?&?&?). repeat split; try congruence.
  by etrans.
Qed.

Lemma same_but_rng_extends w w' : same_but_rng w w' → extends w w'.
Proof. intros ->. by repeat split. Qed.

Lemma total_last_step (l : list (list (list R))) w B T :
  shaped B T l → 0 < T → total (last_step l) w (λ r, length r = B).
Proof.
  intros [HB Hl] HT. eapply total_weaken.
  - apply (total_mapM _ (λ _ _, True)). intros m w' Hin _.
    rewrite Forall_forall in Hl. specialize (Hl m Hin).
    destruct (last m) as [r|] eqn:Hlast; [by apply total_ret|].
    apply last_None in Hlast. subst m. simpl in Hl. lia.
  - intros r Hr. apply Forall2_length in Hr. congruence.
Qed.

Lemma total_multinomial V (probs : list (list R)) w :
  V ≠ 0 →
  total (multinomial V probs) w
        (Forall2 (λ _ r, ∃ t, r = [t] ∧ t < V) probs).
Proof.
  intros HV. unfold multinomial. rewrite decide_False by done.
  apply total_mapM. intros p w' _ _.
  eapply total_bind; [apply total_draw|]. intros r w'' _ _.
  apply total_ret. eexists. split; [done|]. by apply Nat.mod_upper_bound.
Qed.

Lemma length_crop (row : list nat) :
  0 < SEQ_LEN → length (crop row) = length row `min` SEQ_LEN.
Proof.
  intros Hpos. unfold crop. rewrite decide_False by lia.
  rewrite length_drop. lia.
Qed.

Lemma crop_below V (row : list nat) :
  Forall (λ t, t < V) row → Forall (λ t, t < V) (crop row).
Proof. intros Hrow. unfold crop. case_decide; [done|]. by apply Forall_drop. Qed.

(** One iteration of the loop of [generate] on a context that is not
    empty: a new tensor is built, one token longer in every row. *)
Lemma generate_step_spec V m idx ctx w B T :
  net w = Some m → GPT_wf V (state_dict m) → 0 < SEQ_LEN → 0 < V →
  heap w !! idx = Some ctx → shaped B T ctx → 0 < T → tokens_below V ctx →
  ∃ w' ctx',
    generate_step idx w = (Ok (length (heap w)), w')
    ∧ extends w w' ∧ heap w' = heap w ++ [ctx']
    ∧ shaped B (S T) ctx' ∧ tokens_below V ctx'
    ∧ Forall2 (λ r r', ∃ t, r' = r ++ [t]) ctx ctx'.
Proof.
  intros Hm Hwf Hseq HV Hidx Hctx HT Hbelow. unfold generate_step.
  rewrite (bind_Ok _ _ _ ctx w) by (unfold deref; by rewrite Hidx).
  eapply total_run.
  { apply (total_GPT_forward V m _ _ B (T `min` SEQ_LEN)); [done..| | |].
    - eapply shaped_fmap; [|done]. intros r Hr. rewrite length_crop by done. lia.
    - lia.
    - unfold tokens_below in *. rewrite map_fmap, Forall_fmap.
      eapply Forall_impl; [exact Hbelow|]. intros r Hr. by apply crop_below. }
  intros ? w1 Hw1 (l & -> & Hl).
  eapply total_run; [apply (total_last_step _ _ B (T `min` SEQ_LEN)); [done|lia]|].
  intros logits w2 Hw2 Hlogits.
  eapply total_run.
  { apply total_self. rewrite (same_but_rng_net _ _ Hw2), (same_but_rng_net _ _ Hw1).
    exact Hm. }
  intros ? w3 Hw3 ->.
  eapply total_run.
  { apply total_multinomial. destruct Hwf as (_ & _ & _ & ->). lia. }
  intros next_idx w4 Hw4 Hnext.
  destruct Hwf as (_ & _ & _ & HVout). rewrite HVout in Hnext.
  assert (same_but_rng w w4) as Hw.
  { eapply same_but_rng_trans; [exact Hw1|]. eapply same_but_rng_trans; [exact Hw2|].
    eapply same_but_rng_trans; [exact Hw3 | exact Hw4]. }
  unfold alloc. rewrite (same_but_rng_heap _ _ Hw).
  eexists _, _. split; [reflexivity|].
  assert (length next_idx = B) as HBn.
  { apply Forall2_length in Hnext. rewrite length_map in Hnext. simpl in Hlogits. lia. }
  destruct Hctx as [HB Hrows].
  assert (Forall2 (λ r r', ∃ t, r' = r ++ [t] ∧ t < V) ctx (zip_with app ctx next_idx))
    as Hcat.
  { clear -Hnext HB HBn. rewrite <- HB in HBn. clear HB.
    assert (Forall (λ r, ∃ t, r = [t] ∧ t < V) next_idx) as Hn.
    { clear HBn. induction Hnext; constructor; auto. }
    clear Hnext. revert next_idx HBn Hn.
    induction ctx as [|r ctx IH]; intros [|n next_idx] Hlen Hn; simpl in *;
      try discriminate; [constructor|].
    inversion Hn as [|? ? (t & -> & Ht) Hn']; subst.
    constructor; [by exists t|]. apply IH; [lia|done]. }
  split; [|split; [by destruct w4|]].
  { apply same_but_rng_extends in Hw. destruct Hw as (?&?&?&?&?&?).
    repeat split; simpl; try done. by apply prefix_app_r. }
  split; [|split].
  - split; [apply Forall2_length in Hcat; lia|].
    clear -Hrows Hcat. induction Hcat as [|r r' ? ? (t & -> & _)]; [constructor|].
    inversion Hrows; subst. constructor; [|auto].
    rewrite length_app. simpl. lia.
  - unfold tokens_below in *. clear -Hbelow Hcat.
    induction Hcat as [|r r' ? ? (t & -> & Ht)]; [constructor|].
    inversion Hbelow; subst. constructor; [|auto].
    apply Forall_app. split; [done|]. by constructor.
  - eapply Forall2_impl; [exact Hcat|]. intros r r' (t & -> & _). by exists t.
Qed.

(** ** Frames: what a computation leaves alone, whether it returns or
    raises *)

Lemma rng_frame_ret {A} (a : A) : rng_frame (mret a).
Proof. intros w r w' [= <- <-]. apply same_but_rng_refl. Qed.

Lemma rng_frame_raise {A} e : rng_frame (raise e : M A).
Proof. intros w r w' [= <- <-]. apply same_but_rng_refl. Qed.

Lemma rng_frame_bind {A B'} (c : M A) (k : A → M B') :
  rng_frame c → (∀ a, rng_frame (k a)) → rng_frame (c ≫= k).
Proof.
  intros Hc Hk w r w' Hrun.
  apply bind_inv in Hrun as [(a & w1 & Hc1 & Hk1)|(e & Hc1 & ->)].
  - eapply same_but_rng_trans; [by eapply Hc | by eapply Hk].
  - by eapply Hc.
Qed.

Lemma rng_frame_mapM {A B'} (f : A → M B') (l : list A) :
  (∀ a, rng_frame (f a)) → rng_frame (mapM f l).
Proof.
  intros Hf. induction l as [|a l IH]; simpl; [apply rng_frame_ret|].
  apply rng_frame_bind; [done|]. intros b.
  apply rng_frame_bind; [done|]. intros bs. apply rng_frame_ret.
Qed.

Lemma rng_frame_draw : rng_frame draw.
Proof. intros w r w' [= <- <-]. apply same_but_rng_set. Qed.

Lemma rng_frame_self : rng_frame self.
Proof.
  intros w r w'. unfold self. destruct (net w); intros [= <- <-];
    apply same_but_rng_refl.
Qed.

Lemma rng_frame_gets {A} (f : World → A) : rng_frame (gets f).
Proof. intros w r w' [= <- <-]. apply same_but_rng_refl. Qed.

Lemma rng_frame_dropout_batch p tr x : rng_frame (dropout_batch p tr x).
Proof.
  do 3 (apply rng_frame_mapM; intros ?). unfold dropout1. destruct tr.
  - apply rng_frame_bind; [apply rng_frame_draw|]. intros. apply rng_frame_ret.
  - apply rng_frame_ret.
Qed.

Lemma rng_frame_Head_attention h x : rng_frame (Head_attention h x).
Proof.
  unfold Head_attention, masked_fill_tril.
  apply rng_frame_bind; [|intros; apply rng_frame_ret].
  repeat case_decide; first [apply rng_frame_ret | apply rng_frame_raise].
Qed.

Lemma rng_frame_Head_forward h tr x : rng_frame (Head_forward h tr x).
Proof.
  unfold Head_forward.
  apply rng_frame_bind; [apply rng_frame_Head_attention|]. intros.
  apply rng_frame_bind; [apply rng_frame_dropout_batch|]. intros.
  apply rng_frame_ret.
Qed.

Lemma rng_frame_MultiHeadAttention_forward a tr x :
  rng_frame (MultiHeadAttention_forward a tr x).
Proof.
  unfold MultiHeadAttention_forward.
  apply rng_frame_bind; [apply rng_frame_mapM; intros; apply rng_frame_Head_forward|].
  intros outs. apply rng_frame_bind; [|intros; apply rng_frame_dropout_batch].
  destruct outs; [apply rng_frame_raise | apply rng_frame_ret].
Qed.

Lemma rng_frame_Block_forward b tr x : rng_frame (Block_forward b tr x).
Proof.
  unfold Block_forward, FeedForward_forward.
  apply rng_frame_bind; [apply rng_frame_MultiHeadAttention_forward|]. intros.
  apply rng_frame_bind; [apply rng_frame_dropout_batch|]. intros.
  apply rng_frame_ret.
Qed.

Lemma rng_frame_Sequential_forward bs tr : ∀ x, rng_frame (Sequential_forward bs tr x).
Proof.
  induction bs as [|b bs IH]; intros x; simpl; [apply rng_frame_ret|].
  apply rng_frame_bind; [apply rng_frame_Block_forward | done].
Qed.

Lemma rng_frame_Embedding_forward table i : rng_frame (Embedding_forward table i).
Proof.
  unfold Embedding_forward.
  destruct (table !! i); [apply rng_frame_ret | apply rng_frame_raise].
Qed.

Lemma rng_frame_cross_entropy logits targets : rng_frame (cross_entropy logits targets).
Proof.
  unfold cross_entropy. case_decide; [|apply rng_frame_raise].
  apply rng_frame_bind; [|intros; apply rng_frame_ret].
  apply rng_frame_mapM. intros [row t].
  destruct (softmax (Finite <$> row) !! t); [apply rng_frame_ret | apply rng_frame_raise].
Qed.

Lemma rng_frame_GPT_forward idx targets : rng_frame (GPT_forward idx targets).
Proof.
  unfold GPT_forward.
  apply rng_frame_bind; [apply rng_frame_self|]. intros m.
  apply rng_frame_bind.
  { do 2 (apply rng_frame_mapM; intros ?). apply rng_frame_Embedding_forward. }
  intros tok_emb. apply rng_frame_bind.
  { apply rng_frame_mapM; intros ?. apply rng_frame_Embedding_forward. }
  intros pos_emb. apply rng_frame_bind; [apply rng_frame_Sequential_forward|].
  intros x. destruct targets as [targets|]; [|apply rng_frame_ret].
  case_decide; [|apply rng_frame_raise].
  apply rng_frame_bind; [apply rng_frame_cross_entropy|]. intros. apply rng_frame_ret.
Qed.

Lemma rng_frame_last_step l : rng_frame (last_step l).
Proof.
  apply rng_frame_mapM. intros m.
  destruct (last m); [apply rng_frame_ret | apply rng_frame_raise].
Qed.

Lemma rng_frame_multinomial V probs : rng_frame (multinomial V probs).
Proof.
  unfold multinomial. case_decide; [apply rng_frame_raise|].
  apply rng_frame_mapM. intros _.
  apply rng_frame_bind; [apply rng_frame_draw|]. intros. apply rng_frame_ret.
Qed.

Lemma heap_frame_rng {A} (c : M A) : rng_frame c → heap_frame c.
Proof. intros Hc w r w' Hrun. apply same_but_rng_extends. by eapply Hc. Qed.

Lemma heap_frame_bind {A B'} (c : M A) (k : A → M B') :
  heap_frame c → (∀ a, heap_frame (k a)) → heap_frame (c ≫= k).
Proof.
  intros Hc Hk w r w' Hrun.
  apply bind_inv in Hrun as [(a & w1 & Hc1 & Hk1)|(e & Hc1 & ->)].
  - eapply extends_trans; [by eapply Hc | by eapply Hk].
  - by eapply Hc.
Qed.

Lemma heap_frame_alloc t : heap_frame (alloc t).
Proof.
  intros w r w' [= <- <-]. repeat split; simpl. by apply prefix_app_r.
Qed.

Lemma heap_frame_deref l : heap_frame (deref l).
Proof.
  intros w r w'. unfold deref. destruct (heap w !! l); intros [= <- <-];
    apply extends_refl.
Qed.

Lemma heap_frame_generate_step idx : heap_frame (generate_step idx).
Proof.
  unfold generate_step.
  apply heap_frame_bind; [apply heap_frame_deref|]. intros ctx.
  apply heap_frame_bind; [apply heap_frame_rng, rng_frame_GPT_forward|].
  intros [logits loss].
  apply heap_frame_bind.
  { apply heap_frame_rng.
    destruct logits; [apply rng_frame_last_step | apply rng_frame_raise]. }
  intros l. apply heap_frame_bind; [apply heap_frame_rng, rng_frame_self|]. intros m.
  apply heap_frame_bind; [apply heap_frame_rng, rng_frame_multinomial|]. intros.
  apply heap_frame_alloc.
Qed.

Lemma heap_frame_generate n : ∀ idx, heap_frame (generate idx n).
Proof.
  induction n as [|n IH]; intros idx; simpl.
  - apply heap_frame_rng, rng_frame_ret.
  - apply heap_frame_bind; [apply heap_frame_generate_step | done].
Qed.

Lemma rng_frame_deref l : rng_frame (deref l).
Proof.
  intros w r w'. unfold deref. destruct (heap w !! l); intros [= <- <-];
    apply same_but_rng_refl.
Qed.

(** An iteration that returns has put its result at the end of the heap. *)
Lemma generate_step_result idx w l w' :
  generate_step idx w = (Ok l, w') →
  l = length (heap w) ∧ length (heap w') = S (length (heap w)).
Proof.
  unfold generate_step. intros Hrun.
  apply bind_inv in Hrun as [(ctx & w1 & H1 & Hrun)|(? & _ & [=])].
  apply rng_frame_deref, same_but_rng_heap in H1.
  apply bind_inv in Hrun as [([logits loss] & w2 & H2 & Hrun)|(? & _ & [=])].
  apply rng_frame_GPT_forward, same_but_rng_heap in H2.
  apply bind_inv in Hrun as [(last & w3 & H3 & Hrun)|(? & _ & [=])].
  assert (heap w3 = heap w2) as H3'.
  { destruct logits; [by apply rng_frame_last_step, same_but_rng_heap in H3|].
    by inversion H3. }
  apply bind_inv in Hrun as [(m & w4 & H4 & Hrun)|(? & _ & [=])].
  apply rng_frame_self, same_but_rng_heap in H4.
  apply bind_inv in Hrun as [(next & w5 & H5 & Hrun)|(? & _ & [=])].
  apply rng_frame_multinomial, same_but_rng_heap in H5.
  unfold alloc in Hrun. inversion Hrun; subst; simpl.
  rewrite length_app. simpl. split; [congruence|]. rewrite Nat.add_1_r.
  congruence.
Qed.

Lemma generate_result n : ∀ idx w out w',
  generate idx n w = (Ok out, w') →
  length (heap w') = length (heap w) + n
  ∧ (0 < n → out = length (heap w) + n - 1).
Proof.
  induction n as [|n IH]; intros idx w out w' Hrun; simpl in Hrun.
  - inversion Hrun; subst. split; lia.
  - apply bind_inv in Hrun as [(l & w1 & H1 & Hrun)|(? & _ & [=])].
    apply generate_step_result in H1 as [-> Hlen].
    destruct n as [|n].
    + simpl in Hrun. inversion Hrun; subst. split; lia.
    + apply IH in Hrun as [Hlen' Hout]. split; [lia|]. intros _.
      rewrite Hout by lia. lia.
Qed.

(** [generate] on a context that is not empty: it returns, and the tensor
    it returns extends every row of the context by [n] tokens of the
    vocabulary. *)
Lemma generate_spec V m n : ∀ idx ctx w B T,
  net w = Some m → GPT_wf V (state_dict m) → 0 < SEQ_LEN → 0 < V →
  heap w !! idx = Some ctx → shaped B T ctx → 0 < T → tokens_below V ctx →
  ∃ out w' ctx',
    generate idx n w = (Ok out, w')
    ∧ heap w' !! out = Some ctx'
    ∧ shaped B (T + n) ctx' ∧ tokens_below V ctx'
    ∧ Forall2 (λ r r', ∃ new, r' = r ++ new ∧ length new = n) ctx ctx'.
Proof.
  induction n as [|n IH]; intros idx ctx w B T Hm Hwf Hseq HV Hidx Hctx HT Hbelow.
  - exists idx, w, ctx. simpl. split; [done|]. split; [done|].
    rewrite Nat.add_0_r. split; [done|]. split; [done|].
    clear. induction ctx as [|r ctx IH]; constructor; [|done].
    exists []. by rewrite app_nil_r.
  - destruct (generate_step_spec V m idx ctx w B T)
      as (w1 & ctx1 & Hstep & Hext & Hheap & Hctx1 & Hbelow1 & Happ); [done..|].
    destruct Hext as (_ & Hnet & _).
    destruct (IH (length (heap w)) ctx1 w1 B (S T))
      as (out & w' & ctx' & Hrun & Hout & Hshape & Hbelow' & Happ'); try done.
    + congruence.
    + rewrite Hheap. by apply list_lookup_middle.
    + lia.
    + exists out, w', ctx'. simpl. rewrite (bind_Ok _ _ _ _ _ Hstep).
      split; [done|]. split; [done|].
      replace (T + S n) with (S T + n) by lia. split; [done|]. split; [done|].
      clear -Happ Happ'. revert ctx' Happ'.
      induction Happ as [|r r1 ctx ctx1 (t & ->) Happ IH]; intros ctx' Happ';
        inversion Happ' as [|? r' ? ctx'' (new & -> & Hlen) Happ'']; subst;
        constructor; [|by apply IH].
      exists (t :: new). rewrite <- app_assoc. simpl. split; [done|]. simpl. lia.
Qed.



(** C10 (amended). [generate] never mutates model state: whatever the call
    does (return or raise), the module object (every parameter, the mask
    buffers, the mode) is the same before and after, and so are the
    optimizer, the files and the data; every tensor that existed before the
    call, the caller's context among them, is still at its address with the
    same contents.  When at least one token is asked for, the sequence that
    is returned is a tensor built by the call, not one that existed before;
    when none is asked for (N = 0), the call returns the tensor it was
    given and builds nothing. *)
Theorem generate_frame idx N (w : World) :
  let r := (generate idx N w).1 in
  let w' := (generate idx N w).2 in
  net w' = net w
  ∧ optimizer w' = optimizer w ∧ fs w' = fs w ∧ DATA w' = DATA w
  ∧ (∀ l t, heap w !! l = Some t → heap w' !! l = Some t)
  ∧ (∀ out, r = Ok out → 0 < N → heap w !! out = None ∧ is_Some (heap w' !! out))
  ∧ (N = 0 → r = Ok idx ∧ w' = w).
Proof.
  destruct (generate idx N w) as [r w'] eqn:Hrun. simpl.
  destruct (heap_frame_generate N idx w r w' Hrun) as (Hfs & Hnet & Hopt & Hdata & _ & Hheap).
  repeat (split; [done|]). split; [|split].
  - intros l t Hl. by eapply prefix_lookup_Some.
  - intros out -> HN. apply generate_result in Hrun as [Hlen Hout].
    specialize (Hout HN). split.
    + apply lookup_ge_None. lia.
    + apply lookup_lt_is_Some. lia.
  - intros ->. simpl in Hrun. by injection Hrun as <- <-.
Qed.

(** ** get_batch *)

Lemma mapM_draw {A B'} (f : nat → B') (l : list A) : ∀ w,
  mapM (λ _, r ← draw; mret (f r)) l w =
  (Ok ((λ k, f (tape (generator w) (cursor (generator w) + k))) <$> seq 0 (length l)),
   set_generator (advance (length l) (generator w)) w).
Proof.
  induction l as [|a l IH]; intros w.
  - simpl. unfold mret, M_ret. f_equal. destruct w as [? [] ? ? ? ? ?]. simpl.
    unfold set_generator, advance. simpl. by rewrite Nat.add_0_r.
  - cbn [mapM].
    rewrite (bind_Ok _ _ w (f (tape (generator w) (cursor (generator w))))
               (set_generator (advance 1 (generator w)) w)).
    2:{ unfold mbind, M_bind, draw, advance. simpl. by rewrite Nat.add_1_r. }
    rewrite (bind_Ok _ _ _ _ _ (IH _)). unfold mret, M_ret. f_equal.
    + f_equal. simpl. rewrite Nat.add_0_r. f_equal.
      rewrite <- fmap_S_seq, <- list_fmap_compose. apply list_fmap_ext.
      intros i k _. simpl. do 2 f_equal. lia.
    + destruct w as [? [] ? ? ? ? ?]. unfold set_generator, advance. simpl.
      do 2 f_equal. lia.
Qed.

Lemma randint_run high n w :
  (0 < high)%Z →
  randint high n w =
  (Ok ((λ k, tape (generator w) (cursor (generator w) + k) `mod` Z.to_nat high)
         <$> seq 0 n),
   set_generator (advance n (generator w)) w).
Proof.
  intros Hhigh. unfold randint. rewrite decide_False by lia.
  rewrite mapM_draw. by rewrite length_seq.
Qed.





(** [get_batch], run: the offsets are the raw draws of the generator reduced
    modulo the number of admissible offsets, and the batch is the pair of
    windows at these offsets. *)
Lemma get_batch_run s (w : World) :
  SEQ_LEN < length (DATA w s) → 0 < BATCH_SIZE →
  let data := DATA w s in
  let g := generator w in
  let ix := (λ k, tape g (cursor g + k) `mod` length (get_batch_offsets data))
              <$> seq 0 BATCH_SIZE in
  get_batch s w =
  (Ok (map (λ i, slice data i (i + SEQ_LEN)) ix,
       map (λ i, slice data (i + 1) (i + 1 + SEQ_LEN)) ix),
   set_generator (advance BATCH_SIZE g) w).
Proof.
  intros Hlen Hbatch data g ix. unfold get_batch.
  rewrite (bind_Ok _ _ w data w) by done.
  assert (0 < Z.of_nat (length data) - Z.of_nat SEQ_LEN)%Z as Hhigh
    by (unfold data; lia).
  rewrite (bind_Ok _ _ _ _ _ (randint_run _ BATCH_SIZE w Hhigh)).
  assert (Z.to_nat (Z.of_nat (length data) - Z.of_nat SEQ_LEN)
          = length (get_batch_offsets data)) as ->.
  { unfold get_batch_offsets, randint_outcomes. by rewrite length_seq. }
  fold g. fold ix. rewrite decide_False; [done|].
  intros Hnil. apply (f_equal length) in Hnil. unfold ix in Hnil.
  rewrite length_fmap, length_seq in Hnil. simpl in Hnil. lia.
Qed.








(** ** Construction *)

Lemma Forall2_const_r {A B'} (P : B' → Prop) (l : list A) (k : list B') :
  Forall2 (λ _ b, P b) l k → Forall P k.
Proof. induction 1; constructor; auto. Qed.

Lemma total_draw_mat rows cols w : total (draw_mat rows cols) w (shaped rows cols).
Proof.
  eapply total_weaken.
  - apply (total_mapM _ (λ _ r, length r = cols)). intros _ w' _ _.
    eapply total_weaken.
    + apply (total_mapM _ (λ _ _, True)). intros. apply total_draw_real.
    + intros r Hr. apply Forall2_length in Hr. by rewrite length_seq in Hr.
  - intros m Hm. split.
    + apply Forall2_length in Hm. by rewrite length_seq in Hm.
    + by eapply Forall2_const_r.
Qed.

Lemma total_redraw (m : list (list R)) w :
  total (redraw m) w (λ m', ∀ r c, shaped r c m → shaped r c m').
Proof.
  eapply total_weaken.
  - apply (total_mapM _ (λ a b, length b = length a)). intros a w' _ _.
    eapply total_weaken.
    + apply (total_mapM _ (λ _ _, True)). intros. apply total_draw_real.
    + intros b Hb. symmetry. by eapply Forall2_length.
  - intros m' Hm' r c Hm. by eapply shaped_Forall2.
Qed.

Lemma total_Linear_init inf outf with_bias w :
  total (Linear_init inf outf with_bias) w (Linear_dims inf outf).
Proof.
  unfold Linear_init.
  eapply total_bind; [apply total_draw_mat|]. intros m w1 _ Hm.
  eapply total_bind with (Q := λ _, True).
  { destruct with_bias; [|by apply total_ret].
    eapply total_bind.
    - apply (total_mapM _ (λ _ _, True)). intros. apply total_draw_real.
    - intros. by apply total_ret. }
  intros b w2 _ _. by apply total_ret.
Qed.

Lemma total_init_weights_Linear l w :
  total (init_weights_Linear l) w (λ l', ∀ i o, Linear_dims i o l → Linear_dims i o l').
Proof.
  unfold init_weights_Linear.
  eapply total_bind; [apply total_redraw|]. intros m w1 _ Hm.
  apply total_ret. intros i o. apply Hm.
Qed.

Lemma total_Head_init head_size w : total (Head_init head_size) w (Head_dims head_size).
Proof.
  unfold Head_init.
  eapply total_bind; [apply total_Linear_init|]. intros k w1 _ Hk.
  eapply total_bind; [apply total_Linear_init|]. intros q w2 _ Hq.
  eapply total_bind; [apply total_Linear_init|]. intros v w3 _ Hv.
  by apply total_ret.
Qed.

Lemma total_init_weights_Head h w :
  total (init_weights_Head h) w (λ h', ∀ n, Head_dims n h → Head_dims n h').
Proof.
  unfold init_weights_Head.
  eapply total_bind; [apply total_init_weights_Linear|]. intros k w1 _ Hk.
  eapply total_bind; [apply total_init_weights_Linear|]. intros q w2 _ Hq.
  eapply total_bind; [apply total_init_weights_Linear|]. intros v w3 _ Hv.
  apply total_ret. intros n (Hk' & Hq' & Hv' & Ht). unfold Head_dims. simpl.
  split; [by apply Hk|]. split; [by apply Hq|]. split; [by apply Hv | done].
Qed.

Lemma total_FeedForward_init n w :
  total (FeedForward_init n) w
        (λ f, Linear_dims n (4 * n) (net_0 f) ∧ Linear_dims (4 * n) n (net_2 f)).
Proof.
  unfold FeedForward_init.
  eapply total_bind; [apply total_Linear_init|]. intros l0 w1 _ H0.
  eapply total_bind; [apply total_Linear_init|]. intros l2 w2 _ H2.
  by apply total_ret.
Qed.

(** [Block.__init__] returns for every positive number of heads, whether it
    divides the embedding width or not. *)
Lemma total_Block_init num_embd num_heads w :
  num_heads ≠ 0 → total (Block_init num_embd num_heads) w (Block_dims num_embd num_heads).
Proof.
  intros Hheads. unfold Block_init. rewrite decide_False by done.
  eapply total_bind with (Q := λ hs, hs = num_embd / num_heads);
    [by apply total_ret|]. intros ? w0 _ ->.
  unfold MultiHeadAttention_init.
  eapply total_bind with (Q := λ a : MultiHeadAttention,
    length (heads a) = num_heads
    ∧ Forall (Head_dims (num_embd / num_heads)) (heads a)
    ∧ Linear_dims (num_heads * (num_embd / num_heads)) EMBED_SIZE (proj a)).
  { eapply total_bind.
    - apply (total_mapM _ (λ _ h, Head_dims (num_embd / num_heads) h)).
      intros. apply total_Head_init.
    - intros hs w1 _ Hhs. eapply total_bind; [apply total_Linear_init|].
      intros p w2 _ Hp. apply total_ret. simpl. split; [|split; [|done]].
      + apply Forall2_length in Hhs. by rewrite length_seq in Hhs.
      + by eapply Forall2_const_r. }
  intros a w1 _ (Hlen & Hhs & Hp).
  eapply total_bind; [apply total_FeedForward_init|]. intros f w2 _ [H0 H2].
  apply total_ret. unfold Block_dims. simpl. auto.
Qed.

Lemma Block_init_zero_heads num_embd w :
  Block_init num_embd 0 w = (Raise ZeroDivisionError, w).
Proof. reflexivity. Qed.

Lemma total_init_weights_Block b w :
  total (init_weights_Block b) w (λ b', ∀ e n, Block_dims e n b → Block_dims e n b').
Proof.
  unfold init_weights_Block.
  eapply total_bind.
  { apply (total_mapM _ (λ h h', ∀ n, Head_dims n h → Head_dims n h')).
    intros. apply total_init_weights_Head. }
  intros hs w1 _ Hhs.
  eapply total_bind; [apply total_init_weights_Linear|]. intros p w2 _ Hp.
  eapply total_bind; [apply total_init_weights_Linear|]. intros l0 w3 _ H0.
  eapply total_bind; [apply total_init_weights_Linear|]. intros l2 w4 _ H2.
  apply total_ret. intros e n (Hlen & Hheads & Hproj & Hn0 & Hn2).
  unfold Block_dims. simpl.
  split; [apply Forall2_length in Hhs; congruence|].
  split; [|split; [by apply Hp|split; [by apply H0 | by apply H2]]].
  clear -Hhs Hheads. induction Hhs; [constructor|].
  inversion Hheads; subst. constructor; auto.
Qed.

Lemma Block_dims_wf e n b : n ≠ 0 → Block_dims e n b → Block_wf b.
Proof.
  intros Hn (Hlen & Hheads & _). split.
  - intros Hnil. rewrite Hnil in Hlen. simpl in Hlen. lia.
  - eapply Forall_impl; [exact Hheads|]. intros h (_ & _ & _ & ->).
    apply length_tril_ones.
Qed.

(** [GPT.__init__] returns a module in training mode whose blocks are as
    [Block.__init__] builds them, for every positive number of heads. *)
Lemma total_GPT_init V w :
  NUM_HEADS ≠ 0 →
  total (GPT_init V) w
        (λ m, training m = true ∧ GPT_wf V (state_dict m)
              ∧ length (blocks (state_dict m)) = NUM_LAYERS
              ∧ Forall (Block_dims EMBED_SIZE NUM_HEADS) (blocks (state_dict m))).
Proof.
  intros Hheads. unfold GPT_init.
  eapply total_bind; [apply total_draw_mat|]. intros te w1 _ Hte.
  eapply total_bind; [apply total_draw_mat|]. intros pe w2 _ Hpe.
  eapply total_bind.
  { apply (total_mapM _ (λ _ b, Block_dims EMBED_SIZE NUM_HEADS b)).
    intros. by apply total_Block_init. }
  intros bs w3 _ Hbs.
  eapply total_bind; [apply total_Linear_init|]. intros lh w4 _ Hlh.
  eapply total_bind; [apply total_redraw|]. intros te' w5 _ Hte'.
  eapply total_bind; [apply total_redraw|]. intros pe' w6 _ Hpe'.
  eapply total_bind.
  { apply (total_mapM _ (λ b b', ∀ e n, Block_dims e n b → Block_dims e n b')).
    intros. apply total_init_weights_Block. }
  intros bs' w7 _ Hbs'.
  eapply total_bind; [apply total_init_weights_Linear|]. intros lh' w8 _ Hlh'.
  apply total_ret. simpl.
  assert (Forall (Block_dims EMBED_SIZE NUM_HEADS) bs') as Hdims.
  { apply Forall2_const_r in Hbs. clear -Hbs Hbs'.
    induction Hbs'; [constructor|]. inversion Hbs; subst. constructor; auto. }
  split; [done|]. split; [|split; [|done]].
  - split; [by apply (Hte' _ _ Hte)|]. split; [by apply (Hpe' _ _ Hpe)|].
    split; [|by apply (Hlh' _ _ Hlh)].
    eapply Forall_impl; [exact Hdims|]. intros b. by apply Block_dims_wf.
  - apply Forall2_length in Hbs, Hbs'. rewrite length_seq in Hbs. congruence.
Qed.

(** C4 (amended). Construction has no divisibility check: for every
    positive head count, whether or not it divides the embedding width,
    [GPT.__init__] returns a module; each block holds NUM_HEADS heads of
    width EMBED_SIZE // NUM_HEADS (the floor of the quotient) and a
    projection from NUM_HEADS * (EMBED_SIZE // NUM_HEADS) features, the width
    of the concatenated heads, to EMBED_SIZE. *)
Theorem construction_has_no_divisibility_check V (w : World) :
  0 < NUM_HEADS →
  ∃ m w', GPT_init V w = (Ok m, w') ∧ same_but_rng w w'
    ∧ length (blocks (state_dict m)) = NUM_LAYERS
    ∧ Forall (Block_dims EMBED_SIZE NUM_HEADS) (blocks (state_dict m)).
Proof.
  intros Hheads.
  destruct (total_GPT_init V w) as (m & w' & Hrun & Hw & _ & _ & Hlen & Hdims); [lia|].
  by exists m, w'.
Qed.

(** ** What a training step depends on *)

Lemma respects_ret {A} (a : A) : respects_core (mret a).
Proof. core_prim. Qed.

Lemma respects_raise {A} e : respects_core (raise e : M A).
Proof. core_prim. Qed.

Lemma respects_bind {A B'} (c : M A) (k : A → M B') :
  respects_core c → (∀ a, respects_core (k a)) → respects_core (c ≫= k).
Proof.
  intros Hc Hk w1 w2 Hw. specialize (Hc w1 w2 Hw). unfold mbind, M_bind.
  destruct (c w1) as [[a1|e1] w1'], (c w2) as [[a2|e2] w2']; simpl in Hc;
    destruct Hc as [[=] Hcore]; subst.
  - by apply Hk.
  - done.
Qed.

Lemma respects_mapM {A B'} (f : A → M B') (l : list A) :
  (∀ a, respects_core (f a)) → respects_core (mapM f l).
Proof.
  intros Hf. induction l as [|a l IH]; simpl; [apply respects_ret|].
  apply respects_bind; [done|]. intros b.
  apply respects_bind; [done|]. intros bs. apply respects_ret.
Qed.

Lemma respects_draw : respects_core draw.
Proof. core_prim. Qed.

Lemma respects_self : respects_core self.
Proof.
  intros w1 w2 Hc. assert (net w1 = net w2) as Hnet by (unfold core in Hc; congruence).
  unfold self. rewrite Hnet. by destruct (net w2).
Qed.

Lemma respects_the_optimizer : respects_core the_optimizer.
Proof.
  intros w1 w2 Hc.
  assert (optimizer w1 = optimizer w2) as Hopt by (unfold core in Hc; congruence).
  unfold the_optimizer. rewrite Hopt. by destruct (optimizer w2).
Qed.

Lemma respects_emit e : respects_core (emit e).
Proof. core_prim. Qed.

Lemma respects_dropout_batch p tr x : respects_core (dropout_batch p tr x).
Proof.
  do 3 (apply respects_mapM; intros ?). unfold dropout1. destruct tr.
  - apply respects_bind; [apply respects_draw|]. intros. apply respects_ret.
  - apply respects_ret.
Qed.

Lemma respects_Head_forward h tr x : respects_core (Head_forward h tr x).
Proof.
  unfold Head_forward, Head_attention, masked_fill_tril.
  apply respects_bind.
  { apply respects_bind; [|intros; apply respects_ret].
    repeat case_decide; first [apply respects_ret | apply respects_raise]. }
  intros. apply respects_bind; [apply respects_dropout_batch|]. intros.
  apply respects_ret.
Qed.

Lemma respects_Block_forward b tr x : respects_core (Block_forward b tr x).
Proof.
  unfold Block_forward, FeedForward_forward, MultiHeadAttention_forward.
  apply respects_bind.
  { apply respects_bind; [apply respects_mapM; intros; apply respects_Head_forward|].
    intros outs. apply respects_bind; [|intros; apply respects_dropout_batch].
    destruct outs; [apply respects_raise | apply respects_ret]. }
  intros. apply respects_bind; [apply respects_dropout_batch|]. intros.
  apply respects_ret.
Qed.

Lemma respects_Sequential_forward bs tr : ∀ x, respects_core (Sequential_forward bs tr x).
Proof.
  induction bs as [|b bs IH]; intros x; simpl; [apply respects_ret|].
  apply respects_bind; [apply respects_Block_forward | done].
Qed.

Lemma respects_Embedding_forward table i : respects_core (Embedding_forward table i).
Proof.
  unfold Embedding_forward.
  destruct (table !! i); [apply respects_ret | apply respects_raise].
Qed.

Lemma respects_GPT_forward idx targets : respects_core (GPT_forward idx targets).
Proof.
  unfold GPT_forward.
  apply respects_bind; [apply respects_self|]. intros m.
  apply respects_bind.
  { do 2 (apply respects_mapM; intros ?). apply respects_Embedding_forward. }
  intros tok_emb. apply respects_bind.
  { apply respects_mapM; intros ?. apply respects_Embedding_forward. }
  intros pos_emb. apply respects_bind; [apply respects_Sequential_forward|].
  intros x. destruct targets as [targets|]; [|apply respects_ret].
  case_decide; [|apply respects_raise].
  apply respects_bind; [|intros; apply respects_ret].
  unfold cross_entropy. case_decide; [|apply respects_raise].
  apply respects_bind; [|intros; apply respects_ret].
  apply respects_mapM. intros [row t].
  destruct (softmax (Finite <$> row) !! t); [apply respects_ret | apply respects_raise].
Qed.

Lemma respects_get_batch s : respects_core (get_batch s).
Proof.
  unfold get_batch.
  apply respects_bind; [core_prim|]. intros data.
  apply respects_bind.
  { unfold randint. case_decide; [apply respects_raise|].
    apply respects_mapM. intros _.
    apply respects_bind; [apply respects_draw|]. intros. apply respects_ret. }
  intros ix. case_decide; [apply respects_raise | apply respects_ret].
Qed.

(** One optimization step reads and writes the core only. *)
Lemma respects_optimization_step i : respects_core (optimization_step i).
Proof.
  unfold optimization_step.
  apply respects_bind; [apply respects_get_batch|]. intros [xb yb].
  apply respects_bind; [core_prim|]. intros g.
  apply respects_bind; [apply respects_GPT_forward|]. intros [logits loss].
  apply respects_bind.
  { destruct loss; [apply respects_ret | apply respects_raise]. }
  intros l. apply respects_bind; [apply respects_self|]. intros m.
  apply respects_bind; [apply respects_the_optimizer|]. intros o.
  destruct (AdamW_step o (state_dict m) (backward m xb yb g)) as [sd o'].
  apply respects_bind; [core_prim|]. intros _.
  apply respects_bind; [core_prim|]. intros _.
  apply respects_bind; [apply respects_emit|]. intros _. apply respects_ret.
Qed.

(** ** Checkpoints *)

Lemma save_checkpoint_run p epoch loss m o (w : World) :
  net w = Some m → optimizer w = Some o →
  save_checkpoint (Some p) epoch loss w =
  (Ok tt,
   set_log (log w ++ [EvPrintCheckpointing epoch; EvCheckpointWritten p epoch])
     (set_fs (<[p := FCheckpoint {| ck_epoch := epoch; ck_model_state_dict := state_dict m;
                                    ck_optimizer_state_dict := o; ck_loss := loss |}]> (fs w))
        w)).
Proof.
  intros Hm Ho.
  unfold save_checkpoint, emit, modify, self, the_optimizer, write_file, mbind, M_bind.
  simpl. rewrite Hm. simpl. rewrite Ho. simpl. unfold set_log, set_fs. simpl.
  by rewrite <- app_assoc.
Qed.

Lemma load_checkpoint_run p c m o (w : World) :
  net w = Some m → optimizer w = Some o → fs w !! p = Some (FCheckpoint c) →
  StateDict_shape (ck_model_state_dict c) = StateDict_shape (state_dict m) →
  param_groups (ck_optimizer_state_dict c) = param_groups o →
  load_checkpoint p w =
  (Ok (ck_epoch c, ck_loss c),
   set_log (log w ++ [EvCheckpointRead p; EvPrintLoadedCheckpoint p (ck_epoch c)])
     (set_optimizer (Some (ck_optimizer_state_dict c))
        (set_net (Some {| state_dict := ck_model_state_dict c; training := training m |})
           w))).
Proof.
  intros Hm Ho Hp Hshape Hgroups.
  unfold load_checkpoint, lookup_file, load_state_dict, optim_load_state_dict,
    emit, modify, self, the_optimizer, mbind, M_bind.
  rewrite Hp. simpl. rewrite Hm. rewrite decide_True by done. simpl.
  rewrite Ho. rewrite decide_True by done. simpl.
  unfold set_log, set_optimizer, set_net. simpl. by rewrite <- app_assoc.
Qed.

(** C8. Checkpoint round trip: for every state of the module and the
    optimizer, every epoch and loss, [save_checkpoint] writes the record
    {epoch, loss, model parameters, optimizer state} to the file and leaves
    the training state alone.  [load_checkpoint] on this file, into any
    module of the same shapes and any optimizer of the same parameter
    groups, whatever parameters and optimizer state they hold, returns the
    saved epoch and loss and replaces the parameters and the optimizer state
    by the saved ones, touching nothing else but the log; when mode, data,
    generator and tensors are those of the saving process, the losses of any
    number of optimization steps that follow are the losses of the same
    steps taken without the save and load.  In particular a load right
    after the save leaves module, optimizer, data and generator as they
    were before the save. *)
Theorem checkpoint_round_trip p epoch loss m o (w : World) :
  net w = Some m → optimizer w = Some o →
  let c := {| ck_epoch := epoch; ck_model_state_dict := state_dict m;
              ck_optimizer_state_dict := o; ck_loss := loss |} in
  ∃ w1,
    save_checkpoint (Some p) epoch loss w = (Ok tt, w1)
    ∧ fs w1 !! p = Some (FCheckpoint c)
    ∧ core w1 = core w
    ∧ (∀ w2 m2 o2,
         fs w2 !! p = Some (FCheckpoint c) →
         net w2 = Some m2 → optimizer w2 = Some o2 →
         StateDict_shape (state_dict m2) = StateDict_shape (state_dict m) →
         param_groups o2 = param_groups o →
         ∃ w3, load_checkpoint p w2 = (Ok (epoch, loss), w3)
           ∧ net w3 = Some {| state_dict := state_dict m; training := training m2 |}
           ∧ optimizer w3 = Some o
           ∧ fs w3 = fs w2 ∧ DATA w3 = DATA w2
           ∧ generator w3 = generator w2 ∧ heap w3 = heap w2
           ∧ (training m2 = training m → DATA w2 = DATA w →
              generator w2 = generator w → heap w2 = heap w →
              core w3 = core w
              ∧ ∀ steps, (mapM optimization_step steps w3).1
                         = (mapM optimization_step steps w).1))
    ∧ ∃ w2, load_checkpoint p w1 = (Ok (epoch, loss), w2)
        ∧ core w2 = core w ∧ fs w2 = fs w1
        ∧ ∀ steps, (mapM optimization_step steps w2).1
                   = (mapM optimization_step steps w).1.
Proof.
  intros Hm Ho c.
  set (w1 := set_log (log w ++ [EvPrintCheckpointing epoch; EvCheckpointWritten p epoch])
               (set_fs (<[p := FCheckpoint c]> (fs w)) w)).
  assert (fs w1 !! p = Some (FCheckpoint c)) as Hfile by apply lookup_insert_eq.
  assert (∀ w2 m2 o2,
            fs w2 !! p = Some (FCheckpoint c) →
            net w2 = Some m2 → optimizer w2 = Some o2 →
            StateDict_shape (state_dict m2) = StateDict_shape (state_dict m) →
            param_groups o2 = param_groups o →
            ∃ w3, load_checkpoint p w2 = (Ok (epoch, loss), w3)
              ∧ net w3 = Some {| state_dict := state_dict m; training := training m2 |}
              ∧ optimizer w3 = Some o
              ∧ fs w3 = fs w2 ∧ DATA w3 = DATA w2
              ∧ generator w3 = generator w2 ∧ heap w3 = heap w2
              ∧ (training m2 = training m → DATA w2 = DATA w →
                 generator w2 = generator w → heap w2 = heap w →
                 core w3 = core w
                 ∧ ∀ steps, (mapM optimization_step steps w3).1
                            = (mapM optimization_step steps w).1)) as Hload.
  { intros w2 m2 o2 Hf2 Hm2 Ho2 Hshape Hgroups.
    pose proof (load_checkpoint_run p c m2 o2 w2 Hm2 Ho2 Hf2) as Hrun.
    simpl in Hrun. specialize (Hrun (eq_sym Hshape) (eq_sym Hgroups)).
    eexists. split; [exact Hrun|]. simpl.
    repeat (split; [done|]).
    intros Hmode Hdata Hgen Hheap.
    match goal with |- core ?w3 = _ ∧ _ => assert (core w3 = core w) as Hcore end.
    { unfold core. simpl. rewrite Hmode, Hm, Ho, Hdata, Hgen, Hheap. by destruct m. }
    split; [exact Hcore|]. intros steps.
    apply respects_mapM; [apply respects_optimization_step | exact Hcore]. }
  exists w1. split; [by apply save_checkpoint_run|].
  split; [exact Hfile|]. split; [done|]. split; [exact Hload|].
  destruct (Hload w1 m o Hfile Hm Ho eq_refl eq_refl)
    as (w2 & Hrun & _ & _ & Hfs & _ & _ & _ & Hsame).
  destruct Hsame as [Hcore Hsteps]; [done..|].
  exists w2. by repeat split.
Qed.

(** ** The setup phase of main *)

Lemma rng_frame_draw_real : rng_frame draw_real.
Proof. intros w r w' [= <- <-]. apply same_but_rng_set. Qed.

Lemma rng_frame_draw_mat rows cols : rng_frame (draw_mat rows cols).
Proof. do 2 (apply rng_frame_mapM; intros ?). apply rng_frame_draw_real. Qed.

Lemma rng_frame_redraw m : rng_frame (redraw m).
Proof. do 2 (apply rng_frame_mapM; intros ?). apply rng_frame_draw_real. Qed.

Lemma rng_frame_Linear_init i o b : rng_frame (Linear_init i o b).
Proof.
  unfold Linear_init. apply rng_frame_bind; [apply rng_frame_draw_mat|]. intros.
  apply rng_frame_bind; [|intros; apply rng_frame_ret].
  destruct b; [|apply rng_frame_ret].
  apply rng_frame_bind; [|intros; apply rng_frame_ret].
  apply rng_frame_mapM; intros ?. apply rng_frame_draw_real.
Qed.

Lemma rng_frame_init_weights_Linear l : rng_frame (init_weights_Linear l).
Proof.
  unfold init_weights_Linear.
  apply rng_frame_bind; [apply rng_frame_redraw | intros; apply rng_frame_ret].
Qed.

Lemma rng_frame_Block_init e n : rng_frame (Block_init e n).
Proof.
  unfold Block_init, MultiHeadAttention_init, FeedForward_init, Head_init.
  apply rng_frame_bind.
  { case_decide; [apply rng_frame_raise | apply rng_frame_ret]. }
  intros hs. apply rng_frame_bind.
  { apply rng_frame_bind.
    - apply rng_frame_mapM; intros _.
      do 3 (apply rng_frame_bind; [apply rng_frame_Linear_init|]; intros ?).
      apply rng_frame_ret.
    - intros. apply rng_frame_bind; [apply rng_frame_Linear_init|]. intros.
      apply rng_frame_ret. }
  intros a. apply rng_frame_bind; [|intros; apply rng_frame_ret].
  do 2 (apply rng_frame_bind; [apply rng_frame_Linear_init|]; intros ?).
  apply rng_frame_ret.
Qed.

Lemma rng_frame_init_weights_Block b : rng_frame (init_weights_Block b).
Proof.
  unfold init_weights_Block, init_weights_Head.
  apply rng_frame_bind.
  { apply rng_frame_mapM; intros h.
    do 3 (apply rng_frame_bind; [apply rng_frame_init_weights_Linear|]; intros ?).
    apply rng_frame_ret. }
  intros hs.
  do 3 (apply rng_frame_bind; [apply rng_frame_init_weights_Linear|]; intros ?).
  apply rng_frame_ret.
Qed.

Lemma rng_frame_GPT_init V : rng_frame (GPT_init V).
Proof.
  unfold GPT_init.
  do 2 (apply rng_frame_bind; [apply rng_frame_draw_mat|]; intros ?).
  apply rng_frame_bind; [apply rng_frame_mapM; intros; apply rng_frame_Block_init|].
  intros bs. apply rng_frame_bind; [apply rng_frame_Linear_init|]. intros lh.
  do 2 (apply rng_frame_bind; [apply rng_frame_redraw|]; intros ?).
  apply rng_frame_bind;
    [apply rng_frame_mapM; intros; apply rng_frame_init_weights_Block|].
  intros bs'. apply rng_frame_bind; [apply rng_frame_init_weights_Linear|]. intros.
  apply rng_frame_ret.
Qed.

Lemma setup_rel_refl w : setup_rel w w.
Proof. split; [|done]. exists []. by rewrite app_nil_r. Qed.

Lemma setup_rel_trans w1 w2 w3 : setup_rel w1 w2 → setup_rel w2 w3 → setup_rel w1 w3.
Proof.
  intros [(evs & Hlog & Hevs) Hfs] [(evs' & Hlog' & Hevs') Hfs']. split; [|auto].
  exists (evs ++ evs'). rewrite Hlog', Hlog, app_assoc. split; [done|].
  by apply Forall_app.
Qed.

Lemma setup_frame_rng {A} (c : M A) : rng_frame c → setup_frame c.
Proof.
  intros Hc w r w' Hrun. apply Hc in Hrun. rewrite Hrun. split; [|done].
  exists []. simpl. by rewrite app_nil_r.
Qed.

Lemma setup_frame_bind {A B'} (c : M A) (k : A → M B') :
  setup_frame c → (∀ a, setup_frame (k a)) → setup_frame (c ≫= k).
Proof.
  intros Hc Hk w r w' Hrun.
  apply bind_inv in Hrun as [(a & w1 & Hc1 & Hk1)|(e & Hc1 & ->)].
  - eapply setup_rel_trans; [by eapply Hc | by eapply Hk].
  - by eapply Hc.
Qed.

Lemma setup_frame_ret {A} (a : A) : setup_frame (mret a).
Proof. apply setup_frame_rng, rng_frame_ret. Qed.

Lemma setup_frame_raise {A} e : setup_frame (raise e : M A).
Proof. apply setup_frame_rng, rng_frame_raise. Qed.

Lemma setup_frame_emit ev : setup_event ev → setup_frame (emit ev).
Proof.
  intros Hev w r w' [= <- <-]. split; [|done]. exists [ev]. split; [done|].
  by constructor.
Qed.

Lemma setup_frame_lookup_file p : setup_frame (lookup_file p).
Proof. intros w r w' [= <- <-]. apply setup_rel_refl. Qed.

Lemma setup_frame_path_exists p : setup_frame (path_exists p).
Proof. intros w r w' [= <- <-]. apply setup_rel_refl. Qed.

Lemma setup_frame_read_text p : setup_frame (read_text p).
Proof.
  unfold read_text. destruct p as [p|]; [|apply setup_frame_raise].
  apply setup_frame_bind; [apply setup_frame_lookup_file|].
  intros [[]|]; first [apply setup_frame_ret | apply setup_frame_raise].
Qed.

Lemma setup_frame_train_text p : setup_frame (train_text p).
Proof.
  unfold train_text. destruct p as [p|]; [|apply setup_frame_raise].
  apply setup_frame_bind; [apply setup_frame_lookup_file|].
  intros [[]|]; first [apply setup_frame_ret | apply setup_frame_raise].
Qed.

Lemma setup_frame_write_file p f :
  (∀ c, f ≠ FCheckpoint c) → setup_frame (write_file p f).
Proof.
  intros Hf w r w' [= <- <-]. split.
  - exists []. by rewrite app_nil_r.
  - intros q Hq c. simpl. destruct (decide (p = q)) as [->|Hne].
    + rewrite lookup_insert_eq. intros [= ->]. by eapply Hf.
    + rewrite lookup_insert_ne by done. apply Hq.
Qed.

Lemma setup_frame_modify f :
  (∀ w, fs (f w) = fs w ∧ log (f w) = log w) → setup_frame (modify f).
Proof.
  intros Hf w r w' [= <- <-]. destruct (Hf w) as [Hfs Hlog]. split.
  - exists []. by rewrite app_nil_r.
  - intros p Hp c. rewrite Hfs. apply Hp.
Qed.

Lemma setup_frame_get_tokenizer train eval file :
  setup_frame (get_tokenizer train eval file).
Proof.
  unfold get_tokenizer.
  apply setup_frame_bind; [apply setup_frame_path_exists|]. intros ex.
  apply setup_frame_bind; [|intros; apply setup_frame_ret].
  destruct ex.
  - apply setup_frame_bind; [by apply setup_frame_emit|]. intros _.
    apply setup_frame_bind; [apply setup_frame_lookup_file|].
    intros [[]|]; try apply setup_frame_raise.
    apply setup_frame_bind; [by apply setup_frame_emit|]. intros _.
    apply setup_frame_ret.
  - do 2 (apply setup_frame_bind; [apply setup_frame_train_text|]; intros ?).
    do 2 (apply setup_frame_bind; [by apply setup_frame_emit|]; intros _).
    apply setup_frame_bind; [by apply setup_frame_write_file|]. intros _.
    apply setup_frame_ret.
Qed.

Lemma setup_frame_preprocess_split s path tk : setup_frame (preprocess_split s path tk).
Proof.
  unfold preprocess_split, set_data.
  apply setup_frame_bind; [apply setup_frame_path_exists|]. intros ex.
  destruct ex.
  - apply setup_frame_bind; [apply setup_frame_lookup_file|].
    intros [[]|]; try apply setup_frame_raise.
    apply setup_frame_bind; [by apply setup_frame_modify|]. intros _.
    by apply setup_frame_emit.
  - apply setup_frame_bind; [by apply setup_frame_emit|]. intros _.
    apply setup_frame_bind; [apply setup_frame_read_text|]. intros text.
    apply setup_frame_bind; [by apply setup_frame_modify|]. intros _.
    apply setup_frame_bind; [by apply setup_frame_emit|]. intros _.
    by apply setup_frame_write_file.
Qed.

Lemma setup_step {A B'} (c : M A) (k : A → M B') w0 w
    (Q : result B' * World → Prop) :
  setup_frame c → setup_rel w0 w →
  (∀ e w', setup_rel w0 w' → Q (Raise e, w')) →
  (∀ a w', setup_rel w0 w' → Q (k a w')) →
  Q ((c ≫= k) w).
Proof.
  intros Hc Hw Hraise Hok. unfold mbind, M_bind.
  destruct (c w) as [[a|e] w'] eqn:Hrun.
  - apply Hok. eapply setup_rel_trans; [done | by eapply Hc].
  - apply Hraise. eapply setup_rel_trans; [done | by eapply Hc].
Qed.

Lemma load_checkpoint_not_checkpoint p (w : World) :
  no_checkpoint_at p w → ∃ e, load_checkpoint p w = (Raise e, w).
Proof.
  intros Hno. unfold load_checkpoint.
  rewrite (bind_Ok (lookup_file p) _ w (fs w !! p) w eq_refl).
  destruct (fs w !! p) as [[t|t|d|c]|] eqn:Hf; try (eexists; reflexivity).
  by destruct (Hno c).
Qed.

(** With a checkpoint path that names no file, the setup phase raises,
    whatever its earlier steps did. *)
Lemma main_setup_missing_checkpoint args p (w : World) :
  args_load_checkpoint args = Some p → p ≠ "" → fs w !! p = None →
  ∃ e w', main_setup args w = (Raise e, w') ∧ setup_rel w w'.
Proof.
  intros Hp Hne Hfile. unfold main_setup, preprocess_data.
  assert (no_checkpoint_at p w) as Hno by (intros c; by rewrite Hfile).
  pose (Q := λ rw : result (Tokenizer * Z * Loss) * World,
               ∃ e w', rw = (Raise e, w') ∧ setup_rel w w').
  assert (∀ e w', setup_rel w w' → Q (Raise e, w')) as Hraise.
  { intros e w' Hw'. by exists e, w'. }
  change (Q ((emit EvPrintDevice ≫= λ _,
    get_tokenizer (args_train args) (args_eval args) (args_tokenizer args) ≫= λ tokenizer,
    (preprocess_split TRAIN (args_train args) tokenizer ≫= λ _,
     preprocess_split EVAL (args_eval args) tokenizer) ≫= λ _,
    emit EvPrintFinishedLoading ≫= λ _,
    GPT_init (get_vocab_size tokenizer) ≫= λ model,
    modify (set_net (Some model)) ≫= λ _,
    emit (EvModelConstructed (get_vocab_size tokenizer)) ≫= λ _,
    modify (set_optimizer (Some (AdamW_new (state_dict model) LEARNING_RATE))) ≫= λ _,
    emit EvOptimizerConstructed ≫= λ _,
    (match args_load_checkpoint args with
     | Some p =>
         if decide (p = "") then mret (0%Z, LossInf)
         else path_exists p ≫= λ isfile : bool,
              if isfile then load_checkpoint p else raise (FileNotFoundError p)
     | None => mret (0%Z, LossInf)
     end) ≫= λ '(epoch, loss), mret (tokenizer, epoch, loss)) w)).
  eapply setup_step; [by apply setup_frame_emit | apply setup_rel_refl | done|].
  intros _ w1 Hw1.
  eapply setup_step; [apply setup_frame_get_tokenizer | done | done|].
  intros tokenizer w2 Hw2.
  eapply setup_step; [|done|done|].
  { apply setup_frame_bind; [apply setup_frame_preprocess_split|]. intros _.
    apply setup_frame_preprocess_split. }
  intros _ w3 Hw3.
  eapply setup_step; [by apply setup_frame_emit | done | done|]. intros _ w4 Hw4.
  eapply setup_step; [apply setup_frame_rng, rng_frame_GPT_init | done | done|].
  intros model w5 Hw5.
  eapply setup_step; [by apply setup_frame_modify | done | done|]. intros _ w6 Hw6.
  eapply setup_step; [by apply setup_frame_emit | done | done|]. intros _ w7 Hw7.
  eapply setup_step; [by apply setup_frame_modify | done | done|]. intros _ w8 Hw8.
  eapply setup_step; [by apply setup_frame_emit | done | done|]. intros _ w9 Hw9.
  rewrite Hp. rewrite decide_False by done.
  assert (no_checkpoint_at p w9) as Hno9 by (by apply Hw9).
  assert (∃ e, (path_exists p ≫= λ isfile : bool,
                  if isfile then load_checkpoint p else raise (FileNotFoundError p)) w9
               = (Raise e, w9)) as [e He].
  { rewrite (bind_Ok (path_exists p) _ w9 (bool_decide (is_Some (fs w9 !! p))) w9 eq_refl).
    destruct (bool_decide (is_Some (fs w9 !! p))).
    - by apply load_checkpoint_not_checkpoint.
    - by eexists. }
  rewrite (bind_Raise _ _ _ _ _ He). by apply Hraise.
Qed.

(** C5 (amended). If a load-checkpoint path is supplied and no file exists
    at that path, [main] raises a fatal error, and it does so before any
    optimization step, loss estimation, generation, checkpoint read or
    checkpoint write: whatever was logged is an event of the setup phase
    (printing, tokenizer loading or training, data loading or tokenization,
    construction of the model and the optimizer), which [main] runs before
    it looks at the path. *)
Theorem missing_checkpoint_is_fatal args p (w : World) :
  args_load_checkpoint args = Some p → p ≠ "" → fs w !! p = None →
  ∃ e w' evs,
    main args w = (Raise e, w') ∧ log w' = log w ++ evs ∧ Forall setup_event evs.
Proof.
  intros Hp Hne Hfile.
  destruct (main_setup_missing_checkpoint args p w Hp Hne Hfile)
    as (e & w' & Hrun & (evs & Hlog & Hevs) & _).
  exists e, w', evs. split; [|done]. unfold main. by rewrite (bind_Raise _ _ _ _ _ Hrun).
Qed.

(** ** The training loop *)

Lemma saved_epochs_app evs evs' :
  saved_epochs (evs ++ evs') = saved_epochs evs ++ saved_epochs evs'.
Proof. apply omap_app. Qed.

Lemma silent_rng {A} (c : M A) : rng_frame c → silent c.
Proof.
  intros Hc w r w' Hrun. apply Hc in Hrun. rewrite Hrun. exists []. simpl.
  by rewrite app_nil_r.
Qed.

Lemma silent_bind {A B'} (c : M A) (k : A → M B') :
  silent c → (∀ a, silent (k a)) → silent (c ≫= k).
Proof.
  intros Hc Hk w r w' Hrun.
  apply bind_inv in Hrun as [(a & w1 & Hc1 & Hk1)|(e & Hc1 & ->)].
  - destruct (Hc _ _ _ Hc1) as (evs & Hlog & Hevs).
    destruct (Hk _ _ _ _ Hk1) as (evs' & Hlog' & Hevs').
    exists (evs ++ evs'). rewrite Hlog', Hlog, app_assoc. split; [done|].
    by rewrite saved_epochs_app, Hevs, Hevs'.
  - by eapply Hc.
Qed.

Lemma silent_mapM {A B'} (f : A → M B') (l : list A) :
  (∀ a, silent (f a)) → silent (mapM f l).
Proof.
  intros Hf. induction l as [|a l IH]; simpl; [apply silent_rng, rng_frame_ret|].
  apply silent_bind; [done|]. intros b.
  apply silent_bind; [done|]. intros bs. apply silent_rng, rng_frame_ret.
Qed.

Lemma silent_emit ev : saved_epochs [ev] = [] → silent (emit ev).
Proof. intros Hev w r w' [= <- <-]. by exists [ev]. Qed.

Lemma silent_modify f : (∀ w, log (f w) = log w) → silent (modify f).
Proof.
  intros Hf w r w' [= <- <-]. exists []. by rewrite Hf, app_nil_r.
Qed.

Lemma silent_set_training flag : silent (set_training flag).
Proof.
  intros w r w'. unfold set_training. destruct (net w); intros [= <- <-];
    exists []; simpl; by rewrite app_nil_r.
Qed.

Lemma rng_frame_get_batch s : rng_frame (get_batch s).
Proof.
  unfold get_batch. apply rng_frame_bind; [apply rng_frame_gets|]. intros data.
  apply rng_frame_bind.
  { unfold randint. case_decide; [apply rng_frame_raise|].
    apply rng_frame_mapM. intros _.
    apply rng_frame_bind; [apply rng_frame_draw|]. intros. apply rng_frame_ret. }
  intros ix. case_decide; [apply rng_frame_raise | apply rng_frame_ret].
Qed.

Lemma rng_frame_loss_of l : rng_frame (loss_of l).
Proof. destruct l; [apply rng_frame_ret | apply rng_frame_raise]. Qed.

Lemma rng_frame_the_optimizer : rng_frame the_optimizer.
Proof.
  intros w r w'. unfold the_optimizer. destruct (optimizer w); intros [= <- <-];
    apply same_but_rng_refl.
Qed.

Lemma silent_estimate_loss : silent estimate_loss.
Proof.
  assert (∀ s, silent (estimate_split s)) as Hsplit.
  { intros s. unfold estimate_split.
    apply silent_bind; [|intros; apply silent_rng, rng_frame_ret].
    apply silent_mapM. intros _. apply silent_rng.
    apply rng_frame_bind; [apply rng_frame_get_batch|]. intros [xb yb].
    apply rng_frame_bind; [apply rng_frame_GPT_forward|]. intros [logits loss].
    apply rng_frame_loss_of. }
  unfold estimate_loss.
  apply silent_bind; [apply silent_set_training|]. intros _.
  apply silent_bind; [by apply silent_emit|]. intros _.
  apply silent_bind; [apply Hsplit|]. intros lt.
  apply silent_bind; [apply Hsplit|]. intros le.
  apply silent_bind; [apply silent_set_training|]. intros _.
  apply silent_rng, rng_frame_ret.
Qed.

Lemma silent_optimization_step i : silent (optimization_step i).
Proof.
  unfold optimization_step.
  apply silent_bind; [apply silent_rng, rng_frame_get_batch|]. intros [xb yb].
  apply silent_bind; [apply silent_rng, rng_frame_gets|]. intros g.
  apply silent_bind; [apply silent_rng, rng_frame_GPT_forward|]. intros [logits loss].
  apply silent_bind; [apply silent_rng, rng_frame_loss_of|]. intros l.
  apply silent_bind; [apply silent_rng, rng_frame_self|]. intros m.
  apply silent_bind; [apply silent_rng, rng_frame_the_optimizer|]. intros o.
  destruct (AdamW_step o (state_dict m) (backward m xb yb g)) as [sd o'].
  apply silent_bind; [by apply silent_modify|]. intros _.
  apply silent_bind; [by apply silent_modify|]. intros _.
  apply silent_bind; [by apply silent_emit|]. intros _.
  apply silent_rng, rng_frame_ret.
Qed.

(** [save_checkpoint] writes its checkpoint if and only if it returns. *)
Lemma save_checkpoint_log path i loss (w : World) r w' :
  save_checkpoint path i loss w = (r, w') →
  ∃ evs, log w' = log w ++ evs
    ∧ ((r = Ok tt ∧ saved_epochs evs = [i]) ∨ ((∃ e, r = Raise e) ∧ saved_epochs evs = [])).
Proof.
  unfold save_checkpoint, emit, modify, self, the_optimizer, write_file, mbind, M_bind.
  simpl. destruct (net w) as [m|]; simpl.
  2:{ intros [= <- <-]. exists [EvPrintCheckpointing i]. split; [done|]. right. eauto. }
  destruct (optimizer w) as [o|]; simpl.
  2:{ intros [= <- <-]. exists [EvPrintCheckpointing i]. split; [done|]. right. eauto. }
  destruct path as [p|]; simpl.
  2:{ intros [= <- <-]. exists [EvPrintCheckpointing i]. split; [done|]. right. eauto. }
  intros [= <- <-]. exists [EvPrintCheckpointing i; EvCheckpointWritten p i]. simpl.
  split; [by rewrite <- app_assoc|]. by left.
Qed.

Lemma silent_periodic_estimate epoch i :
  silent (if decide (i ≠ epoch ∧ (i mod EVAL_INTERVAL)%Z = 0%Z)
          then estimate_loss ≫= λ '(lt, le), emit (EvPrintStep i lt le)
          else mret ()).
Proof.
  case_decide; [|apply silent_rng, rng_frame_ret].
  apply silent_bind; [apply silent_estimate_loss|]. intros [lt le].
  by apply silent_emit.
Qed.

Lemma interval_test_run args epoch i (w : World) r w' :
  (if decide (i ≠ epoch)
   then py_mod i (args_checkpoint_interval args) ≫= λ r, mret (bool_decide (r = 0%Z))
   else mret false) w = (r, w') →
  w' = w
  ∧ ∀ due, r = Ok due →
      due || bool_decide (i = (args_epochs args - 1)%Z)
      = bool_decide (checkpoint_due args epoch i).
Proof.
  unfold py_mod, checkpoint_due. case_decide as Hi.
  - case_decide as Hint; intros [= <- <-]; (split; [done|]); intros due [= <-].
    apply eq_true_iff_eq. rewrite orb_true_iff, !bool_decide_eq_true. tauto.
  - intros [= <- <-]. split; [done|]. intros due [= <-]. simpl.
    apply eq_true_iff_eq. rewrite !bool_decide_eq_true. tauto.
Qed.

(** One epoch of the loop writes a checkpoint exactly when it returns and
    the condition of [main] holds. *)
Lemma train_epoch_log args epoch i (w : World) r w' :
  train_epoch args epoch i w = (r, w') →
  ∃ evs, log w' = log w ++ evs
    ∧ ((r = Ok tt
        ∧ saved_epochs evs = if decide (checkpoint_due args epoch i) then [i] else [])
       ∨ ((∃ e, r = Raise e) ∧ saved_epochs evs = [])).
Proof.
  unfold train_epoch. intros Hrun.
  apply bind_inv in Hrun as [(? & w1 & H1 & Hrun)|(e & H1 & ->)].
  2:{ destruct (silent_periodic_estimate _ _ _ _ _ H1) as (evs & Hlog & Hevs).
      exists evs. split; [done|]. right. eauto. }
  destruct (silent_periodic_estimate _ _ _ _ _ H1) as (evs1 & Hlog1 & Hevs1).
  apply bind_inv in Hrun as [(loss & w2 & H2 & Hrun)|(e & H2 & ->)].
  2:{ destruct (silent_optimization_step _ _ _ _ H2) as (evs2 & Hlog2 & Hevs2).
      exists (evs1 ++ evs2). rewrite Hlog2, Hlog1, app_assoc. split; [done|].
      right. rewrite saved_epochs_app, Hevs1, Hevs2. eauto. }
  destruct (silent_optimization_step _ _ _ _ H2) as (evs2 & Hlog2 & Hevs2).
  apply bind_inv in Hrun as [(due & w3 & H3 & Hrun)|(e & H3 & ->)].
  2:{ apply interval_test_run in H3 as [-> _].
      exists (evs1 ++ evs2). rewrite Hlog2, Hlog1, app_assoc. split; [done|].
      right. rewrite saved_epochs_app, Hevs1, Hevs2. eauto. }
  apply interval_test_run in H3 as [-> Hdue]. rewrite (Hdue due eq_refl) in Hrun.
  destruct (decide (checkpoint_due args epoch i)) as [Hd|Hd].
  - rewrite bool_decide_eq_true_2 in Hrun by done.
    destruct (save_checkpoint_log _ _ _ _ _ _ Hrun) as (evs3 & Hlog3 & Hcase).
    exists ((evs1 ++ evs2) ++ evs3). rewrite Hlog3, Hlog2, Hlog1, !app_assoc.
    split; [done|]. rewrite !saved_epochs_app, Hevs1, Hevs2. simpl.
    destruct Hcase as [[-> ->]|[He ->]]; [by left | by right].
  - rewrite bool_decide_eq_false_2 in Hrun by done. inversion Hrun; subst.
    exists (evs1 ++ evs2). rewrite Hlog2, Hlog1, app_assoc. split; [done|].
    left. by rewrite saved_epochs_app, Hevs1, Hevs2.
Qed.

Lemma for_each_log args epoch (l : list Z) : ∀ (w : World) r w',
  for_each l (train_epoch args epoch) w = (r, w') →
  ∃ evs, log w' = log w ++ evs
    ∧ saved_epochs evs `prefix_of` filter (checkpoint_due args epoch) l
    ∧ (r = Ok tt → saved_epochs evs = filter (checkpoint_due args epoch) l).
Proof.
  induction l as [|i l IH]; intros w r w' Hrun; simpl in Hrun.
  - inversion Hrun; subst. exists []. rewrite app_nil_r. by repeat split.
  - rewrite filter_cons.
    apply bind_inv in Hrun as [([] & w1 & H1 & Hrun)|(e & H1 & ->)].
    + apply train_epoch_log in H1 as (evs1 & Hlog1 & [[_ Hs1]|[[e [=]] _]]).
      apply IH in Hrun as (evs2 & Hlog2 & Hpre & Hall).
      exists (evs1 ++ evs2). rewrite Hlog2, Hlog1, app_assoc. split; [done|].
      rewrite saved_epochs_app, Hs1. case_decide; simpl.
      * split; [by apply prefix_cons|]. intros Hr. by rewrite Hall.
      * done.
    + apply train_epoch_log in H1 as (evs1 & Hlog1 & [[[=] _]|[_ Hs1]]).
      exists evs1. split; [done|]. rewrite Hs1. split; [apply prefix_nil|]. intros [=].
Qed.

Lemma elem_of_range a b i : i ∈ range a b ↔ (a ≤ i < b)%Z.
Proof.
  unfold range. rewrite list_elem_of_fmap. split.
  - intros (k & -> & Hk). apply elem_of_seq in Hk. lia.
  - intros Hi. exists (Z.to_nat (i - a)). split; [lia|]. apply elem_of_seq. lia.
Qed.

(** C6 (amended). In every run of the training loop from starting epoch
    [e0] to final epoch [E - 1], the checkpoints written are, in order, a
    prefix of the epochs [i] with [(i != e0 and i % interval == 0) or
    i == E - 1], and all of them when the loop completes.  So in a completed
    run a checkpoint is written at every multiple of the interval other than
    the starting epoch, unconditionally at the final epoch, and at the
    starting epoch exactly when it is also the final one. *)
Theorem checkpoints_of_training_loop args e0 (w : World) :
  let r := (training_loop args e0 w).1 in
  let w' := (training_loop args e0 w).2 in
  let due := filter (checkpoint_due args e0) (range e0 (args_epochs args)) in
  ∃ evs, log w' = log w ++ evs
    ∧ saved_epochs evs `prefix_of` due
    ∧ (r = Ok tt →
       saved_epochs evs = due
       ∧ (∀ i, (e0 < i < args_epochs args)%Z →
               (i mod args_checkpoint_interval args = 0)%Z → i ∈ saved_epochs evs)
       ∧ ((e0 < args_epochs args)%Z → (args_epochs args - 1)%Z ∈ saved_epochs evs)
       ∧ (e0 ∈ saved_epochs evs ↔ e0 = (args_epochs args - 1)%Z)).
Proof.
  intros r w' due. subst r w'.
  destruct (training_loop args e0 w) as [r w'] eqn:Hrun. simpl.
  unfold training_loop in Hrun.
  apply bind_inv in Hrun as [([] & w1 & [= <-] & Hrun)|(e & [=] & _)].
  apply for_each_log in Hrun as (evs & Hlog & Hpre & Hall). simpl in Hlog.
  exists (EvPrintStartingTraining :: evs).
  split; [by rewrite Hlog, <- app_assoc|]. split; [done|].
  intros Hr. specialize (Hall Hr). simpl. rewrite Hall. fold due.
  split; [done|]. unfold due.
  split; [|split].
  - intros i Hi Hmod. apply list_elem_of_filter. split.
    + left. split; [lia | done].
    + apply elem_of_range. lia.
  - intros HE. apply list_elem_of_filter. split; [by right|]. apply elem_of_range. lia.
  - rewrite list_elem_of_filter, elem_of_range. unfold checkpoint_due. split.
    + intros [[[Hne _]|He] _]; [done | done].
    + intros He. split; [by right | lia].
Qed.

(** ** What the setup phase leaves behind *)

Lemma map_eq_Forall2 {A B'} (f : A → B') (l l' : list A) :
  map f l = map f l' → Forall2 (λ a a', f a = f a') l l'.
Proof.
  revert l'. induction l as [|a l IH]; intros [|a' l'] Heq; simpl in Heq;
    try discriminate; constructor; [congruence|]. apply IH. congruence.
Qed.

Lemma Head_shape_tril h h' :
  Head_shape h = Head_shape h' → length (tril h) = length (tril h').
Proof.
  unfold Head_shape, Linear_shape. simpl. intros [= _ _ _ _ _ _ Htril].
  apply (f_equal length) in Htril. by rewrite !length_map in Htril.
Qed.

Lemma Block_shape_wf b b' : Block_shape b = Block_shape b' → Block_wf b' → Block_wf b.
Proof.
  unfold Block_shape. intros Hshape [Hne Htril].
  assert (length (heads (sa b)) = length (heads (sa b'))) as Hlen.
  { apply (f_equal length) in Hshape. rewrite !length_app, !length_map in Hshape.
    simpl in Hshape. lia. }
  apply app_inj_1 in Hshape as [Hheads _]; [|by rewrite !length_map].
  split.
  - intros Hnil. rewrite Hnil in Hlen. by destruct (heads (sa b')).
  - apply map_eq_Forall2 in Hheads. clear -Hheads Htril.
    induction Hheads as [|h h' hs hs' Hh _ IH]; [constructor|].
    inversion Htril; subst. constructor; [|by apply IH].
    by rewrite (Head_shape_tril _ _ Hh).
Qed.

Lemma GPT_wf_shape V sd sd' :
  StateDict_shape sd = StateDict_shape sd' → GPT_wf V sd' → GPT_wf V sd.
Proof.
  unfold StateDict_shape, Linear_shape. simpl.
  intros [= Hte Hpe _ _ Hlm _ Hblocks] (Htok & Hpos & Hbs & Hout).
  apply (f_equal length) in Hte, Hpe, Hlm. unfold mat_shape in *.
  rewrite !length_map in Hte, Hpe, Hlm. unfold GPT_wf, out_features.
  split; [congruence|]. split; [congruence|]. split; [|unfold out_features in Hout; congruence].
  apply map_eq_Forall2 in Hblocks. clear -Hblocks Hbs.
  induction Hblocks as [|b b' bs bs' Hb _ IH]; [constructor|].
  inversion Hbs; subst. constructor; [by eapply Block_shape_wf | by apply IH].
Qed.

(** A [load_checkpoint] that returns has replaced the parameters by others
    of the same shapes and has left the mode alone. *)
Lemma load_checkpoint_net p (w : World) r w' m :
  load_checkpoint p w = (Ok r, w') → net w = Some m →
  ∃ sd, net w' = Some {| state_dict := sd; training := training m |}
        ∧ StateDict_shape sd = StateDict_shape (state_dict m).
Proof.
  unfold load_checkpoint. intros Hrun Hm.
  apply bind_inv in Hrun as [(f & w1 & [= <- <-] & Hrun)|(? & _ & [=])].
  destruct (fs w !! p) as [[t|t|d|c]|]; try by inversion Hrun.
  apply bind_inv in Hrun as [([] & w1 & [= <-] & Hrun)|(? & _ & [=])].
  apply bind_inv in Hrun as [([] & w2 & H2 & Hrun)|(? & _ & [=])].
  unfold load_state_dict in H2.
  rewrite (bind_Ok self _ _ m _) in H2 by (unfold self; simpl; by rewrite Hm).
  case_decide as Hshape; [|by inversion H2]. injection H2 as <-.
  apply bind_inv in Hrun as [([] & w3 & H3 & Hrun)|(? & _ & [=])].
  unfold optim_load_state_dict in H3.
  apply bind_inv in H3 as [(o & w4 & H4 & H3)|(? & _ & [=])].
  apply rng_frame_the_optimizer in H4. rewrite H4 in H3.
  case_decide; [|by inversion H3]. injection H3 as <-.
  apply bind_inv in Hrun as [([] & w5 & [= <-] & Hrun)|(? & _ & [=])].
  injection Hrun as _ <-. simpl. eauto.
Qed.

(** When the setup phase returns, the module object is in training mode
    and has the shapes [GPT.__init__] gives it, also after a checkpoint was
    loaded into it. *)
Lemma main_setup_Ok args (w : World) tk epoch loss w1 :
  main_setup args w = (Ok (tk, epoch, loss), w1) → 0 < NUM_HEADS →
  ∃ m, net w1 = Some m ∧ training m = true
       ∧ GPT_wf (get_vocab_size tk) (state_dict m).
Proof.
  unfold main_setup. intros Hrun Hheads.
  apply bind_inv in Hrun as [([] & wa & _ & Hrun)|(? & _ & [=])].
  apply bind_inv in Hrun as [(tokenizer & wb & _ & Hrun)|(? & _ & [=])].
  apply bind_inv in Hrun as [([] & wc & _ & Hrun)|(? & _ & [=])].
  apply bind_inv in Hrun as [([] & wd & _ & Hrun)|(? & _ & [=])].
  apply bind_inv in Hrun as [(model & we & Hinit & Hrun)|(? & _ & [=])].
  destruct (total_GPT_init (get_vocab_size tokenizer) wd)
    as (m' & w'' & Hinit' & _ & Htrain & Hwf & _); [lia|].
  rewrite Hinit in Hinit'. injection Hinit' as <- <-.
  apply bind_inv in Hrun as [([] & wf & [= <-] & Hrun)|(? & _ & [=])].
  apply bind_inv in Hrun as [([] & wg & [= <-] & Hrun)|(? & _ & [=])].
  apply bind_inv in Hrun as [([] & wh & [= <-] & Hrun)|(? & _ & [=])].
  apply bind_inv in Hrun as [([] & wi & [= <-] & Hrun)|(? & _ & [=])].
  apply bind_inv in Hrun as [([e l] & wj & Hcheck & Hrun)|(? & _ & [=])].
  injection Hrun as <- _ _ <-.
  assert ((∃ sd, net wj = Some {| state_dict := sd; training := training model |}
                 ∧ StateDict_shape sd = StateDict_shape (state_dict model))
          ∨ net wj = Some model) as [(sd & Hnet & Hshape)|Hnet].
  { destruct (args_load_checkpoint args) as [p|]; [|right; by inversion Hcheck].
    case_decide; [right; by inversion Hcheck|].
    apply bind_inv in Hcheck as [(isfile & wk & [= <- <-] & Hcheck)|(? & _ & [=])].
    destruct (bool_decide _); [|by inversion Hcheck].
    left. by eapply load_checkpoint_net. }
  - eexists. split; [exact Hnet|]. simpl. split; [done|]. by eapply GPT_wf_shape.
  - by exists model.
Qed.

(** ** Generation from main *)

(** C7 (what the code does). When [main] is invoked to generate (the
    generate flag is given and not zero), the optimization loop is skipped
    and [generate] is run from a zero-initialized context of one token, but
    with [max_new_tokens = 300] whatever the flag says: the text printed is
    the decoding of 301 tokens, not of the N tokens that the flag and the
    message printed before it announce. *)
Theorem generation_length_is_300 args n tk epoch loss (w w1 : World) :
  args_generate args = Some n → n ≠ 0%Z →
  main_setup args w = (Ok (tk, epoch, loss), w1) →
  0 < NUM_HEADS → 0 < SEQ_LEN → 0 < get_vocab_size tk →
  ∃ w2 row,
    main args w = (Ok tt, w2)
    ∧ log w2 = log w1 ++ [EvPrintGenerating n; EvGenerate 300; EvPrintText (decode tk row)]
    ∧ length row = 301
    ∧ net w2 = net w1 ∧ optimizer w2 = optimizer w1.
Proof.
  intros Hgen Hn Hsetup Hheads Hseq HV.
  destruct (main_setup_Ok _ _ _ _ _ _ Hsetup Hheads) as (m & Hnet & Htrain & Hwf).
  unfold main. rewrite (bind_Ok _ _ _ _ _ Hsetup). cbv beta iota.
  rewrite Hgen. rewrite decide_False by done. unfold main_generate.
  set (wa := set_log (log w1 ++ [EvPrintGenerating n]) w1).
  rewrite (bind_Ok (emit (EvPrintGenerating n)) _ w1 tt wa eq_refl).
  set (wb := set_heap (heap wa ++ [[[0]]]) wa).
  rewrite (bind_Ok (alloc [[0]]) _ wa (length (heap wa)) wb eq_refl).
  set (wc := set_log (log wb ++ [EvGenerate 300]) wb).
  rewrite (bind_Ok (emit (EvGenerate 300)) _ wb tt wc eq_refl).
  destruct (generate_spec (get_vocab_size tk) m 300 (length (heap wa)) [[0]] wc 1 1)
    as (out & w' & ctx' & Hrun & Hout & Hshape & _ & _).
  { exact Hnet. } { exact Hwf. } { exact Hseq. } { exact HV. }
  { by apply list_lookup_middle. }
  { split; [done|]. by repeat constructor. }
  { lia. }
  { by repeat constructor. }
  rewrite (bind_Ok _ _ _ _ _ Hrun).
  rewrite (bind_Ok (deref out) _ w' ctx' w') by (unfold deref; by rewrite Hout).
  destruct Hshape as [HB Hrows]. destruct ctx' as [|row rest]; [discriminate|].
  apply Forall_cons in Hrows as [Hrow _].
  destruct (heap_frame_generate 300 _ _ _ _ Hrun) as (_ & Hnet' & Hopt' & _ & Hlog' & _).
  eexists _, row. split; [reflexivity|]. simpl.
  split; [rewrite Hlog'; simpl; by rewrite <- !app_assoc|].
  split; [exact Hrow|]. by split.
Qed.

(** Outside training, dropout is the identity and draws nothing. *)
Lemma dropout_eval_identity p (x : list (list (list R))) (w : World) :
  dropout_batch p false x w = (Ok x, w).
Proof.
  assert (∀ {A} (l : list A) (w : World), mapM (λ a, mret a : M A) l w = (Ok l, w))
    as HmapM.
  { intros A l. induction l as [|a l IH]; intros w0; [done|].
    cbn [mapM]. rewrite (bind_Ok _ _ w0 a w0 eq_refl).
    by rewrite (bind_Ok _ _ _ _ _ (IH w0)). }
  assert (∀ v (w : World), dropout_vec p false v w = (Ok v, w)) as Hvec.
  { intros v w0. apply HmapM. }
  assert (∀ m (w : World), dropout_mat p false m w = (Ok m, w)) as Hmat.
  { intros m. induction m as [|v m IH]; intros w0; [done|].
    unfold dropout_mat. cbn [mapM]. rewrite (bind_Ok _ _ _ _ _ (Hvec v w0)).
    by rewrite (bind_Ok _ _ _ _ _ (IH w0)). }
  revert w. induction x as [|m x IH]; intros w0; [done|].
  unfold dropout_batch. cbn [mapM]. rewrite (bind_Ok _ _ _ _ _ (Hmat m w0)).
  by rewrite (bind_Ok _ _ _ _ _ (IH w0)).
Qed.

(** The generation branch of [main] never touches the module object. *)
Lemma main_generate_net args tk n (w : World) r w' :
  main_generate args tk n w = (r, w') → net w' = net w.
Proof.
  unfold main_generate. intros Hrun.
  apply bind_inv in Hrun as [([] & wa & [= <-] & Hrun)|(? & [=] & _)].
  apply bind_inv in Hrun as [(ctx & wb & [= <- <-] & Hrun)|(? & [=] & _)].
  apply bind_inv in Hrun as [([] & wc & [= <-] & Hrun)|(? & [=] & _)].
  apply bind_inv in Hrun as [(out & wd & Hgen & Hrun)|(e & Hgen & ->)].
  2:{ by apply heap_frame_generate in Hgen as (_ & -> & _). }
  apply heap_frame_generate in Hgen as (_ & Hnet & _).
  apply bind_inv in Hrun as [(t & we & Hd & Hrun)|(e & Hd & ->)].
  2:{ apply rng_frame_deref in Hd. by rewrite Hd. }
  apply rng_frame_deref in Hd.
  assert (net w' = net we) as ->.
  { destruct t; inversion Hrun; subst; done. }
  by rewrite Hd.
Qed.

(** C9 (what the code does). At inference in evaluation mode dropout is a
    no-op, but the generation path of [main] never calls [eval()]: the
    module it generates from is in training mode and stays in it, and there
    dropout changes the attention weights.  On a context of one token, which
    generation starts from, the softmax gives the weight 1, and the weight
    after the dropout step is 0 or [1 / (1 - DROPOUT)], never 1. *)
Theorem generation_path_runs_dropout args tk epoch loss (w w1 : World) :
  main_setup args w = (Ok (tk, epoch, loss), w1) →
  0 < NUM_HEADS → 0 < SEQ_LEN → (0 < DROPOUT < 1)%R →
  ∃ m, net w1 = Some m ∧ training m = true
    ∧ (∀ n, net (main_generate args tk n w1).2 = Some m)
    ∧ (∀ x (w0 : World), dropout_batch DROPOUT false x w0 = (Ok x, w0))
    ∧ ∀ (h : Head) (x : list R) (w0 : World),
        tril h = tril_ones SEQ_LEN →
        ∃ a wei' w0',
          Head_attention h [[x]] w0 = (Ok [[[a]]], w0) ∧ a = 1%R
          ∧ dropout_batch DROPOUT (training m) [[[a]]] w0 = (Ok wei', w0')
          ∧ (wei' = [[[0%R]]] ∨ wei' = [[[(1 / (1 - DROPOUT))%R]]])
          ∧ wei' ≠ [[[a]]].
Proof.
  intros Hsetup Hheads Hseq Hp.
  destruct (main_setup_Ok _ _ _ _ _ _ Hsetup Hheads) as (m & Hnet & Htrain & _).
  exists m. split; [done|]. split; [done|]. split.
  { intros n. destruct (main_generate args tk n w1) as [r w2] eqn:Hrun.
    apply main_generate_net in Hrun. simpl. congruence. }
  split; [apply dropout_eval_identity|].
  intros h x w0 Htril. rewrite Htrain.
  rewrite Head_attention_eq by (rewrite Htril, length_tril_ones; simpl; lia).
  unfold Head_scores, matmul_transposed, softmax. simpl.
  rewrite Htril, tril_is_zero_ones by lia.
  rewrite bool_decide_eq_false_2 by lia. simpl.
  set (s := (dot _ _ / _)%R).
  assert ((exp s / (exp s + 0))%R = 1%R) as ->.
  { pose proof (exp_pos s). field. lra. }
  eexists _, _, _. split; [reflexivity|]. split; [reflexivity|].
  split; [reflexivity|].
  destruct (Nat.odd _).
  - split; [right; f_equal; f_equal; f_equal; lra|].
    intros [= Heq]. assert (1 - DROPOUT ≠ 0)%R by lra.
    apply (f_equal (Rmult (1 - DROPOUT))) in Heq. field_simplify in Heq; lra.
  - split; [by left|]. intros [= Heq]. lra.
Qed.

(** ** Attention rows are probability distributions *)

Lemma vsum_nonneg (v : list R) : Forall (λ a, 0 <= a)%R v → (0 <= vsum v)%R.
Proof. induction 1; simpl; lra. Qed.

Lemma vsum_pos (v : list R) i a :
  Forall (λ a, 0 <= a)%R v → v !! i = Some a → (0 < a)%R → (0 < vsum v)%R.
Proof.
  intros Hv. revert i. induction Hv as [|b v Hb Hv IH]; intros [|i] Hi Ha;
    simpl in *; try discriminate.
  - injection Hi as ->. pose proof (vsum_nonneg v Hv). lra.
  - specialize (IH i Hi Ha). lra.
Qed.

Lemma vsum_div (v : list R) z : vsum (map (λ a, a / z)%R v) = (vsum v / z)%R.
Proof. induction v as [|a v IH]; simpl; [lra|]. rewrite IH. lra. Qed.

Lemma xexp_nonneg x : (0 <= xexp x)%R.
Proof. destruct x; simpl; [lra|]. left. apply exp_pos. Qed.

(** A row of scores with a finite entry is normalized by the softmax to
    non-negative weights that sum to 1. *)
Lemma softmax_distribution (row : list xreal) i s :
  row !! i = Some (Finite s) →
  vsum (softmax row) = 1%R ∧ Forall (λ p, 0 <= p)%R (softmax row).
Proof.
  intros Hi.
  assert (Forall (λ a, 0 <= a)%R (map xexp row)) as Hnn.
  { rewrite map_fmap. apply Forall_fmap, Forall_forall. intros x _. apply xexp_nonneg. }
  assert (0 < vsum (map xexp row))%R as Hz.
  { apply (vsum_pos _ i (exp s)); [done| |apply exp_pos].
    by rewrite map_fmap, list_lookup_fmap, Hi. }
  unfold softmax. split.
  - rewrite <- (map_map xexp (λ a, a / vsum (map xexp row))%R), vsum_div.
    field. lra.
  - rewrite map_fmap. apply Forall_fmap, Forall_forall. intros x _. simpl.
    pose proof (xexp_nonneg x). apply Rmult_le_pos; [done|].
    left. by apply Rinv_0_lt_compat.
Qed.

(** X1. Every row of the attention-weight matrix of [Head.forward] is a
    probability distribution over the T key positions: T non-negative
    weights that sum to 1.  No row is fully masked, because a position may
    always attend to itself. *)
Theorem attention_rows_are_distributions (h : Head) (x : list mat) (T : nat) (w : World) :
  tril h = tril_ones SEQ_LEN →
  Forall (λ m, length m = T) x →
  T ≤ SEQ_LEN →
  ∃ wei, Head_attention h x w = (Ok wei, w) ∧
    ∀ b i, b < length x → i < T →
      ∃ row, wei !! b ≫= (.!! i) = Some row
             ∧ length row = T ∧ vsum row = 1%R ∧ Forall (λ p, 0 <= p)%R row.
Proof.
  intros Htril Hx HT. eexists. split.
  { apply Head_attention_eq. rewrite Htril, length_tril_ones. by eapply time_dim_le. }
  intros b i Hb Hi.
  destruct (lookup_lt_is_Some_2 x b Hb) as [xb Hxb].
  assert (length xb = T) as Hlen by (by eapply (Forall_lookup_1 _ x b xb) in Hx).
  destruct (lookup_lt_is_Some_2 xb i) as [xi Hxi]; [lia|].
  rewrite !map_fmap, !list_lookup_fmap, Head_scores_lookup, Hxb. simpl.
  unfold matmul_transposed.
  rewrite !map_fmap, !list_lookup_fmap, list_lookup_imap, !list_lookup_fmap, Hxi. simpl.
  eexists. split; [reflexivity|].
  split; [unfold softmax; by rewrite length_map, length_imap, !length_fmap|].
  eapply (softmax_distribution _ i).
  rewrite list_lookup_imap, !list_lookup_fmap, Hxi. simpl.
  rewrite Htril, tril_is_zero_ones by lia.
  rewrite bool_decide_eq_false_2 by lia. reflexivity.
Qed.

(** ** Edge cases of get_batch and of main *)

(** X2. On a token stream of at most SEQ_LEN tokens (in particular on the
    empty [DATA] of a run where [preprocess_data] has not been called)
    [get_batch] raises: [torch.randint] is given an empty range.  Nothing is
    drawn from the generator. *)
Theorem get_batch_raises_on_short_stream s (w : World) :
  length (DATA w s) ≤ SEQ_LEN →
  get_batch s w = (Raise RuntimeError, w).
Proof.
  intros Hlen. unfold get_batch, randint.
  rewrite (bind_Ok (gets (λ w, DATA w s)) _ w (DATA w s) w eq_refl).
  rewrite decide_True by lia. reflexivity.
Qed.

(** X3. [--generate 0] does not generate: [if args.generate:] is false for
    0 as it is for an absent flag, and [main] runs the training loop exactly
    as it does without the flag. *)
Theorem generate_zero_trains args (w : World) :
  args_generate args = Some 0%Z →
  main args w
  = main {| args_train := args_train args; args_eval := args_eval args;
            args_generate := None; args_tokenizer := args_tokenizer args;
            args_save_checkpoint := args_save_checkpoint args;
            args_load_checkpoint := args_load_checkpoint args;
            args_checkpoint_interval := args_checkpoint_interval args;
            args_epochs := args_epochs args |} w.
Proof.
  intros Hgen. destruct args as [tr ev g tkf sv ld iv ep]. simpl in Hgen. subst g.
  reflexivity.
Qed.

(** ** Computations that leave the world alone *)

Lemma pure_frame_ret {A} (a : A) : pure_frame (mret a).
Proof. by intros w r w' [= <- <-]. Qed.

Lemma pure_frame_raise {A} e : pure_frame (raise e : M A).
Proof. by intros w r w' [= <- <-]. Qed.

Lemma pure_frame_bind {A B'} (c : M A) (k : A → M B') :
  pure_frame c → (∀ a, pure_frame (k a)) → pure_frame (c ≫= k).
Proof.
  intros Hc Hk w r w' Hrun.
  apply bind_inv in Hrun as [(a & w1 & Hc1 & Hk1)|(e & Hc1 & ->)].
  - apply Hc in Hc1 as ->. by eapply Hk.
  - by eapply Hc.
Qed.

Lemma pure_frame_mapM {A B'} (f : A → M B') (l : list A) :
  (∀ a, pure_frame (f a)) → pure_frame (mapM f l).
Proof.
  intros Hf. induction l as [|a l IH]; simpl; [apply pure_frame_ret|].
  apply pure_frame_bind; [done|]. intros b.
  apply pure_frame_bind; [done|]. intros bs. apply pure_frame_ret.
Qed.

Lemma pure_frame_dropout_batch p x : pure_frame (dropout_batch p false x).
Proof. do 3 (apply pure_frame_mapM; intros ?). apply pure_frame_ret. Qed.

Lemma pure_frame_Head_attention h x : pure_frame (Head_attention h x).
Proof.
  unfold Head_attention, masked_fill_tril.
  apply pure_frame_bind; [|intros; apply pure_frame_ret].
  repeat case_decide; first [apply pure_frame_ret | apply pure_frame_raise].
Qed.

Lemma pure_frame_Head_forward h x : pure_frame (Head_forward h false x).
Proof.
  unfold Head_forward.
  apply pure_frame_bind; [apply pure_frame_Head_attention|]. intros.
  apply pure_frame_bind; [apply pure_frame_dropout_batch|]. intros.
  apply pure_frame_ret.
Qed.

Lemma pure_frame_MultiHeadAttention_forward a x :
  pure_frame (MultiHeadAttention_forward a false x).
Proof.
  unfold MultiHeadAttention_forward.
  apply pure_frame_bind; [apply pure_frame_mapM; intros; apply pure_frame_Head_forward|].
  intros outs. apply pure_frame_bind; [|intros; apply pure_frame_dropout_batch].
  destruct outs; [apply pure_frame_raise | apply pure_frame_ret].
Qed.

Lemma pure_frame_Block_forward b x : pure_frame (Block_forward b false x).
Proof.
  unfold Block_forward, FeedForward_forward.
  apply pure_frame_bind; [apply pure_frame_MultiHeadAttention_forward|]. intros.
  apply pure_frame_bind; [apply pure_frame_dropout_batch|]. intros.
  apply pure_frame_ret.
Qed.

Lemma pure_frame_Sequential_forward bs : ∀ x, pure_frame (Sequential_forward bs false x).
Proof.
  induction bs as [|b bs IH]; intros x; simpl; [apply pure_frame_ret|].
  apply pure_frame_bind; [apply pure_frame_Block_forward | done].
Qed.

Lemma pure_frame_Embedding_forward table i : pure_frame (Embedding_forward table i).
Proof.
  unfold Embedding_forward.
  destruct (table !! i); [apply pure_frame_ret | apply pure_frame_raise].
Qed.

Lemma pure_frame_cross_entropy logits targets : pure_frame (cross_entropy logits targets).
Proof.
  unfold cross_entropy. case_decide; [|apply pure_frame_raise].
  apply pure_frame_bind; [|intros; apply pure_frame_ret].
  apply pure_frame_mapM. intros [row t].
  destruct (softmax (Finite <$> row) !! t); [apply pure_frame_ret | apply pure_frame_raise].
Qed.

Lemma self_run (w : World) m : net w = Some m → self w = (Ok m, w).
Proof. intros Hnet. unfold self. by rewrite Hnet. Qed.

(** In evaluation mode a forward pass leaves the world, the generator
    included, as it is. *)
Lemma GPT_forward_eval idx targets (w : World) m r w' :
  net w = Some m → training m = false →
  GPT_forward idx targets w = (r, w') → w' = w.
Proof.
  intros Hnet Htr. unfold GPT_forward.
  rewrite (bind_Ok self _ w m w (self_run w m Hnet)), Htr.
  clear Hnet. revert w r w'.
  match goal with |- ∀ w r w', ?c w = (r, w') → w' = w => change (pure_frame c) end.
  apply pure_frame_bind.
  { do 2 (apply pure_frame_mapM; intros ?). apply pure_frame_Embedding_forward. }
  intros tok_emb. apply pure_frame_bind.
  { apply pure_frame_mapM; intros ?. apply pure_frame_Embedding_forward. }
  intros pos_emb. apply pure_frame_bind; [apply pure_frame_Sequential_forward|].
  intros x. destruct targets as [targets|]; [|apply pure_frame_ret].
  case_decide; [|apply pure_frame_raise].
  apply pure_frame_bind; [apply pure_frame_cross_entropy|]. intros. apply pure_frame_ret.
Qed.

(** X4. With the module in evaluation mode, [GPT.forward] draws nothing from
    torch's random generator and changes nothing else either: whatever it
    returns or raises, the program state after the call is the state before
    it, so two passes over the same input give the same result. *)
Theorem eval_forward_is_pure idx targets (w : World) m :
  net w = Some m → training m = false →
  (GPT_forward idx targets w).2 = w
  ∧ GPT_forward idx targets (GPT_forward idx targets w).2 = GPT_forward idx targets w.
Proof.
  intros Hnet Htr.
  assert ((GPT_forward idx targets w).2 = w) as Hw.
  { destruct (GPT_forward idx targets w) as [r w'] eqn:Hrun. simpl.
    by eapply GPT_forward_eval. }
  split; [done|]. by rewrite Hw.
Qed.

(** ** Index errors of the embedding tables *)

Lemma Embedding_forward_run (table : list (list R)) t e (w : World) :
  table !! t = Some e → Embedding_forward table t w = (Ok e, w).
Proof. intros He. unfold Embedding_forward. by rewrite He. Qed.

Lemma mapM_Embedding_Ok (table : list (list R)) (row : list nat) (w : World) :
  Forall (λ t, t < length table) row →
  ∃ embs, mapM (Embedding_forward table) row w = (Ok embs, w).
Proof.
  induction 1 as [|t row Ht _ [embs IH]]; simpl; [by eexists|].
  destruct (lookup_lt_is_Some_2 table t Ht) as [e He].
  exists (e :: embs).
  rewrite (bind_Ok _ _ w e w (Embedding_forward_run table t e w He)).
  by rewrite (bind_Ok _ _ w embs w IH).
Qed.

Lemma mapM_Embedding_Raise (table : list (list R)) (row : list nat) (w : World) :
  ¬ Forall (λ t, t < length table) row →
  mapM (Embedding_forward table) row w = (Raise IndexError, w).
Proof.
  induction row as [|t row IH]; intros Hrow; [by destruct Hrow|]. simpl.
  destruct (table !! t) as [e|] eqn:He.
  - rewrite (bind_Ok _ _ w e w (Embedding_forward_run table t e w He)).
    apply bind_Raise, IH. intros Hall. apply Hrow. constructor; [|done].
    by eapply lookup_lt_Some.
  - apply bind_Raise. unfold Embedding_forward. by rewrite He.
Qed.

Lemma mapM_mapM_Embedding_Ok (table : list (list R)) (idx : list (list nat)) (w : World) :
  Forall (Forall (λ t, t < length table)) idx →
  ∃ embs, mapM (mapM (Embedding_forward table)) idx w = (Ok embs, w).
Proof.
  induction 1 as [|row idx Hrow _ [embs IH]]; simpl; [by eexists|].
  destruct (mapM_Embedding_Ok table row w Hrow) as [e He].
  exists (e :: embs). rewrite (bind_Ok _ _ w e w He).
  by rewrite (bind_Ok _ _ w embs w IH).
Qed.

Lemma mapM_mapM_Embedding_Raise (table : list (list R)) (idx : list (list nat)) (w : World) :
  ¬ Forall (Forall (λ t, t < length table)) idx →
  mapM (mapM (Embedding_forward table)) idx w = (Raise IndexError, w).
Proof.
  induction idx as [|row idx IH]; intros Hidx; [by destruct Hidx|]. simpl.
  destruct (decide (Forall (λ t, t < length table) row)) as [Hrow|Hrow].
  - destruct (mapM_Embedding_Ok table row w Hrow) as [e He].
    rewrite (bind_Ok _ _ w e w He). apply bind_Raise, IH.
    intros Hall. apply Hidx. by constructor.
  - apply bind_Raise. by apply mapM_Embedding_Raise.
Qed.

(** X5. [GPT.forward] raises [IndexError] on a batch that holds a token
    outside the embedding table (a token id of at least the vocabulary
    size), before anything else is computed and without touching the
    program state. *)
Theorem forward_raises_on_unknown_token m idx targets (w : World) :
  net w = Some m →
  ¬ tokens_below (length (token_embedding_table (state_dict m))) idx →
  GPT_forward idx targets w = (Raise IndexError, w).
Proof.
  intros Hnet Hidx. unfold GPT_forward.
  rewrite (bind_Ok self _ w m w (self_run w m Hnet)).
  apply bind_Raise. by apply mapM_mapM_Embedding_Raise.
Qed.

(** X6. [GPT.forward] raises [IndexError] on a context longer than SEQ_LEN:
    the position embedding table has SEQ_LEN rows and is indexed by
    [arange(T)].  All tokens are valid here; the state is not touched. *)
Theorem forward_raises_on_long_context m idx targets (w : World) B T :
  net w = Some m →
  length (position_embedding_table (state_dict m)) = SEQ_LEN →
  tokens_below (length (token_embedding_table (state_dict m))) idx →
  shaped B T idx → 0 < B → SEQ_LEN < T →
  GPT_forward idx targets w = (Raise IndexError, w).
Proof.
  intros Hnet Hpos Hidx Hshape HB HT. unfold GPT_forward.
  rewrite (bind_Ok self _ w m w (self_run w m Hnet)).
  destruct (mapM_mapM_Embedding_Ok _ idx w Hidx) as [embs Hembs].
  rewrite (bind_Ok _ _ w embs w Hembs).
  apply bind_Raise. apply mapM_Embedding_Raise.
  rewrite (shaped_time_dim B T idx Hshape HB), Hpos.
  intros Hall. rewrite Forall_forall in Hall.
  specialize (Hall SEQ_LEN). rewrite elem_of_seq in Hall. lia.
Qed.

(** ** estimate_loss *)

Lemma quiet_frame_rng {A} (c : M A) : rng_frame c → quiet_frame c.
Proof. intros Hc w r w' Hrun. apply Hc in Hrun. by rewrite Hrun. Qed.

Lemma quiet_frame_emit ev : quiet_frame (emit ev).
Proof. by intros w r w' [= <- <-]. Qed.

Lemma rng_frame_estimate_split s : rng_frame (estimate_split s).
Proof.
  unfold estimate_split.
  apply rng_frame_bind; [|intros; apply rng_frame_ret].
  apply rng_frame_mapM. intros _.
  apply rng_frame_bind; [apply rng_frame_get_batch|]. intros [xb yb].
  apply rng_frame_bind; [apply rng_frame_GPT_forward|]. intros [logits loss].
  apply rng_frame_loss_of.
Qed.

Lemma set_training_run flag (w : World) m :
  net w = Some m →
  set_training flag w
  = (Ok tt, set_net (Some {| state_dict := state_dict m; training := flag |}) w).
Proof. intros Hnet. unfold set_training. by rewrite Hnet. Qed.

(** X7. [estimate_loss] never changes a parameter, the optimizer, the data
    or a file.  When it returns, the module is in training mode, whatever
    its mode was before the call; when an exception leaves it (a batch that
    cannot be drawn, a failing forward pass), the module stays in evaluation
    mode. *)
Theorem estimate_loss_mode m (w : World) :
  net w = Some m →
  let r := (estimate_loss w).1 in
  let w' := (estimate_loss w).2 in
  net w' = Some {| state_dict := state_dict m;
                   training := match r with Ok _ => true | Raise _ => false end |}
  ∧ optimizer w' = optimizer w ∧ DATA w' = DATA w ∧ fs w' = fs w.
Proof.
  intros Hnet r w'. subst r w'.
  destruct (estimate_loss w) as [r w'] eqn:Hrun. simpl.
  unfold estimate_loss, GPT_eval, GPT_train in Hrun.
  rewrite (bind_Ok _ _ w tt _ (set_training_run false w m Hnet)) in Hrun.
  set (w0 := set_net (Some {| state_dict := state_dict m; training := false |}) w) in *.
  assert (∀ (k : R * R → M (R * R)) r1 w1,
    (emit EvEstimateLoss ≫= λ _, estimate_split TRAIN ≫= λ lt,
       estimate_split EVAL ≫= λ le, k (lt, le)) w0 = (r1, w1) →
    (∃ e, r1 = Raise e ∧ net w1 = net w0 ∧ optimizer w1 = optimizer w0
          ∧ DATA w1 = DATA w0 ∧ fs w1 = fs w0)
    ∨ (∃ l w2, k l w2 = (r1, w1) ∧ net w2 = net w0 ∧ optimizer w2 = optimizer w0
          ∧ DATA w2 = DATA w0 ∧ fs w2 = fs w0)) as Hmid.
  { intros k r1 w1 Hk.
    apply bind_inv in Hk as [([] & wa & Ha & Hk)|(e & [=] & _)].
    apply quiet_frame_emit in Ha as (Hfa & Hna & Hoa & Hda & _).
    apply bind_inv in Hk as [(lt & wb & Hb & Hk)|(e & Hb & ->)].
    2:{ apply (quiet_frame_rng _ (rng_frame_estimate_split _)) in Hb
          as (Hfb & Hnb & Hob & Hdb & _).
        left. exists e. repeat split; congruence. }
    apply (quiet_frame_rng _ (rng_frame_estimate_split _)) in Hb
      as (Hfb & Hnb & Hob & Hdb & _).
    apply bind_inv in Hk as [(le & wc & Hc & Hk)|(e & Hc & ->)].
    2:{ apply (quiet_frame_rng _ (rng_frame_estimate_split _)) in Hc
          as (Hfc & Hnc & Hoc & Hdc & _).
        left. exists e. repeat split; congruence. }
    apply (quiet_frame_rng _ (rng_frame_estimate_split _)) in Hc
      as (Hfc & Hnc & Hoc & Hdc & _).
    right. exists (lt, le), wc. repeat split; congruence. }
  apply (Hmid (λ l, set_training true ≫= λ _, mret l)) in Hrun
    as [(e & -> & Hn & Ho & Hd & Hf)|(l & w2 & Hk & Hn & Ho & Hd & Hf)].
  - by rewrite Hn, Ho, Hd, Hf.
  - destruct l as [lt le].
    rewrite (bind_Ok _ _ w2 tt _
               (set_training_run true w2 {| state_dict := state_dict m; training := false |} Hn))
      in Hk.
    injection Hk as <- <-. simpl. by rewrite Ho, Hd, Hf.
Qed.

(** ** Runs without epochs *)

Lemma range_empty a b : (b ≤ a)%Z → range a b = [].
Proof. intros Hab. unfold range. by replace (Z.to_nat (b - a)) with 0 by lia. Qed.

(** X10. A run without epochs to train only sets up.  When the epoch the
    setup phase returns (0, or the epoch of the loaded checkpoint) is not
    below [--epochs] (the default is [--epochs 0]) and no text is to be
    generated, [main] returns right after the setup phase: it prints
    [starting training] and takes no optimizer step, estimates no loss and
    writes no checkpoint, not even the one of the final epoch. *)
Theorem main_without_epochs_trains_nothing args (w : World) tk epoch loss w1 :
  main_setup args w = (Ok (tk, epoch, loss), w1) →
  args_generate args = None ∨ args_generate args = Some 0%Z →
  (args_epochs args ≤ epoch)%Z →
  main args w = (Ok tt, set_log (log w1 ++ [EvPrintStartingTraining]) w1).
Proof.
  intros Hsetup Hgen HE. unfold main.
  rewrite (bind_Ok _ _ w _ w1 Hsetup).
  assert (training_loop args epoch w1
          = (Ok tt, set_log (log w1 ++ [EvPrintStartingTraining]) w1)) as Hloop.
  { unfold training_loop. by rewrite range_empty. }
  destruct Hgen as [-> | ->]; [done|]. by rewrite decide_True.
Qed.

(** ** generate *)

(** X11. Generating [n1 + n2] tokens is generating [n1] tokens and then
    [n2] more from the result: an iteration of [generate] reads nothing but
    the current context, the module and the generator. *)
Theorem generate_composes n1 n2 idx (w : World) :
  generate idx (n1 + n2) w = (generate idx n1 ≫= λ i, generate i n2) w.
Proof.
  revert idx w. induction n1 as [|n1 IH]; intros idx w; [reflexivity|]. simpl.
  unfold mbind, M_bind in *.
  destruct (generate_step idx w) as [[i|e] w1]; [apply IH | reflexivity].
Qed.

(** ** The caches of train.py *)

Lemma path_exists_run p (w : World) :
  path_exists p w = (Ok (bool_decide (is_Some (fs w !! p))), w).
Proof. reflexivity. Qed.

Lemma lookup_file_run p (w : World) : lookup_file p w = (Ok (fs w !! p), w).
Proof. reflexivity. Qed.

Lemma emit_run ev (w : World) : emit ev w = (Ok tt, set_log (log w ++ [ev]) w).
Proof. reflexivity. Qed.

Lemma read_text_run p text (w : World) :
  fs w !! p = Some (FText text) → read_text (Some p) w = (Ok text, w).
Proof.
  intros Hp. unfold read_text.
  by rewrite (bind_Ok _ _ w _ w (lookup_file_run _ w)), Hp.
Qed.

(** A cache file is loaded as it is, whatever the text and the tokenizer. *)
Lemma preprocess_split_hit s path tk d (w : World) :
  fs w !! (fmt path +:+ "_tokenized") = Some (FTensor d) →
  preprocess_split s path tk w
  = (Ok tt, set_log (log w ++ [EvDataLoaded s])
              (set_DATA (λ s', if decide (s' = s) then d else DATA w s') w)).
Proof.
  intros Hf. unfold preprocess_split.
  rewrite (bind_Ok _ _ w _ w (path_exists_run _ w)), Hf.
  rewrite bool_decide_eq_true_2 by eauto.
  rewrite (bind_Ok _ _ w _ w (lookup_file_run _ w)), Hf.
  reflexivity.
Qed.

(** X12. The tokenized data is cached under the name of the text file:
    when [<path>_tokenized] does not exist, [preprocess_data] encodes the
    text, keeps the ids in [DATA] and writes them to that file; from then
    on every call loads the file and returns the same ids, whatever the
    tokenizer it is given and whatever the text file holds by then. *)
Theorem preprocess_cache_round_trip s p text tk (w : World) :
  fs w !! (p +:+ "_tokenized") = None →
  fs w !! p = Some (FText text) →
  ∃ w1, preprocess_split s (Some p) tk w = (Ok tt, w1)
    ∧ DATA w1 s = encode_ids tk text
    ∧ fs w1 = <[p +:+ "_tokenized" := FTensor (encode_ids tk text)]> (fs w)
    ∧ ∀ tk' (w2 : World),
        fs w2 !! (p +:+ "_tokenized") = fs w1 !! (p +:+ "_tokenized") →
        ∃ w3, preprocess_split s (Some p) tk' w2 = (Ok tt, w3)
          ∧ DATA w3 s = encode_ids tk text ∧ fs w3 = fs w2.
Proof.
  intros Hout Hp. eexists. split; [|split; [|split]].
  - unfold preprocess_split, fmt. simpl default.
    rewrite (bind_Ok _ _ w _ w (path_exists_run _ w)), Hout.
    rewrite bool_decide_eq_false_2 by (by intros [? ?]).
    rewrite (bind_Ok _ _ w _ _ (emit_run _ w)).
    rewrite (bind_Ok _ _ _ text _
               (read_text_run p text (set_log (log w ++ [EvPrintTokenizing s]) w) Hp)).
    reflexivity.
  - simpl. by rewrite decide_True.
  - reflexivity.
  - intros tk' w2 Hw2. simpl in Hw2. rewrite lookup_insert_eq in Hw2.
    rewrite (preprocess_split_hit s (Some p) tk' _ w2 Hw2).
    eexists. split; [reflexivity|]. simpl. by rewrite decide_True.
Qed.

Lemma get_tokenizer_load train eval file t0 (w : World) :
  fs w !! file = Some (FTokenizer t0) →
  get_tokenizer train eval file w
  = (Ok (set_post_processor t0),
     set_log (log w ++ [EvPrintLoadingTokenizer file; EvTokenizerLoaded]) w).
Proof.
  intros Hf. unfold get_tokenizer.
  rewrite (bind_Ok _ _ w _ w (path_exists_run _ w)), Hf.
  rewrite bool_decide_eq_true_2 by eauto.
  unfold mbind at 1, M_bind at 1.
  rewrite (bind_Ok _ _ w _ _ (emit_run _ w)).
  rewrite (bind_Ok _ _ _ _ _
             (lookup_file_run file (set_log (log w ++ [EvPrintLoadingTokenizer file]) w))).
  simpl. rewrite Hf. simpl. by rewrite <- app_assoc.
Qed.

(** A call of [get_tokenizer] that returns leaves the tokenizer it returns,
    without the post-processor, in the tokenizer file. *)
Lemma get_tokenizer_saved train eval file (w : World) t w1 :
  get_tokenizer train eval file w = (Ok t, w1) →
  ∃ t0, fs w1 !! file = Some (FTokenizer t0) ∧ t = set_post_processor t0.
Proof.
  unfold get_tokenizer. intros Hrun.
  rewrite (bind_Ok _ _ w _ w (path_exists_run _ w)) in Hrun.
  apply bind_inv in Hrun as [(t0 & w2 & Hrun & [= <- <-])|(e & _ & [=])].
  exists t0. split; [|done]. case_bool_decide as Hex.
  - apply bind_inv in Hrun as [([] & wa & [= <-] & Hrun)|(e & _ & [=])].
    apply bind_inv in Hrun as [(f & wb & [= <- <-] & Hrun)|(e & _ & [=])].
    simpl in Hrun. destruct (fs w !! file) as [[?|t1|?|?]|] eqn:Hf; try discriminate.
    injection Hrun as <- <-. exact Hf.
  - apply bind_inv in Hrun as [(t1 & wa & Ha & Hrun)|(e & _ & [=])].
    apply bind_inv in Hrun as [(t2 & wb & Hb & Hrun)|(e & _ & [=])].
    injection Hrun as <- <-. simpl. by rewrite lookup_insert_eq.
Qed.

(** X13. The tokenizer file is a cache: after a call of [get_tokenizer]
    that returned, every later call with the same tokenizer file returns the
    same tokenizer, loaded from the file, whatever training and evaluation
    texts it is given (they are not read), and writes no file. *)
Theorem get_tokenizer_round_trip train eval file (w : World) t w1 :
  get_tokenizer train eval file w = (Ok t, w1) →
  ∀ train' eval' (w2 : World), fs w2 !! file = fs w1 !! file →
    ∃ w3, get_tokenizer train' eval' file w2 = (Ok t, w3) ∧ fs w3 = fs w2.
Proof.
  intros Hrun train' eval' w2 Hw2.
  apply get_tokenizer_saved in Hrun as (t0 & Hf & ->). rewrite Hf in Hw2.
  rewrite (get_tokenizer_load train' eval' file t0 w2 Hw2). by eexists.
Qed.

(** ** load_checkpoint *)

Lemma the_optimizer_run (w : World) o : optimizer w = Some o → the_optimizer w = (Ok o, w).
Proof. intros Ho. unfold the_optimizer. by rewrite Ho. Qed.

(** X14. [load_checkpoint] is not atomic.  The model is loaded before the
    optimizer: for a checkpoint whose parameters fit the model but whose
    optimizer state has other parameter groups than the optimizer, the call
    raises [ValueError] after the parameters of the model have been replaced
    by those of the checkpoint; the optimizer keeps its state. *)
Theorem load_checkpoint_is_not_atomic p c m o (w : World) :
  net w = Some m → optimizer w = Some o →
  fs w !! p = Some (FCheckpoint c) →
  StateDict_shape (ck_model_state_dict c) = StateDict_shape (state_dict m) →
  param_groups (ck_optimizer_state_dict c) ≠ param_groups o →
  ∃ w', load_checkpoint p w = (Raise ValueError, w')
    ∧ net w' = Some {| state_dict := ck_model_state_dict c; training := training m |}
    ∧ optimizer w' = Some o.
Proof.
  intros Hnet Hopt Hf Hshape Hgroups. eexists. split.
  - unfold load_checkpoint.
    rewrite (bind_Ok _ _ w _ w (lookup_file_run _ w)), Hf.
    rewrite (bind_Ok _ _ w _ _ (emit_run _ w)).
    unfold load_state_dict.
    rewrite (bind_Ok (self ≫= _) _ _ tt
               (set_net (Some {| state_dict := ck_model_state_dict c;
                                 training := training m |})
                  (set_log (log w ++ [EvCheckpointRead p]) w))).
    2:{ rewrite (bind_Ok self _ _ m _
                   (self_run (set_log (log w ++ [EvCheckpointRead p]) w) m Hnet)).
        by rewrite decide_True. }
    apply bind_Raise. unfold optim_load_state_dict.
    rewrite (bind_Ok _ _ _ o _
               (the_optimizer_run
                  (set_net (Some {| state_dict := ck_model_state_dict c;
                                    training := training m |})
                     (set_log (log w ++ [EvCheckpointRead p]) w)) o Hopt)).
    by rewrite decide_False.
  - done.
Qed.

(** ** What generate returns *)

(** X15. The tensor [generate] returns holds valid token ids only, and each
    of its rows starts with the row of the context it was given: it can be
    decoded, and it can be given to [generate] again. *)
Theorem generate_stays_in_vocabulary V m idx ctx (w : World) B T N :
  net w = Some m → GPT_wf V (state_dict m) → 0 < SEQ_LEN → 0 < V →
  heap w !! idx = Some ctx → shaped B T ctx → 0 < T → tokens_below V ctx →
  ∃ out w' ctx',
    generate idx N w = (Ok out, w')
    ∧ heap w' !! out = Some ctx'
    ∧ net w' = Some m
    ∧ shaped B (T + N) ctx' ∧ 0 < T + N
    ∧ tokens_below V ctx'
    ∧ Forall2 (λ r r', r `prefix_of` r') ctx ctx'.
Proof.
  intros Hnet Hwf HS HV Hidx Hshape HT Hbelow.
  destruct (generate_spec V m N idx ctx w B T Hnet Hwf HS HV Hidx Hshape HT Hbelow)
    as (out & w' & ctx' & Hrun & Hout & Hshape' & Hbelow' & Hext).
  exists out, w', ctx'. split; [done|]. split; [done|]. split.
  { apply heap_frame_generate in Hrun as (_ & -> & _). done. }
  split; [done|]. split; [lia|]. split; [done|].
  eapply Forall2_impl; [exact Hext|]. intros r r' (new & -> & _). by apply prefix_app_r.
Qed.
(** ** The random draws of estimate_loss *)

Lemma get_batch_Ok s (w : World) b w' :
  get_batch s w = (Ok b, w') →
  w' = set_generator (advance BATCH_SIZE (generator w)) w.
Proof.
  intros Hrun.
  destruct (decide (SEQ_LEN < length (DATA w s))) as [Hlen|Hlen].
  - destruct (decide (0 < BATCH_SIZE)) as [HB|HB].
    + pose proof (get_batch_run s w Hlen HB) as Heq. simpl in Heq.
      rewrite Heq in Hrun. by injection Hrun as _ <-.
    + exfalso. unfold get_batch, randint in Hrun.
      rewrite (bind_Ok (gets (λ w, DATA w s)) _ w (DATA w s) w eq_refl) in Hrun.
      rewrite decide_False in Hrun by lia.
      replace BATCH_SIZE with 0 in Hrun by lia. simpl in Hrun. discriminate.
  - exfalso. unfold get_batch, randint in Hrun.
    rewrite (bind_Ok (gets (λ w, DATA w s)) _ w (DATA w s) w eq_refl) in Hrun.
    rewrite decide_True in Hrun by lia. discriminate.
Qed.

Lemma advance_advance a b g : advance b (advance a g) = advance (a + b) g.
Proof. unfold advance. simpl. f_equal. lia. Qed.

(** A loop whose body advances the generator by [n] draws and touches
    nothing else advances it by [n] draws per iteration. *)
Lemma mapM_advance {A B'} (f : A → M B') m n (l : list A) :
  (∀ a (w : World) r w', net w = Some m → f a w = (Ok r, w') →
     w' = set_generator (advance n (generator w)) w) →
  ∀ (w : World) rs w', net w = Some m → mapM f l w = (Ok rs, w') →
    w' = set_generator (advance (length l * n) (generator w)) w.
Proof.
  intros Hf. induction l as [|a l IH]; intros w rs w' Hnet Hrun; simpl in *.
  - injection Hrun as _ <-. destruct w as [? [] ? ? ? ? ?]. unfold advance, set_generator.
    simpl. do 2 f_equal. lia.
  - apply bind_inv in Hrun as [(r & w1 & H1 & Hrun)|(e & _ & [=])].
    apply bind_inv in Hrun as [(rs' & w2 & H2 & Hrun)|(e & _ & [=])].
    injection Hrun as _ <-.
    apply Hf in H1 as ->; [|done]. apply IH in H2 as ->; [|done].
    simpl. rewrite advance_advance. reflexivity.
Qed.

Lemma estimate_split_eval s m (w : World) r w' :
  net w = Some m → training m = false →
  estimate_split s w = (Ok r, w') →
  w' = set_generator (advance (EVAL_ITERS * BATCH_SIZE) (generator w)) w.
Proof.
  intros Hnet Htr Hrun. unfold estimate_split in Hrun.
  apply bind_inv in Hrun as [(ls & w1 & Hrun & [= _ <-])|(e & _ & [=])].
  eapply (mapM_advance _ m BATCH_SIZE) in Hrun; [by rewrite length_seq in Hrun| |done].
  intros _ wa ra wb Hneta Hruna.
  apply bind_inv in Hruna as [([xb yb] & wc & H1 & Hruna)|(e & _ & [=])].
  apply get_batch_Ok in H1 as ->.
  apply bind_inv in Hruna as [([logits loss] & wd & H2 & Hruna)|(e & _ & [=])].
  apply (GPT_forward_eval _ _ _ m) in H2 as ->; [|done|done].
  destruct loss; simpl in Hruna; [|discriminate]. by injection Hruna as _ <-.
Qed.

(** X16. A call of [estimate_loss] that returns has drawn from torch's
    random generator for the batches only: [BATCH_SIZE] offsets for each of
    the [EVAL_ITERS] batches of the two splits.  The forward passes run in
    evaluation mode and draw no dropout mask. *)
Theorem estimate_loss_draws_batches_only m (w : World) l w' :
  net w = Some m → estimate_loss w = (Ok l, w') →
  generator w' = advance (2 * EVAL_ITERS * BATCH_SIZE) (generator w)
  ∧ log w' = log w ++ [EvEstimateLoss].
Proof.
  intros Hnet Hrun. unfold estimate_loss, GPT_eval, GPT_train in Hrun.
  rewrite (bind_Ok _ _ w tt _ (set_training_run false w m Hnet)) in Hrun.
  apply bind_inv in Hrun as [([] & w1 & [= <-] & Hrun)|(e & _ & [=])].
  apply bind_inv in Hrun as [(lt & w2 & H2 & Hrun)|(e & _ & [=])].
  apply (estimate_split_eval _ {| state_dict := state_dict m; training := false |})
    in H2 as ->; [|done|done].
  apply bind_inv in Hrun as [(le & w3 & H3 & Hrun)|(e & _ & [=])].
  apply (estimate_split_eval _ {| state_dict := state_dict m; training := false |})
    in H3 as ->; [|done|done].
  apply bind_inv in Hrun as [([] & w4 & H4 & [= _ <-])|(e & _ & [=])].
  unfold set_training in H4. simpl in H4. injection H4 as <-. simpl.
  split; [|done]. rewrite advance_advance. f_equal. lia.
Qed.

(** ** The schedule of the training loop *)

Lemma rng_frame_log {A} (c : M A) (w : World) r w' :
  rng_frame c → c w = (r, w') → log w' = log w.
Proof. intros Hc Hrun. apply Hc in Hrun. by rewrite Hrun. Qed.

Lemma set_training_log flag (w : World) r w' :
  set_training flag w = (r, w') → log w' = log w.
Proof. unfold set_training. by destruct (net w); intros [= <- <-]. Qed.

Lemma estimate_loss_log (w : World) r w' :
  estimate_loss w = (r, w') →
  ∃ evs, log w' = log w ++ evs ∧ omap milestone evs = [].
Proof.
  unfold estimate_loss, GPT_eval, GPT_train. intros Hrun.
  apply bind_inv in Hrun as [([] & w1 & H1 & Hrun)|(e & H1 & ->)].
  2:{ apply set_training_log in H1. exists []. by rewrite app_nil_r. }
  apply set_training_log in H1.
  exists [EvEstimateLoss]. split; [|done]. rewrite <- H1. clear H1.
  apply bind_inv in Hrun as [([] & w2 & [= <-] & Hrun)|(e & [=] & _)].
  apply bind_inv in Hrun as [(lt & w3 & H3 & Hrun)|(e & H3 & ->)];
    apply (rng_frame_log _ _ _ _ (rng_frame_estimate_split _)) in H3;
    simpl in H3; [|done].
  apply bind_inv in Hrun as [(le & w4 & H4 & Hrun)|(e & H4 & ->)];
    apply (rng_frame_log _ _ _ _ (rng_frame_estimate_split _)) in H4; [|congruence].
  apply bind_inv in Hrun as [([] & w5 & H5 & [= _ <-])|(e & H5 & ->)];
    apply set_training_log in H5; congruence.
Qed.

Lemma optimization_step_log i (w : World) r w' :
  optimization_step i w = (r, w') →
  log w' = log w ++ match r with Ok _ => [EvOptimizerStep i] | Raise _ => [] end.
Proof.
  unfold optimization_step. intros Hrun.
  apply bind_inv in Hrun as [([xb yb] & w1 & H1 & Hrun)|(e & H1 & ->)];
    apply (rng_frame_log _ _ _ _ (rng_frame_get_batch _)) in H1;
    [|by rewrite app_nil_r].
  apply bind_inv in Hrun as [(g & w2 & [= _ <-] & Hrun)|(e & [=] & _)].
  apply bind_inv in Hrun as [([logits loss] & w3 & H3 & Hrun)|(e & H3 & ->)];
    apply (rng_frame_log _ _ _ _ (rng_frame_GPT_forward _ _)) in H3;
    [|rewrite app_nil_r; congruence].
  apply bind_inv in Hrun as [(l & w4 & H4 & Hrun)|(e & H4 & ->)];
    apply (rng_frame_log _ _ _ _ (rng_frame_loss_of _)) in H4;
    [|rewrite app_nil_r; congruence].
  apply bind_inv in Hrun as [(m & w5 & H5 & Hrun)|(e & H5 & ->)];
    apply (rng_frame_log _ _ _ _ rng_frame_self) in H5;
    [|rewrite app_nil_r; congruence].
  apply bind_inv in Hrun as [(o & w6 & H6 & Hrun)|(e & H6 & ->)];
    apply (rng_frame_log _ _ _ _ rng_frame_the_optimizer) in H6;
    [|rewrite app_nil_r; congruence].
  destruct (AdamW_step o (state_dict m) (backward m xb yb g)) as [sd o'].
  injection Hrun as <- <-. simpl. congruence.
Qed.

Lemma save_checkpoint_milestones path i loss (w : World) r w' :
  save_checkpoint path i loss w = (r, w') →
  ∃ evs, log w' = log w ++ evs
    ∧ omap milestone evs = match r with Ok _ => [Saved i] | Raise _ => [] end.
Proof.
  unfold save_checkpoint, emit, modify, self, the_optimizer, write_file, mbind, M_bind.
  simpl. destruct (net w) as [m|]; simpl.
  2:{ intros [= <- <-]. by exists [EvPrintCheckpointing i]. }
  destruct (optimizer w) as [o|]; simpl.
  2:{ intros [= <- <-]. by exists [EvPrintCheckpointing i]. }
  destruct path as [p|]; simpl.
  2:{ intros [= <- <-]. by exists [EvPrintCheckpointing i]. }
  intros [= <- <-]. exists [EvPrintCheckpointing i; EvCheckpointWritten p i]. simpl.
  by rewrite <- app_assoc.
Qed.

Lemma periodic_estimate_milestones epoch i (w : World) r w' :
  (if decide (i ≠ epoch ∧ (i mod EVAL_INTERVAL)%Z = 0%Z)
   then estimate_loss ≫= λ '(lt, le), emit (EvPrintStep i lt le)
   else mret ()) w = (r, w') →
  ∃ evs, log w' = log w ++ evs
    ∧ omap milestone evs
      = match r with
        | Ok _ => if decide (i ≠ epoch ∧ (i mod EVAL_INTERVAL)%Z = 0%Z)
                  then [Estimated i] else []
        | Raise _ => []
        end.
Proof.
  case_decide.
  - intros Hrun. apply bind_inv in Hrun as [([lt le] & w1 & H1 & Hrun)|(e & H1 & ->)].
    + apply estimate_loss_log in H1 as (evs & Hlog & Hevs).
      injection Hrun as <- <-. exists (evs ++ [EvPrintStep i lt le]). simpl.
      rewrite Hlog, app_assoc. split; [done|]. by rewrite omap_app, Hevs.
    + by apply estimate_loss_log in H1.
  - intros [= <- <-]. exists []. by rewrite app_nil_r.
Qed.

(** The milestones of one epoch are those of its schedule, and all of them
    when the epoch returns. *)
Lemma train_epoch_schedule args epoch i (w : World) r w' :
  train_epoch args epoch i w = (r, w') →
  ∃ evs, log w' = log w ++ evs
    ∧ omap milestone evs `prefix_of` epoch_schedule args epoch i
    ∧ (r = Ok tt → omap milestone evs = epoch_schedule args epoch i).
Proof.
  unfold train_epoch, epoch_schedule. intros Hrun.
  apply bind_inv in Hrun as [(? & w1 & H1 & Hrun)|(e & H1 & ->)];
    apply periodic_estimate_milestones in H1 as (evs1 & Hlog1 & Hevs1).
  2:{ exists evs1. rewrite Hevs1. split; [done|]. split; [apply prefix_nil | done]. }
  apply bind_inv in Hrun as [(loss & w2 & H2 & Hrun)|(e & H2 & ->)];
    apply optimization_step_log in H2.
  2:{ exists evs1. rewrite H2, app_nil_r, Hevs1. split; [done|].
      split; [by apply prefix_app_r | done]. }
  apply bind_inv in Hrun as [(due & w3 & H3 & Hrun)|(e & H3 & ->)].
  2:{ apply interval_test_run in H3 as [-> _].
      exists (evs1 ++ [EvOptimizerStep i]). rewrite H2, Hlog1, app_assoc. split; [done|].
      rewrite omap_app, Hevs1. simpl.
      split; [|done]. apply prefix_app, prefix_cons, prefix_nil. }
  apply interval_test_run in H3 as [-> Hdue]. rewrite (Hdue due eq_refl) in Hrun.
  destruct (decide (checkpoint_due args epoch i)) as [Hd|Hd].
  - rewrite bool_decide_eq_true_2 in Hrun by done.
    apply save_checkpoint_milestones in Hrun as (evs3 & Hlog3 & Hevs3).
    exists ((evs1 ++ [EvOptimizerStep i]) ++ evs3).
    rewrite Hlog3, H2, Hlog1, !app_assoc. split; [done|].
    rewrite !omap_app, Hevs1, Hevs3. simpl. destruct r as [[]|e].
    + done.
    + rewrite app_nil_r. split; [|done]. by apply prefix_app_r.
  - rewrite bool_decide_eq_false_2 in Hrun by done. injection Hrun as <- <-.
    exists (evs1 ++ [EvOptimizerStep i]). rewrite H2, Hlog1, app_assoc. split; [done|].
    by rewrite omap_app, Hevs1.
Qed.

Lemma for_each_schedule args epoch (l : list Z) : ∀ (w : World) r w',
  for_each l (train_epoch args epoch) w = (r, w') →
  ∃ evs, log w' = log w ++ evs
    ∧ omap milestone evs `prefix_of` flat_map (epoch_schedule args epoch) l
    ∧ (r = Ok tt → omap milestone evs = flat_map (epoch_schedule args epoch) l).
Proof.
  induction l as [|i l IH]; intros w r w' Hrun; simpl in Hrun.
  - injection Hrun as <- <-. exists []. by rewrite app_nil_r.
  - apply bind_inv in Hrun as [([] & w1 & H1 & Hrun)|(e & H1 & ->)].
    + apply train_epoch_schedule in H1 as (evs1 & Hlog1 & _ & Hs1).
      apply IH in Hrun as (evs2 & Hlog2 & Hpre & Hall).
      exists (evs1 ++ evs2). rewrite Hlog2, Hlog1, app_assoc. split; [done|].
      rewrite omap_app, (Hs1 eq_refl). simpl. split; [by apply prefix_app|].
      intros Hr. by rewrite Hall.
    + apply train_epoch_schedule in H1 as (evs1 & Hlog1 & Hpre & _).
      exists evs1. split; [done|]. simpl. split; [by apply prefix_app_r | done].
Qed.

Lemma range_cons a b : (a < b)%Z → range a b = a :: range (a + 1) b.
Proof.
  intros Hab. unfold range.
  replace (Z.to_nat (b - a)) with (S (Z.to_nat (b - (a + 1)))) by lia. simpl.
  f_equal; [lia|]. rewrite <- fmap_S_seq, !map_fmap, <- list_fmap_compose.
  apply list_fmap_ext. intros _ k _. simpl. lia.
Qed.

Lemma elem_of_epoch_schedule args e i x :
  x ∈ epoch_schedule args e i → x = Estimated i ∨ x = Stepped i ∨ x = Saved i.
Proof.
  unfold epoch_schedule. rewrite !elem_of_app. intros [Hx|[Hx|Hx]].
  - case_decide; [|by apply elem_of_nil in Hx]. apply list_elem_of_singleton in Hx. auto.
  - apply list_elem_of_singleton in Hx. auto.
  - case_decide; [|by apply elem_of_nil in Hx]. apply list_elem_of_singleton in Hx. auto.
Qed.

Lemma elem_of_schedule args e l x :
  x ∈ flat_map (epoch_schedule args e) l → ∃ i, i ∈ l ∧ x ∈ epoch_schedule args e i.
Proof.
  induction l as [|i l IH]; simpl; [by intros ?%elem_of_nil|].
  rewrite elem_of_app. intros [Hx|Hx].
  - exists i. split; [by left | done].
  - destruct (IH Hx) as (j & Hj & Hxj). exists j. split; [by right | done].
Qed.

(** X17. The schedule of the training loop.  In every run of the loop from
    starting epoch [e0], the loss estimates printed, the optimizer steps and
    the checkpoints written are, in this order, a prefix of the schedule:
    for each epoch [i] of [range(e0, epochs)] an estimate when [i != e0] and
    [i % EVAL_INTERVAL == 0], then the optimizer step, then a checkpoint
    when one is due; and the whole schedule when the loop completes.  So a
    run resumed from the checkpoint of epoch [e0] takes the optimizer step
    of epoch [e0] again, and neither estimates nor checkpoints at it unless
    it is the final epoch. *)
Theorem training_schedule args e0 (w : World) :
  let r := (training_loop args e0 w).1 in
  let w' := (training_loop args e0 w).2 in
  let schedule := flat_map (epoch_schedule args e0) (range e0 (args_epochs args)) in
  ∃ evs, log w' = log w ++ evs
    ∧ omap milestone evs `prefix_of` schedule
    ∧ (r = Ok tt →
       omap milestone evs = schedule
       ∧ ((e0 < args_epochs args)%Z →
          ∃ rest, schedule = Stepped e0 :: rest
                  ∧ (Estimated e0 ∉ rest)
                  ∧ (Saved e0 ∈ rest ↔ e0 = (args_epochs args - 1)%Z))).
Proof.
  intros r w' schedule. subst r w'.
  destruct (training_loop args e0 w) as [r w'] eqn:Hrun. simpl.
  unfold training_loop in Hrun.
  apply bind_inv in Hrun as [([] & w1 & [= <-] & Hrun)|(e & [=] & _)].
  apply for_each_schedule in Hrun as (evs & Hlog & Hpre & Hall). simpl in Hlog.
  exists (EvPrintStartingTraining :: evs).
  split; [by rewrite Hlog, <- app_assoc|]. split; [done|].
  intros Hr. split; [by apply Hall|]. intros HE.
  unfold schedule. rewrite (range_cons _ _ HE). simpl.
  assert (∀ x, x ∈ flat_map (epoch_schedule args e0) (range (e0 + 1) (args_epochs args)) →
               x ≠ Estimated e0 ∧ x ≠ Saved e0) as Hlater.
  { intros x (i & Hi & Hx)%elem_of_schedule. apply elem_of_range in Hi.
    apply elem_of_epoch_schedule in Hx as [-> | [-> | ->]]; split; intros [=]; lia. }
  eexists. split.
  { unfold epoch_schedule at 1. rewrite decide_False by (by intros [? _]). reflexivity. }
  split.
  - rewrite elem_of_app. intros [Hx|Hx].
    + case_decide; [by apply list_elem_of_singleton in Hx | by apply elem_of_nil in Hx].
    + by apply Hlater in Hx as [? _].
  - rewrite elem_of_app. split.
    + intros [Hx|Hx].
      * case_decide as Hd; [|by apply elem_of_nil in Hx].
        by destruct Hd as [[? _]|?].
      * by apply Hlater in Hx as [_ ?].
    + intros He. left. rewrite decide_True by (by right). by left.
Qed.

(** ** The parameters of a new model *)

Lemma mapM_Ok_Forall2 {A B'} (f : A → M B') (P : A → B' → Prop) (l : list A) :
  (∀ a (w : World) b w', f a w = (Ok b, w') → P a b) →
  ∀ (w : World) bs w', mapM f l w = (Ok bs, w') → Forall2 P l bs.
Proof.
  intros Hf. induction l as [|a l IH]; intros w bs w' Hrun; simpl in Hrun.
  - injection Hrun as <- _. constructor.
  - apply bind_inv in Hrun as [(b & w1 & H1 & Hrun)|(e & _ & [=])].
    apply bind_inv in Hrun as [(bs' & w2 & H2 & Hrun)|(e & _ & [=])].
    injection Hrun as <- _. constructor; eauto.
Qed.

Lemma Linear_init_bias inf outf with_bias (w : World) l w' :
  Linear_init inf outf with_bias w = (Ok l, w') →
  if with_bias then ∃ b, bias l = Some b ∧ length b = outf else bias l = None.
Proof.
  unfold Linear_init. intros Hrun.
  apply bind_inv in Hrun as [(m & w1 & _ & Hrun)|(e & _ & [=])].
  apply bind_inv in Hrun as [(b & w2 & Hb & [= <- _])|(e & _ & [=])].
  destruct with_bias; simpl.
  - apply bind_inv in Hb as [(v & w3 & Hv & [= <- _])|(e & _ & [=])].
    exists v. split; [done|].
    apply (mapM_Ok_Forall2 _ (λ _ _, True)) in Hv; [|done].
    apply Forall2_length in Hv. by rewrite length_seq in Hv.
  - by injection Hb as <- _.
Qed.

Lemma init_weights_Linear_bias l (w : World) l' w' :
  init_weights_Linear l w = (Ok l', w') →
  bias l' = (λ b : list R, zeros (length b)) <$> bias l.
Proof.
  unfold init_weights_Linear. intros Hrun.
  apply bind_inv in Hrun as [(m & w1 & _ & [= <- _])|(e & _ & [=])]. done.
Qed.

Lemma Head_init_bias n (w : World) h w' :
  Head_init n w = (Ok h, w') →
  bias (key h) = None ∧ bias (query h) = None ∧ bias (value h) = None.
Proof.
  unfold Head_init. intros Hrun.
  apply bind_inv in Hrun as [(k & w1 & Hk & Hrun)|(e & _ & [=])].
  apply bind_inv in Hrun as [(q & w2 & Hq & Hrun)|(e & _ & [=])].
  apply bind_inv in Hrun as [(v & w3 & Hv & [= <- _])|(e & _ & [=])].
  apply Linear_init_bias in Hk, Hq, Hv. done.
Qed.

Lemma init_weights_Head_bias h (w : World) h' w' :
  init_weights_Head h w = (Ok h', w') →
  bias (key h) = None ∧ bias (query h) = None ∧ bias (value h) = None →
  bias (key h') = None ∧ bias (query h') = None ∧ bias (value h') = None.
Proof.
  unfold init_weights_Head. intros Hrun (Hk0 & Hq0 & Hv0).
  apply bind_inv in Hrun as [(k & w1 & Hk & Hrun)|(e & _ & [=])].
  apply bind_inv in Hrun as [(q & w2 & Hq & Hrun)|(e & _ & [=])].
  apply bind_inv in Hrun as [(v & w3 & Hv & [= <- _])|(e & _ & [=])].
  apply init_weights_Linear_bias in Hk, Hq, Hv. simpl.
  by rewrite Hk, Hq, Hv, Hk0, Hq0, Hv0.
Qed.

Lemma Block_init_drawn e n (w : World) b w' :
  Block_init e n w = (Ok b, w') → Block_drawn e b.
Proof.
  unfold Block_init. intros Hrun.
  apply bind_inv in Hrun as [(hs & w0 & _ & Hrun)|(e' & _ & [=])].
  apply bind_inv in Hrun as [(a & w1 & Ha & Hrun)|(e' & _ & [=])].
  apply bind_inv in Hrun as [(f & w2 & Hf & [= <- _])|(e' & _ & [=])].
  unfold MultiHeadAttention_init in Ha.
  apply bind_inv in Ha as [(hds & w3 & Hhds & Ha)|(e' & _ & [=])].
  apply bind_inv in Ha as [(p & w4 & Hp & [= <-])|(e' & _ & [=])].
  unfold FeedForward_init in Hf.
  apply bind_inv in Hf as [(l0 & w5 & Hn0 & Hf)|(e' & _ & [=])].
  apply bind_inv in Hf as [(l2 & w6 & Hn2 & [= <- _])|(e' & _ & [=])].
  apply Linear_init_bias in Hp, Hn0, Hn2.
  apply (mapM_Ok_Forall2 _ (λ _ h, bias (key h) = None ∧ bias (query h) = None
                                     ∧ bias (value h) = None)) in Hhds.
  2:{ intros _ ? ? ?. apply Head_init_bias. }
  apply Forall2_const_r in Hhds. by repeat split.
Qed.

Lemma init_weights_Block_fresh b (w : World) b' w' :
  init_weights_Block b w = (Ok b', w') → Block_drawn EMBED_SIZE b → Block_fresh b'.
Proof.
  unfold init_weights_Block.
  intros Hrun (Hheads & (vp & Hp0 & Hvp) & (v0 & Hb0 & Hv0) & (v2 & Hb2 & Hv2) & Hl1 & Hl2).
  apply bind_inv in Hrun as [(hs & w1 & Hhs & Hrun)|(e & _ & [=])].
  apply bind_inv in Hrun as [(p & w2 & Hp & Hrun)|(e & _ & [=])].
  apply bind_inv in Hrun as [(l0 & w3 & Hn0 & Hrun)|(e & _ & [=])].
  apply bind_inv in Hrun as [(l2 & w4 & Hn2 & [= <- _])|(e & _ & [=])].
  apply init_weights_Linear_bias in Hp, Hn0, Hn2.
  rewrite Hp0 in Hp. rewrite Hb0 in Hn0. rewrite Hb2 in Hn2. simpl in Hp, Hn0, Hn2.
  rewrite Hvp in Hp. rewrite Hv0 in Hn0. rewrite Hv2 in Hn2.
  apply (mapM_Ok_Forall2 _ (λ h h',
           bias (key h) = None ∧ bias (query h) = None ∧ bias (value h) = None →
           bias (key h') = None ∧ bias (query h') = None ∧ bias (value h') = None))
    in Hhs.
  2:{ intros ? ? ? ?. apply init_weights_Head_bias. }
  unfold Block_fresh. simpl. split; [|done].
  clear -Hhs Hheads. induction Hhs; [constructor|].
  inversion Hheads; subst. constructor; auto.
Qed.

(** X18. The parameters of a new model that no random draw decides.  After
    [GPT.__init__] the module is in training mode; [_init_weights] has set
    the bias of every linear layer that has one to zeros (the output
    projection and the two feed-forward layers of every block, and
    [lm_head]); the key, query and value projections have no bias; and the
    layer norms are the default ones, weights 1 and biases 0. *)
Theorem new_model_biases_are_zero V (w : World) m w' :
  GPT_init V w = (Ok m, w') →
  training m = true
  ∧ bias (lm_head (state_dict m)) = Some (zeros V)
  ∧ ln_f (state_dict m) = LayerNorm_init EMBED_SIZE
  ∧ Forall Block_fresh (blocks (state_dict m)).
Proof.
  unfold GPT_init. intros Hrun.
  apply bind_inv in Hrun as [(te & w1 & _ & Hrun)|(e & _ & [=])].
  apply bind_inv in Hrun as [(pe & w2 & _ & Hrun)|(e & _ & [=])].
  apply bind_inv in Hrun as [(bs & w3 & Hbs & Hrun)|(e & _ & [=])].
  apply bind_inv in Hrun as [(lh & w4 & Hlh & Hrun)|(e & _ & [=])].
  apply bind_inv in Hrun as [(te' & w5 & _ & Hrun)|(e & _ & [=])].
  apply bind_inv in Hrun as [(pe' & w6 & _ & Hrun)|(e & _ & [=])].
  apply bind_inv in Hrun as [(bs' & w7 & Hbs' & Hrun)|(e & _ & [=])].
  apply bind_inv in Hrun as [(lh' & w8 & Hlh' & [= <- _])|(e & _ & [=])].
  simpl. split; [done|].
  apply Linear_init_bias in Hlh as (v & Hv & Hlen).
  apply init_weights_Linear_bias in Hlh'. rewrite Hv in Hlh'. simpl in Hlh'.
  rewrite Hlen in Hlh'. split; [done|]. split; [done|].
  apply (mapM_Ok_Forall2 _ (λ _ b, Block_drawn EMBED_SIZE b)) in Hbs.
  2:{ intros _ ? ? ?. apply Block_init_drawn. }
  apply Forall2_const_r in Hbs.
  apply (mapM_Ok_Forall2 _ (λ b b', Block_drawn EMBED_SIZE b → Block_fresh b')) in Hbs'.
  2:{ intros ? ? ? ?. apply init_weights_Block_fresh. }
  clear -Hbs Hbs'. induction Hbs'; [constructor|].
  inversion Hbs; subst. constructor; auto.
Qed.

(** ** The shape of the logits *)

Lemma length_Linear_forward l (x : list R) :
  bias_fits l → length (Linear_forward l x) = out_features l.
Proof.
  unfold bias_fits, Linear_forward, out_features, vadd.
  destruct (bias l) as [b|]; intros Hb.
  - rewrite length_zip_with, length_map. lia.
  - by rewrite length_map.
Qed.

Lemma GPT_forward_logits idx (w : World) m l loss w' :
  net w = Some m →
  GPT_forward idx None w = (Ok (Logits3 l, loss), w') →
  ∃ x, l = map (map (Linear_forward (lm_head (state_dict m)))) x.
Proof.
  intros Hnet. unfold GPT_forward.
  rewrite (bind_Ok self _ w m w (self_run w m Hnet)). intros Hrun.
  apply bind_inv in Hrun as [(tok_emb & w1 & _ & Hrun)|(e & _ & [=])].
  apply bind_inv in Hrun as [(pos_emb & w2 & _ & Hrun)|(e & _ & [=])].
  apply bind_inv in Hrun as [(x & w3 & _ & [= <- _ _])|(e & _ & [=])].
  eauto.
Qed.

(** X19. For a batch of B contexts of T <= SEQ_LEN valid tokens,
    [GPT.forward] without targets returns logits of shape
    (B, T, vocab_size): one score per token of the vocabulary at every
    position. *)
Theorem forward_logits_shape V m idx (w : World) B T :
  net w = Some m → GPT_wf V (state_dict m) → bias_fits (lm_head (state_dict m)) →
  shaped B T idx → T ≤ SEQ_LEN → tokens_below V idx →
  ∃ l w', GPT_forward idx None w = (Ok (Logits3 l, None), w')
    ∧ shaped B T l
    ∧ Forall (Forall (λ r, length r = V)) l.
Proof.
  intros Hnet Hwf Hbias Hshape HT Hidx.
  destruct (total_GPT_forward V m idx w B T Hnet Hwf Hshape HT Hidx)
    as ([? ?] & w' & Hrun & _ & (l & [= -> ->] & Hl)).
  exists l, w'. split; [done|]. split; [done|].
  destruct (GPT_forward_logits _ _ _ _ _ _ Hnet Hrun) as [x ->].
  destruct Hwf as (_ & _ & _ & Hout).
  rewrite !map_fmap. apply Forall_fmap, Forall_forall. intros mx _.
  apply Forall_fmap, Forall_forall. intros r _. simpl.
  by rewrite length_Linear_forward.
Qed.

(** ** Causality of the model in evaluation mode *)

Lemma take_imap {A B'} (f : nat → A → B') k (l : list A) :
  take k (imap f l) = imap f (take k l).
Proof.
  revert f k. induction l as [|a l IH]; intros f [|k]; simpl; [done..|].
  by rewrite IH.
Qed.

Lemma vsum_app (u v : list R) : vsum (u ++ v) = (vsum u + vsum v)%R.
Proof. induction u as [|a u IH]; simpl; [lra|]. rewrite IH. lra. Qed.

Lemma vsum_zeros n : vsum (zeros n) = 0%R.
Proof. induction n as [|n IH]; simpl; [done|]. unfold zeros in IH. rewrite IH. lra. Qed.

(** Masked scores at the end of a row get weight 0 and leave the other
    weights as they are. *)
Lemma softmax_app_masked (a Z : list xreal) :
  Forall (λ x, x = NegInf) Z →
  softmax (a ++ Z) = softmax a ++ zeros (length Z).
Proof.
  intros HZ.
  assert (map xexp Z = zeros (length Z)) as Hexp.
  { induction HZ as [|x Z -> _ IH]; simpl; [done|]. by rewrite IH. }
  unfold softmax. rewrite !map_app, vsum_app, Hexp, vsum_zeros, Rplus_0_r. f_equal.
  clear Hexp. induction HZ as [|x Z -> _ IH]; simpl; [done|]. rewrite IH.
  unfold zeros. simpl. f_equal. unfold Rdiv. apply Rmult_0_l.
Qed.

Lemma vscale_0 (v : list R) : vscale 0 v = zeros (length v).
Proof.
  unfold vscale, zeros. induction v as [|a v IH]; simpl; [done|].
  rewrite IH. f_equal. apply Rmult_0_l.
Qed.

Lemma length_vscale c (v : list R) : length (vscale c v) = length v.
Proof. unfold vscale. by rewrite length_map. Qed.

Lemma vadd_zeros_r (a : list R) n : length a ≤ n → vadd a (zeros n) = a.
Proof.
  unfold vadd, zeros. revert n. induction a as [|x a IH]; intros [|n] Hn; simpl in *;
    [done | done | lia |]. rewrite IH by lia. f_equal. apply Rplus_0_r.
Qed.

Lemma vadd_zeros_zeros L n : L ≤ n → vadd (zeros L) (zeros n) = zeros L.
Proof. intros. apply vadd_zeros_r. unfold zeros. by rewrite length_replicate. Qed.

(** A sum of rows that starts from zeros does not depend on how many zeros
    it starts from, as long as they are at least as many as a row holds. *)
Lemma foldr_vadd_base L n1 n2 (A : list (list R)) :
  A ≠ [] → Forall (λ a, length a = L) A → L ≤ n1 → L ≤ n2 →
  foldr vadd (zeros n1) A = foldr vadd (zeros n2) A.
Proof.
  intros Hne HA H1 H2. induction HA as [|a A Ha HA IH]; [done|]. simpl.
  destruct A as [|a' A].
  - simpl. rewrite !vadd_zeros_r by lia. done.
  - by rewrite IH.
Qed.

Lemma foldr_vadd_zero_tail L n (A Z : list (list R)) :
  A ≠ [] → Forall (λ a, length a = L) A → L ≤ n →
  Forall (λ z, z = zeros L) Z →
  foldr vadd (zeros n) (A ++ Z) = foldr vadd (zeros n) A.
Proof.
  intros Hne HA HL HZ. rewrite foldr_app.
  assert (∃ n', L ≤ n' ∧ foldr vadd (zeros n) Z = zeros n') as (n' & Hn' & ->).
  { induction HZ as [|z Z -> _ (n' & Hn' & IH)]; simpl; [by exists n|].
    exists L. split; [done|]. rewrite IH. by apply vadd_zeros_zeros. }
  by apply (foldr_vadd_base L).
Qed.

Lemma length_Linear_forward_indep l (x y : list R) :
  length (Linear_forward l x) = length (Linear_forward l y).
Proof.
  unfold Linear_forward, vadd. destruct (bias l);
    by rewrite ?length_zip_with, !length_map.
Qed.

Lemma length_Linear_forward_le l (x : list R) :
  length (Linear_forward l x) ≤ out_features l.
Proof.
  unfold Linear_forward, vadd, out_features. destruct (bias l);
    rewrite ?length_zip_with, !length_map; lia.
Qed.

(** The positions after [xa] are masked for the queries of [xa]: row [i]
    of the head's output on [xa ++ xz] is row [i] of its output on [xa]. *)
Lemma Head_row_app h (xa xz : list (list R)) i xi :
  tril h = tril_ones SEQ_LEN →
  i < length xa → length xa + length xz ≤ SEQ_LEN →
  Head_row h (xa ++ xz) i xi = Head_row h xa i xi.
Proof.
  intros Htril Hi Hlen. unfold Head_row.
  rewrite !map_app, imap_app, length_map.
  set (sc := λ xj : list R, _).
  rewrite (imap_ext _ (λ _ _, NegInf) (map sc xz)).
  2:{ intros j s Hj. apply lookup_lt_Some in Hj. rewrite length_map in Hj.
      rewrite Htril, tril_is_zero_ones by lia. by rewrite bool_decide_eq_true_2 by lia. }
  rewrite softmax_app_masked.
  2:{ apply Forall_forall. intros x Hx.
      apply list_elem_of_lookup in Hx as [j Hj].
      rewrite list_lookup_imap in Hj. by destruct (map sc xz !! j); simplify_eq/=. }
  rewrite length_imap, length_map.
  rewrite zip_with_app.
  2:{ unfold softmax. by rewrite !length_map, length_imap, length_map. }
  apply (foldr_vadd_zero_tail (length (Linear_forward (value h) []))).
  - destruct xa; simpl in *; [lia|done].
  - apply Forall_forall. intros a Ha.
    apply list_elem_of_lookup in Ha as [j Hj].
    apply lookup_zip_with_Some in Hj as (c & v & -> & _ & Hv).
    rewrite map_fmap, list_lookup_fmap in Hv.
    destruct (xa !! j) as [xj|]; simplify_eq/=.
    rewrite length_vscale. apply length_Linear_forward_indep.
  - apply length_Linear_forward_le.
  - apply Forall_forall. intros z Hz.
    apply list_elem_of_lookup in Hz as [j Hj].
    apply lookup_zip_with_Some in Hj as (c & v & -> & Hc & Hv).
    apply lookup_replicate in Hc as [-> _].
    rewrite map_fmap, list_lookup_fmap in Hv.
    destruct (xz !! j) as [xj|]; simplify_eq/=.
    rewrite vscale_0. f_equal. apply length_Linear_forward_indep.
Qed.

(** In evaluation mode a head computes its output row by row. *)
Lemma Head_forward_eval h (x : list (list (list R))) (w : World) :
  time_dim x ≤ length (tril h) →
  Head_forward h false x w = (Ok (map (λ xb, imap (Head_row h xb) xb) x), w).
Proof.
  intros HT. unfold Head_forward.
  rewrite (bind_Ok _ _ w _ w (Head_attention_eq h x w HT)).
  rewrite (bind_Ok _ _ w _ w (dropout_eval_identity _ _ w)).
  unfold mret, M_ret. do 2 f_equal.
  unfold Head_scores. clear HT. induction x as [|xb x IH]; [done|].
  simpl. f_equal; [|exact IH].
  unfold matmul, matmul_transposed. rewrite !map_fmap.
  rewrite <- !list_fmap_compose, imap_fmap, fmap_imap.
  apply imap_ext. intros i xi _. unfold compose, Head_row. simpl.
  by rewrite !map_fmap, <- !list_fmap_compose.
Qed.

Lemma Head_rows_take h (xb : list (list R)) k :
  tril h = tril_ones SEQ_LEN → length xb ≤ SEQ_LEN →
  imap (Head_row h (take k xb)) (take k xb) = take k (imap (Head_row h xb) xb).
Proof.
  intros Htril Hlen. rewrite take_imap. apply imap_ext. intros i xi Hi.
  apply lookup_take_Some in Hi as [Hi Hk].
  rewrite <- (take_drop k xb) at 2. symmetry. apply Head_row_app; [done| |].
  - rewrite length_take. apply lookup_lt_Some in Hi. lia.
  - rewrite length_take, length_drop. lia.
Qed.

Lemma time_dim_take {A} k (x : list (list A)) :
  time_dim (take k <$> x) ≤ time_dim x.
Proof. destruct x as [|r x]; simpl; [done|]. rewrite length_take. lia. Qed.

(** The output of a head on the first [k] positions is the first [k]
    positions of its output. *)
Lemma Head_forward_prefix h (x : list (list (list R))) T k (w : World) :
  tril h = tril_ones SEQ_LEN → Forall (λ m, length m = T) x → T ≤ SEQ_LEN →
  ∃ out, Head_forward h false x w = (Ok out, w)
       ∧ Head_forward h false (take k <$> x) w = (Ok (take k <$> out), w).
Proof.
  intros Htril Hx HT. eexists. split.
  - apply Head_forward_eval. rewrite Htril, length_tril_ones. by eapply time_dim_le.
  - rewrite Head_forward_eval.
    2:{ rewrite Htril, length_tril_ones. etrans; [apply time_dim_take|].
        by eapply time_dim_le. }
    do 2 f_equal. rewrite !map_fmap, <- !list_fmap_compose.
    apply Forall_fmap_ext_1. eapply Forall_impl; [exact Hx|].
    intros xb Hxb. simpl in *. apply Head_rows_take; [done | lia].
Qed.

Lemma fmap_take_zip_with {A1 A2 A3} (f : A1 → A2 → A3) k
    (a : list (list A1)) (b : list (list A2)) :
  take k <$> zip_with (zip_with f) a b
  = zip_with (zip_with f) (take k <$> a) (take k <$> b).
Proof.
  revert b. induction a as [|ra a IH]; intros [|rb b]; simpl; [done..|].
  by rewrite zip_with_take, IH.
Qed.

Lemma fmap_take_fmap {A B'} (f : A → B') k (x : list (list A)) :
  map (map f) (take k <$> x) = take k <$> map (map f) x.
Proof.
  rewrite !map_fmap, <- !list_fmap_compose. apply list_fmap_ext.
  intros _ r _. simpl. by rewrite !map_fmap, fmap_take.
Qed.

Lemma foldl_cat_take k (os : list (list (list (list R)))) : ∀ o : list (list (list R)),
  foldl (zip_with (zip_with app)) (take k <$> o)
        ((λ t : list (list (list R)), take k <$> t) <$> os)
  = take k <$> foldl (zip_with (zip_with app)) o os.
Proof.
  induction os as [|o' os IH]; intros o; simpl; [done|].
  by rewrite <- fmap_take_zip_with, IH.
Qed.

(** A loop over computations that leave the world alone, run on related
    inputs. *)
Lemma mapM_related {A B'} (f f' : A → M B') (g : B' → B') (w : World) (l : list A) :
  (∀ a, a ∈ l → ∃ b, f a w = (Ok b, w) ∧ f' a w = (Ok (g b), w)) →
  ∃ bs, mapM f l w = (Ok bs, w) ∧ mapM f' l w = (Ok (g <$> bs), w)
        ∧ length bs = length l.
Proof.
  induction l as [|a l IH]; intros Hf; simpl; [by exists []|].
  destruct (Hf a) as (b & Hb & Hb'); [by left|].
  destruct IH as (bs & Hbs & Hbs' & Hlen); [intros; apply Hf; by right|].
  exists (b :: bs).
  rewrite (bind_Ok _ _ w b w Hb), (bind_Ok _ _ w bs w Hbs).
  rewrite (bind_Ok _ _ w _ w Hb'), (bind_Ok _ _ w _ w Hbs'). simpl.
  by rewrite Hlen.
Qed.

Lemma MultiHeadAttention_forward_prefix a (x : list (list (list R))) B T k (w : World) :
  heads a ≠ [] → Forall (λ h, tril h = tril_ones SEQ_LEN) (heads a) →
  shaped B T x → T ≤ SEQ_LEN →
  ∃ out, MultiHeadAttention_forward a false x w = (Ok out, w)
       ∧ MultiHeadAttention_forward a false (take k <$> x) w = (Ok (take k <$> out), w)
       ∧ shaped B T out.
Proof.
  intros Hne Hheads Hx HT. unfold MultiHeadAttention_forward.
  destruct (mapM_related (λ h, Head_forward h false x)
              (λ h, Head_forward h false (take k <$> x))
              (λ t : list (list (list R)), take k <$> t) w (heads a))
    as (outs & Houts & Houts' & Hlen).
  { intros h Hh. rewrite Forall_forall in Hheads.
    apply (Head_forward_prefix h x T k w); [by apply Hheads | by destruct Hx | done]. }
  rewrite (bind_Ok _ _ w _ w Houts), (bind_Ok _ _ w _ w Houts').
  destruct outs as [|o os]; [by destruct (heads a)|].
  rewrite fmap_cons. unfold cat_last.
  exists (map (map (Linear_forward (proj a))) (foldl (zip_with (zip_with app)) o os)).
  split; [|split].
  - rewrite (bind_Ok (mret _) _ w _ w eq_refl). apply dropout_eval_identity.
  - rewrite (bind_Ok (mret _) _ w _ w eq_refl), dropout_eval_identity.
    by rewrite foldl_cat_take, fmap_take_fmap.
  - destruct (total_MultiHeadAttention_forward a false x w B T) as (out & w' & Hrun & _ & Hout);
      [done | by eapply shaped_time_dim_le | done | |].
    { eapply Forall_impl; [exact Hheads|]. intros h ->. apply length_tril_ones. }
    unfold MultiHeadAttention_forward in Hrun.
    rewrite (bind_Ok _ _ w _ w Houts) in Hrun. unfold cat_last in Hrun.
    rewrite (bind_Ok (mret _) _ w _ w eq_refl), dropout_eval_identity in Hrun.
    by injection Hrun as <- _.
Qed.

Lemma Block_forward_prefix b (x : list (list (list R))) B T k (w : World) :
  Block_causal b → shaped B T x → T ≤ SEQ_LEN →
  ∃ out, Block_forward b false x w = (Ok out, w)
       ∧ Block_forward b false (take k <$> x) w = (Ok (take k <$> out), w)
       ∧ shaped B T out.
Proof.
  intros [Hne Hheads] Hx HT. unfold Block_forward, FeedForward_forward.
  destruct (MultiHeadAttention_forward_prefix (sa b)
              (map (map (LayerNorm_forward (ln1 b))) x) B T k w Hne Hheads)
    as (y & Hy & Hy' & Hys); [|done|].
  { eapply shaped_fmap; [|done]. intros. by rewrite length_map. }
  rewrite fmap_take_fmap.
  rewrite (bind_Ok _ _ w _ w Hy), (bind_Ok _ _ w _ w Hy').
  rewrite !(bind_Ok _ _ w _ w (dropout_eval_identity _ _ w)).
  eexists. split; [reflexivity|].
  assert (shaped B T (zip_with madd x y)) as Hx1 by (by apply shaped_madd).
  split.
  - unfold madd. by rewrite <- !fmap_take_zip_with, fmap_take_fmap, fmap_take_fmap,
      <- fmap_take_zip_with.
  - apply shaped_madd; [done|].
    eapply shaped_fmap; [|eapply shaped_fmap; [|done]]; intros; by rewrite ?length_map.
Qed.

Lemma Sequential_forward_prefix bs B T k (w : World) : ∀ x : list (list (list R)),
  Forall Block_causal bs → shaped B T x → T ≤ SEQ_LEN →
  ∃ out, Sequential_forward bs false x w = (Ok out, w)
       ∧ Sequential_forward bs false (take k <$> x) w = (Ok (take k <$> out), w)
       ∧ shaped B T out.
Proof.
  induction bs as [|b bs IH]; intros x Hbs Hx HT; simpl.
  - by exists x.
  - inversion Hbs; subst.
    destruct (Block_forward_prefix b x B T k w) as (y & Hy & Hy' & Hys); [done..|].
    destruct (IH y) as (out & Hout & Hout' & Houts); [done..|].
    exists out. by rewrite (bind_Ok _ _ w _ w Hy), (bind_Ok _ _ w _ w Hy').
Qed.

Lemma mapM_fmap {A A' B'} (f : A' → M B') (g : A → A') (l : list A) (w : World) :
  mapM f (g <$> l) w = mapM (f ∘ g) l w.
Proof.
  revert w. induction l as [|a l IH]; intros w; simpl; [done|].
  unfold mbind, M_bind. simpl. destruct (f (g a) w) as [[b|e] w1]; [|done].
  by rewrite IH.
Qed.

Lemma mapM_take {A B'} (f : A → M B') k (l : list A) (w : World) bs :
  (∀ a, pure_frame (f a)) →
  mapM f l w = (Ok bs, w) → mapM f (take k l) w = (Ok (take k bs), w).
Proof.
  intros Hf. revert k bs. induction l as [|a l IH]; intros k bs Hrun; simpl in Hrun.
  - injection Hrun as <-. by rewrite !take_nil.
  - apply bind_inv in Hrun as [(b & w1 & H1 & Hrun)|(e & _ & [=])].
    pose proof (Hf _ _ _ _ H1) as ->.
    apply bind_inv in Hrun as [(bs' & w2 & H2 & [= <- ->])|(e & _ & [=])].
    destruct k as [|k]; simpl; [done|].
    by rewrite (bind_Ok _ _ w b w H1), (bind_Ok _ _ w _ w (IH k bs' H2)).
Qed.

Lemma time_dim_take_eq {A} k (x : list (list A)) :
  time_dim (take k <$> x) = k `min` time_dim x.
Proof. destruct x as [|r x]; simpl; [lia|]. apply length_take. Qed.

(** In evaluation mode and over the reals, the logits of the first [k]
    positions of a context are the first [k] positions of its logits. *)
Lemma GPT_forward_prefix V m idx (w : World) B T k :
  net w = Some m → training m = false →
  GPT_wf V (state_dict m) → Forall Block_causal (blocks (state_dict m)) →
  shaped B T idx → T ≤ SEQ_LEN → tokens_below V idx →
  ∃ l, GPT_forward idx None w = (Ok (Logits3 l, None), w)
     ∧ GPT_forward (take k <$> idx) None w = (Ok (Logits3 (take k <$> l), None), w)
     ∧ shaped B T l.
Proof.
  intros Hnet Htr (Htok & Hpos & _ & _) Hblocks Hidx HT Hbelow. unfold GPT_forward.
  rewrite !(bind_Ok self _ w m w (self_run w m Hnet)), Htr.
  rewrite <- Htok in Hbelow. unfold tokens_below in Hbelow.
  destruct (mapM_mapM_Embedding_Ok _ idx w Hbelow) as [tok_emb Htok_emb].
  assert (mapM (mapM (Embedding_forward (token_embedding_table (state_dict m))))
               (take k <$> idx) w = (Ok (take k <$> tok_emb), w)) as Htok_emb'.
  { rewrite mapM_fmap.
    destruct (mapM_related
                (mapM (Embedding_forward (token_embedding_table (state_dict m))))
                (mapM (Embedding_forward (token_embedding_table (state_dict m))) ∘ take k)
                (take k) w idx) as (bs & Hbs & Hbs' & _).
    - intros row Hrow. rewrite Forall_forall in Hbelow.
      destruct (mapM_Embedding_Ok _ row w (Hbelow row Hrow)) as [e He].
      exists e. split; [done|]. apply mapM_take; [|done].
      intros ?. apply pure_frame_Embedding_forward.
    - rewrite Htok_emb in Hbs. by injection Hbs as <-. }
  destruct (mapM_Embedding_Ok (position_embedding_table (state_dict m))
              (seq 0 (time_dim idx)) w) as [pos_emb Hpos_emb].
  { apply Forall_forall. intros t Ht%elem_of_seq. rewrite Hpos.
    pose proof (shaped_time_dim_le _ _ _ _ Hidx HT). lia. }
  assert (mapM (Embedding_forward (position_embedding_table (state_dict m)))
               (seq 0 (time_dim (take k <$> idx))) w = (Ok (take k pos_emb), w))
    as Hpos_emb'.
  { rewrite time_dim_take_eq, <- take_seq. apply mapM_take; [|done].
    intros ?. apply pure_frame_Embedding_forward. }
  rewrite (bind_Ok _ _ w _ w Htok_emb), (bind_Ok _ _ w _ w Htok_emb').
  rewrite (bind_Ok _ _ w _ w Hpos_emb), (bind_Ok _ _ w _ w Hpos_emb').
  assert (shaped B T (map (λ tb, madd tb pos_emb) tok_emb)) as Hx.
  { assert (Forall2 (λ (r : list nat) (e : list (list R)), length e = length r) idx tok_emb)
      as Hlen.
    { eapply mapM_Ok_Forall2; [|exact Htok_emb]. intros r w1 e w2 He.
      apply (mapM_Ok_Forall2 _ (λ _ _, True)) in He; [|done].
      symmetry. by eapply Forall2_length. }
    assert (shaped B T tok_emb) as [HB Hte] by (by eapply shaped_Forall2).
    split; [by rewrite length_map|].
    destruct (decide (B = 0)) as [->|HB0]; [by destruct tok_emb|].
    assert (length pos_emb = T) as Hpe.
    { apply (mapM_Ok_Forall2 _ (λ _ _, True)) in Hpos_emb; [|done].
      apply Forall2_length in Hpos_emb. rewrite length_seq in Hpos_emb.
      rewrite <- Hpos_emb. apply (shaped_time_dim B); [done|lia]. }
    rewrite map_fmap, Forall_fmap. eapply Forall_impl; [exact Hte|]. simpl.
    intros tb Htb. rewrite length_madd; congruence. }
  destruct (Sequential_forward_prefix (blocks (state_dict m)) B T k w
              (map (λ tb, madd tb pos_emb) tok_emb) Hblocks Hx HT)
    as (out & Hout & Hout' & Houts).
  assert (map (λ tb, madd tb (take k pos_emb)) (take k <$> tok_emb)
          = take k <$> map (λ tb, madd tb pos_emb) tok_emb) as ->.
  { rewrite !map_fmap, <- !list_fmap_compose. apply list_fmap_ext.
    intros _ tb _. simpl. unfold madd. by rewrite zip_with_take. }
  rewrite (bind_Ok _ _ w _ w Hout), (bind_Ok _ _ w _ w Hout').
  eexists. split; [reflexivity|]. split.
  - by rewrite !fmap_take_fmap.
  - eapply shaped_fmap; [|eapply shaped_fmap; [|done]]; intros; by rewrite ?length_map.
Qed.

(** X20. In evaluation mode the model is causal.  For two batches of
    contexts of the same shape (B, T), T <= SEQ_LEN, of valid tokens, both
    forward passes return logits for the T positions of every row and
    leave the state alone; and when the two batches agree on their first
    [k] tokens, their logits at the first [k] positions are the same,
    whatever tokens follow. *)
Theorem eval_forward_is_causal V m idx idx' (w : World) B T k :
  net w = Some m → training m = false →
  GPT_wf V (state_dict m) → Forall Block_causal (blocks (state_dict m)) →
  shaped B T idx → shaped B T idx' → T ≤ SEQ_LEN →
  tokens_below V idx → tokens_below V idx' →
  take k <$> idx' = take k <$> idx →
  ∃ l l', GPT_forward idx None w = (Ok (Logits3 l, None), w)
     ∧ GPT_forward idx' None w = (Ok (Logits3 l', None), w)
     ∧ shaped B T l ∧ shaped B T l'
     ∧ take k <$> l' = take k <$> l.
Proof.
  intros Hnet Htr Hwf Hblocks Hidx Hidx' HT Hbelow Hbelow' Heq.
  destruct (GPT_forward_prefix V m idx w B T k Hnet Htr Hwf Hblocks Hidx HT Hbelow)
    as (l & Hl & Hk & Hshape).
  destruct (GPT_forward_prefix V m idx' w B T k Hnet Htr Hwf Hblocks Hidx' HT Hbelow')
    as (l' & Hl' & Hk' & Hshape').
  exists l, l'. repeat (split; [done|]).
  rewrite Heq, Hk in Hk'. by injection Hk' as ->.
Qed.

(** ** The context window of generate *)

Lemma deref_run l (w : World) t : heap w !! l = Some t → deref l w = (Ok t, w).
Proof. intros Hl. unfold deref. by rewrite Hl. Qed.

(** X21. The next token depends on the last SEQ_LEN tokens of the context
    only.  From the same state, one iteration of [generate] on two contexts
    that agree on their last SEQ_LEN tokens appends the same tokens to both
    and leaves the generator in the same state, or raises the same exception
    for both. *)
Theorem next_token_depends_on_window idx1 idx2 ctx1 ctx2 (w : World) :
  heap w !! idx1 = Some ctx1 → heap w !! idx2 = Some ctx2 →
  map crop ctx1 = map crop ctx2 →
  match generate_step idx1 w, generate_step idx2 w with
  | (Ok l1, w1), (Ok l2, w2) =>
      ∃ next, heap w1 = heap w ++ [zip_with app ctx1 next]
              ∧ heap w2 = heap w ++ [zip_with app ctx2 next]
              ∧ generator w1 = generator w2
  | (Raise e1, w1), (Raise e2, w2) => e1 = e2 ∧ w1 = w2
  | _, _ => False
  end.
Proof.
  intros H1 H2 Heq. unfold generate_step.
  rewrite (bind_Ok _ _ w ctx1 w (deref_run idx1 w ctx1 H1)).
  rewrite (bind_Ok _ _ w ctx2 w (deref_run idx2 w ctx2 H2)).
  rewrite Heq. unfold mbind, M_bind.
  destruct (GPT_forward (map crop ctx2) None w) as [[[lg ls]|e] wa] eqn:Ha; [|done].
  destruct (match lg with Logits3 l => last_step l | Logits2 _ => raise IndexError end wa)
    as [[logits|e] wb] eqn:Hb; [|done].
  destruct (self wb) as [[m|e] wc] eqn:Hc; [|done].
  destruct (multinomial _ _ wc) as [[next|e] wd] eqn:Hd; [|done].
  simpl. exists next.
  apply rng_frame_GPT_forward, same_but_rng_heap in Ha.
  assert (heap wb = heap wa) as Hb'.
  { apply same_but_rng_heap. revert Hb.
    destruct lg; [apply rng_frame_last_step | apply rng_frame_raise]. }
  apply rng_frame_self, same_but_rng_heap in Hc.
  apply rng_frame_multinomial, same_but_rng_heap in Hd.
  by rewrite Hd, Hc, Hb', Ha.
Qed.

(** ** The first position of a head *)

Lemma vscale_1 (v : list R) : vscale 1 v = v.
Proof.
  unfold vscale. induction v as [|a v IH]; simpl; [done|]. rewrite IH. f_equal. lra.
Qed.

Lemma Head_row_first h (x0 : list R) :
  tril h = tril_ones SEQ_LEN → 0 < SEQ_LEN →
  Head_row h [x0] 0 x0 = Linear_forward (value h) x0.
Proof.
  intros Htril HS. unfold Head_row. simpl.
  rewrite Htril, tril_is_zero_ones by lia. rewrite bool_decide_eq_false_2 by lia.
  unfold softmax. simpl.
  set (s := (dot _ _ / _)%R).
  replace (exp s / (exp s + 0))%R with 1%R.
  2:{ pose proof (exp_pos s). field. lra. }
  rewrite vscale_1. apply vadd_zeros_r, length_Linear_forward_le.
Qed.

(** X22. In evaluation mode the first position of a head attends to itself
    only: row 0 of the head's output is the value projection of row 0 of
    its input, whatever the other positions hold. *)
Theorem first_position_attends_to_itself h (x : list (list (list R))) T (w : World) :
  tril h = tril_ones SEQ_LEN → Forall (λ m, length m = T) x → T ≤ SEQ_LEN →
  ∃ out, Head_forward h false x w = (Ok out, w)
    ∧ ∀ b xb x0, x !! b = Some xb → xb !! 0 = Some x0 →
        out !! b ≫= (.!! 0) = Some (Linear_forward (value h) x0).
Proof.
  intros Htril Hx HT. eexists. split.
  { apply Head_forward_eval. rewrite Htril, length_tril_ones. by eapply time_dim_le. }
  intros b xb x0 Hb H0.
  rewrite map_fmap, list_lookup_fmap, Hb. simpl.
  rewrite list_lookup_imap, H0. simpl. f_equal.
  destruct xb as [|x0' xz]; [done|]. injection H0 as ->.
  assert (length (x0 :: xz) = T) as Hlen by (by eapply (Forall_lookup_1 _ x b) in Hx).
  simpl in Hlen.
  change (x0 :: xz) with ([x0] ++ xz).
  rewrite (Head_row_app h [x0] xz 0 x0 Htril); [|simpl; lia..].
  apply Head_row_first; [done|lia].
Qed.

(** ** What a checkpoint holds *)

Lemma save_checkpoint_Ok p i loss (w w' : World) :
  save_checkpoint (Some p) i loss w = (Ok tt, w') →
  ∃ m o, net w = Some m ∧ optimizer w = Some o
    ∧ net w' = Some m ∧ optimizer w' = Some o
    ∧ fs w' = <[p := FCheckpoint {| ck_epoch := i; ck_model_state_dict := state_dict m;
                                    ck_optimizer_state_dict := o; ck_loss := loss |}]> (fs w).
Proof.
  intros Hrun.
  destruct (net w) as [m|] eqn:Hnet.
  2:{ unfold save_checkpoint, emit, modify, self, mbind, M_bind in Hrun. simpl in Hrun.
      rewrite Hnet in Hrun. discriminate Hrun. }
  destruct (optimizer w) as [o|] eqn:Hopt.
  2:{ unfold save_checkpoint, emit, modify, self, the_optimizer, mbind, M_bind in Hrun.
      simpl in Hrun. rewrite Hnet in Hrun. simpl in Hrun. rewrite Hopt in Hrun.
      discriminate Hrun. }
  rewrite (save_checkpoint_run p i loss m o w Hnet Hopt) in Hrun.
  injection Hrun as <-. by exists m, o.
Qed.

(** An epoch that returns has taken its optimizer step and, when a
    checkpoint was due, has saved the state the step left. *)
Lemma train_epoch_steps args epoch i (w w' : World) :
  train_epoch args epoch i w = (Ok tt, w') →
  ∃ w0 loss w1,
    optimization_step i w0 = (Ok loss, w1)
    ∧ if decide (checkpoint_due args epoch i)
      then save_checkpoint (args_save_checkpoint args) i (LossVal loss) w1 = (Ok tt, w')
      else w' = w1.
Proof.
  unfold train_epoch. intros Hrun.
  apply bind_inv in Hrun as [(? & w0 & H1 & Hrun)|(e & _ & [=])].
  apply bind_inv in Hrun as [(loss & w1 & H2 & Hrun)|(e & _ & [=])].
  apply bind_inv in Hrun as [(due & w2 & H3 & Hrun)|(e & _ & [=])].
  apply interval_test_run in H3 as [-> Hdue]. rewrite (Hdue due eq_refl) in Hrun.
  exists w0, loss, w1. split; [done|].
  destruct (decide (checkpoint_due args epoch i)) as [Hd|Hd].
  - rewrite bool_decide_eq_true_2 in Hrun by done. exact Hrun.
  - rewrite bool_decide_eq_false_2 in Hrun by done. by injection Hrun as <-.
Qed.

(** X23. A checkpoint is a snapshot of the end of its epoch.  When an epoch
    of the training loop at which a checkpoint is due returns, the file
    named by [--save-checkpoint] holds the number of the epoch, the loss of
    the optimizer step of this epoch, and the parameters and the optimizer
    state exactly as the module and the optimizer hold them after the
    epoch, that is, after this step. *)
Theorem checkpoint_is_snapshot args e0 i p (w w' : World) :
  train_epoch args e0 i w = (Ok tt, w') →
  checkpoint_due args e0 i → args_save_checkpoint args = Some p →
  ∃ m o loss w0 w1,
    optimization_step i w0 = (Ok loss, w1)
    ∧ net w1 = Some m ∧ optimizer w1 = Some o
    ∧ net w' = Some m ∧ optimizer w' = Some o
    ∧ fs w' !! p = Some (FCheckpoint {| ck_epoch := i;
                                        ck_model_state_dict := state_dict m;
                                        ck_optimizer_state_dict := o;
                                        ck_loss := LossVal loss |}).
Proof.
  intros Hrun Hdue Hsave.
  apply train_epoch_steps in Hrun as (w0 & loss & w1 & Hstep & Hrun).
  rewrite decide_True, Hsave in Hrun by done.
  apply save_checkpoint_Ok in Hrun as (m & o & Hm & Ho & Hm' & Ho' & Hfs).
  exists m, o, loss, w0, w1. repeat (split; [done|]).
  by rewrite Hfs, lookup_insert_eq.
Qed.

(** ** Resuming from a checkpoint *)

Lemma load_checkpoint_Ok p (w : World) r w' :
  load_checkpoint p w = (Ok r, w') →
  ∃ c m, fs w !! p = Some (FCheckpoint c) ∧ net w = Some m
    ∧ r = (ck_epoch c, ck_loss c)
    ∧ net w' = Some {| state_dict := ck_model_state_dict c; training := training m |}
    ∧ optimizer w' = Some (ck_optimizer_state_dict c)
    ∧ fs w' = fs w.
Proof.
  unfold load_checkpoint. intros Hrun.
  apply bind_inv in Hrun as [(f & w1 & [= <- <-] & Hrun)|(? & _ & [=])].
  destruct (fs w !! p) as [[t|t|d|c]|] eqn:Hf; try by inversion Hrun.
  apply bind_inv in Hrun as [([] & w1 & [= <-] & Hrun)|(? & _ & [=])].
  apply bind_inv in Hrun as [([] & w2 & H2 & Hrun)|(? & _ & [=])].
  unfold load_state_dict in H2.
  apply bind_inv in H2 as [(m & w3 & H3 & H2)|(? & _ & [=])].
  unfold self in H3. simpl in H3. destruct (net w) as [m'|] eqn:Hnet; [|discriminate H3].
  injection H3 as <- <-.
  case_decide as Hshape; [|by inversion H2]. injection H2 as <-.
  apply bind_inv in Hrun as [([] & w3 & H3 & Hrun)|(? & _ & [=])].
  unfold optim_load_state_dict in H3.
  apply bind_inv in H3 as [(o & w4 & H4 & H3)|(? & _ & [=])].
  apply rng_frame_the_optimizer in H4. rewrite H4 in H3.
  case_decide; [|by inversion H3]. injection H3 as <-.
  apply bind_inv in Hrun as [([] & w5 & [= <-] & Hrun)|(? & _ & [=])].
  injection Hrun as <- <-. exists c, m'. by repeat split.
Qed.

Lemma GPT_init_training V (w : World) m w' :
  GPT_init V w = (Ok m, w') → training m = true.
Proof.
  unfold GPT_init. intros Hrun.
  apply bind_inv in Hrun as [(te & w1 & _ & Hrun)|(e & _ & [=])].
  apply bind_inv in Hrun as [(pe & w2 & _ & Hrun)|(e & _ & [=])].
  apply bind_inv in Hrun as [(bs & w3 & _ & Hrun)|(e & _ & [=])].
  apply bind_inv in Hrun as [(lh & w4 & _ & Hrun)|(e & _ & [=])].
  apply bind_inv in Hrun as [(te' & w5 & _ & Hrun)|(e & _ & [=])].
  apply bind_inv in Hrun as [(pe' & w6 & _ & Hrun)|(e & _ & [=])].
  apply bind_inv in Hrun as [(bs' & w7 & _ & Hrun)|(e & _ & [=])].
  apply bind_inv in Hrun as [(lh' & w8 & _ & [= <- _])|(e & _ & [=])].
  done.
Qed.

(** X24. Resuming.  When the setup phase of [main] returns for a
    [--load-checkpoint] path, the module holds the parameters of the
    checkpoint file and is in training mode, the optimizer holds the
    optimizer state of the file, and the epoch and the loss returned are
    those of the file: the training loop starts at the epoch the checkpoint
    was written at. *)
Theorem setup_resumes_from_checkpoint args p (w : World) tk epoch loss w1 :
  args_load_checkpoint args = Some p → p ≠ "" →
  main_setup args w = (Ok (tk, epoch, loss), w1) →
  ∃ c, fs w1 !! p = Some (FCheckpoint c)
    ∧ epoch = ck_epoch c ∧ loss = ck_loss c
    ∧ net w1 = Some {| state_dict := ck_model_state_dict c; training := true |}
    ∧ optimizer w1 = Some (ck_optimizer_state_dict c).
Proof.
  intros Hload Hp. unfold main_setup. rewrite Hload. intros Hrun.
  apply bind_inv in Hrun as [([] & wa & _ & Hrun)|(? & _ & [=])].
  apply bind_inv in Hrun as [(tokenizer & wb & _ & Hrun)|(? & _ & [=])].
  apply bind_inv in Hrun as [([] & wc & _ & Hrun)|(? & _ & [=])].
  apply bind_inv in Hrun as [([] & wd & _ & Hrun)|(? & _ & [=])].
  apply bind_inv in Hrun as [(model & we & Hinit & Hrun)|(? & _ & [=])].
  apply GPT_init_training in Hinit.
  apply bind_inv in Hrun as [([] & wf & [= <-] & Hrun)|(? & _ & [=])].
  apply bind_inv in Hrun as [([] & wg & [= <-] & Hrun)|(? & _ & [=])].
  apply bind_inv in Hrun as [([] & wh & [= <-] & Hrun)|(? & _ & [=])].
  apply bind_inv in Hrun as [([] & wi & [= <-] & Hrun)|(? & _ & [=])].
  apply bind_inv in Hrun as [([e l] & wj & Hcheck & Hrun)|(? & _ & [=])].
  injection Hrun as <- <- <- <-.
  rewrite decide_False in Hcheck by done.
  apply bind_inv in Hcheck as [(isfile & wk & [= <- <-] & Hcheck)|(? & _ & [=])].
  destruct (bool_decide _); [|by inversion Hcheck].
  apply load_checkpoint_Ok in Hcheck as (c & m & Hf & Hnet & [= -> ->] & Hnet' & Hopt & Hfs).
  simpl in Hnet. injection Hnet as <-.
  exists c. rewrite Hfs, Hnet', Hopt, Hinit. by repeat split.
Qed.

(** ** The loss of a forward pass *)

Lemma elem_le_vsum (v : list R) i a :
  Forall (λ a, 0 <= a)%R v → v !! i = Some a → (a <= vsum v)%R.
Proof.
  intros Hv. revert i. induction Hv as [|b v Hb Hv IH]; intros [|i] Hi;
    simpl in *; try discriminate.
  - injection Hi as ->. pose proof (vsum_nonneg v Hv). lra.
  - specialize (IH i Hi). lra.
Qed.

Lemma neg_ln_nonneg p : (p <= 1)%R → (0 <= - ln p)%R.
Proof.
  intros Hp. destruct (Rlt_dec 0 p) as [Hpos|Hneg].
  - destruct Hp as [Hlt| ->]; [|rewrite ln_1; lra].
    pose proof (ln_increasing p 1 Hpos Hlt) as Hle. rewrite ln_1 in Hle. lra.
  - unfold ln. destruct (Rlt_dec 0 p); [done|]. lra.
Qed.

Lemma cross_entropy_nonneg logits targets (w : World) r w' :
  cross_entropy logits targets w = (Ok r, w') → logits ≠ [] → (0 <= r)%R.
Proof.
  unfold cross_entropy. intros Hrun Hne.
  case_decide as Hlen; [|discriminate Hrun].
  apply bind_inv in Hrun as [(ls & w1 & Hls & [= <- _])|(e & _ & [=])].
  apply (mapM_Ok_Forall2 _ (λ _ l, 0 <= l)%R) in Hls.
  - assert (length ls = length logits) as Hn.
    { apply Forall2_length in Hls. rewrite <- Hls, length_zip. lia. }
    apply Forall2_const_r in Hls.
    apply Rmult_le_pos; [by apply vsum_nonneg|].
    left. apply Rinv_0_lt_compat, lt_0_INR. rewrite Hn. destruct logits; simpl; [done|lia].
  - intros [row t] wa l wb Hl.
    destruct (softmax (Finite <$> row) !! t) as [p|] eqn:Hp; [|discriminate Hl].
    injection Hl as <- _. apply neg_ln_nonneg.
    pose proof Hp as Hp'. rewrite softmax_lookup, list_lookup_fmap in Hp'.
    destruct (row !! t) as [s|] eqn:Hs; [|discriminate Hp'].
    destruct (softmax_distribution (Finite <$> row) t s) as [Hsum Hnn].
    { by rewrite list_lookup_fmap, Hs. }
    rewrite <- Hsum. by eapply elem_le_vsum.
Qed.

(** X25. Targets do not change the logits.  When [GPT.forward] returns for
    a batch with targets, it returns for the same batch without targets from
    the same state, and leaves the same state; the logits returned with
    targets are those returned without, viewed as (B*T, C), and the loss is
    a number that is not negative. *)
Theorem forward_with_targets idx targets (w : World) lg loss w' :
  GPT_forward idx (Some targets) w = (Ok (lg, loss), w') →
  ∃ l3 r, GPT_forward idx None w = (Ok (Logits3 l3, None), w')
    ∧ lg = Logits2 (concat l3)
    ∧ loss = Some r
    ∧ (concat l3 ≠ [] → (0 <= r)%R).
Proof.
  unfold GPT_forward. intros Hrun.
  apply bind_inv in Hrun as [(m & w0 & H0 & Hrun)|(e & _ & [=])].
  apply bind_inv in Hrun as [(tok_emb & w1 & H1 & Hrun)|(e & _ & [=])].
  apply bind_inv in Hrun as [(pos_emb & w2 & H2 & Hrun)|(e & _ & [=])].
  apply bind_inv in Hrun as [(x & w3 & H3 & Hrun)|(e & _ & [=])].
  case_decide as Hlen; [|discriminate Hrun].
  apply bind_inv in Hrun as [(r & w4 & H4 & [= <- <- <-])|(e & _ & [=])].
  pose proof (pure_frame_cross_entropy _ _ _ _ _ H4) as ->.
  eexists _, r. split; [|split; [reflexivity|split; [reflexivity|]]].
  - rewrite (bind_Ok _ _ w m w0 H0), (bind_Ok _ _ w0 tok_emb w1 H1).
    rewrite (bind_Ok _ _ w1 pos_emb w2 H2), (bind_Ok _ _ w2 x w3 H3). reflexivity.
  - intros Hne. by eapply cross_entropy_nonneg.
Qed.

(** ** Inputs that are too short *)

Lemma get_batch_short s (w : World) :
  length (DATA w s) ≤ SEQ_LEN → get_batch s w = (Raise RuntimeError, w).
Proof.
  intros Hlen. unfold get_batch, randint.
  rewrite (bind_Ok (gets (λ w, DATA w s)) _ w (DATA w s) w eq_refl).
  rewrite decide_True by lia. reflexivity.
Qed.

Lemma estimate_split_short s (w : World) :
  length (DATA w s) ≤ SEQ_LEN → estimate_split s w = (Raise RuntimeError, w).
Proof.
  intros Hlen. unfold estimate_split.
  change (seq 0 EVAL_ITERS) with (0 :: seq 1 99).
  apply bind_Raise. simpl. apply bind_Raise, bind_Raise. by apply get_batch_short.
Qed.

(** X26. [estimate_loss] needs more than SEQ_LEN tokens in both splits:
    when the training data or the evaluation data holds at most SEQ_LEN
    tokens, the call raises, whatever the other split holds.  A training run
    with such an evaluation set fails at its first loss estimate. *)
Theorem estimate_loss_needs_both_splits s (w : World) :
  length (DATA w s) ≤ SEQ_LEN →
  ∃ e, (estimate_loss w).1 = Raise e.
Proof.
  intros Hlen.
  destruct (estimate_loss w) as [[l|e] w'] eqn:Hrun; simpl; [|eauto]. exfalso.
  unfold estimate_loss, GPT_eval, GPT_train in Hrun.
  apply bind_inv in Hrun as [([] & w1 & H1 & Hrun)|(e & _ & [=])].
  assert (DATA w1 = DATA w) as Hd1.
  { unfold set_training in H1. destruct (net w); [|discriminate H1].
    by injection H1 as <-. }
  apply bind_inv in Hrun as [([] & w2 & [= <-] & Hrun)|(e & _ & [=])].
  apply bind_inv in Hrun as [(lt & w3 & H3 & Hrun)|(e & _ & [=])].
  apply bind_inv in Hrun as [(le & w4 & H4 & Hrun)|(e & _ & [=])].
  destruct s.
  - rewrite estimate_split_short in H3; [discriminate H3|]. simpl. by rewrite Hd1.
  - pose proof (rng_frame_estimate_split _ _ _ _ H3) as Hw3.
    rewrite estimate_split_short in H4; [discriminate H4|].
    rewrite Hw3. simpl. by rewrite Hd1.
Qed.

Lemma crop_nil : crop [] = [].
Proof. unfold crop. by case_decide. Qed.

(** X27. [generate] needs a context of at least one token: on a batch of
    contexts of length 0 the first iteration raises [IndexError] at
    [logits[:, -1, :]], for every number of tokens asked for that is not
    zero. *)
Theorem generate_needs_a_token V m idx ctx (w : World) B N :
  net w = Some m → GPT_wf V (state_dict m) →
  heap w !! idx = Some ctx → shaped B 0 ctx → 0 < B → 0 < N →
  ∃ w', generate idx N w = (Raise IndexError, w').
Proof.
  intros Hnet Hwf Hidx [HB Hctx] HBpos HN.
  destruct N as [|N]; [lia|]. simpl.
  assert (ctx = replicate B []) as ->.
  { rewrite <- HB. clear -Hctx. induction Hctx as [|r ctx Hr _ IH]; simpl; [done|].
    rewrite <- IH. by destruct r. }
  assert (map crop (replicate B []) = replicate B []) as Hcrop.
  { rewrite map_fmap, fmap_replicate. by rewrite crop_nil. }
  destruct (total_GPT_forward V m (replicate B []) w B 0 Hnet Hwf)
    as ([? ?] & w1 & Hrun & _ & (l & [= -> ->] & [Hl0 Hl])).
  { split; [by rewrite length_replicate|]. by apply Forall_replicate. }
  { lia. }
  { apply Forall_replicate. constructor. }
  eexists. apply bind_Raise. unfold generate_step.
  rewrite (bind_Ok _ _ w _ w (deref_run idx w _ Hidx)), Hcrop.
  rewrite (bind_Ok _ _ w _ w1 Hrun).
  apply bind_Raise. unfold last_step.
  destruct l as [|r l]; [simpl in Hl0; lia|].
  apply Forall_inv in Hl. destruct r; [|discriminate Hl].
  simpl. apply bind_Raise. reflexivity.
Qed.

(** ** Training runs that cannot complete *)

Lemma logs_only_rng {A} P (c : M A) : rng_frame c → logs_only P c.
Proof.
  intros Hc w r w' Hrun. apply Hc in Hrun. rewrite Hrun. exists []. simpl.
  by rewrite app_nil_r.
Qed.

Lemma logs_only_bind {A B'} P (c : M A) (k : A → M B') :
  logs_only P c → (∀ a, logs_only P (k a)) → logs_only P (c ≫= k).
Proof.
  intros Hc Hk w r w' Hrun.
  apply bind_inv in Hrun as [(a & w1 & Hc1 & Hk1)|(e & Hc1 & ->)].
  - destruct (Hc _ _ _ Hc1) as (evs & Hlog & Hevs).
    destruct (Hk _ _ _ _ Hk1) as (evs' & Hlog' & Hevs').
    exists (evs ++ evs'). rewrite Hlog', Hlog, app_assoc. split; [done|].
    by apply Forall_app.
  - by eapply Hc.
Qed.

Lemma logs_only_emit (P : Event → Prop) ev : P ev → logs_only P (emit ev).
Proof. intros Hev w r w' [= <- <-]. exists [ev]. split; [done|]. by constructor. Qed.

Lemma logs_only_set_training P flag : logs_only P (set_training flag).
Proof.
  intros w r w' Hrun. apply set_training_log in Hrun. exists [].
  by rewrite app_nil_r.
Qed.

Lemma logs_only_estimate_loss (P : Event → Prop) :
  P EvEstimateLoss → logs_only P estimate_loss.
Proof.
  intros HP. unfold estimate_loss, GPT_eval, GPT_train.
  apply logs_only_bind; [apply logs_only_set_training|]. intros _.
  apply logs_only_bind; [by apply logs_only_emit|]. intros _.
  apply logs_only_bind; [apply logs_only_rng, rng_frame_estimate_split|]. intros lt.
  apply logs_only_bind; [apply logs_only_rng, rng_frame_estimate_split|]. intros le.
  apply logs_only_bind; [apply logs_only_set_training|]. intros _.
  apply logs_only_rng, rng_frame_ret.
Qed.

Lemma logs_only_periodic_estimate (P : Event → Prop) epoch i :
  P EvEstimateLoss → (∀ lt le, P (EvPrintStep i lt le)) →
  logs_only P (if decide (i ≠ epoch ∧ (i mod EVAL_INTERVAL)%Z = 0%Z)
               then estimate_loss ≫= λ '(lt, le), emit (EvPrintStep i lt le)
               else mret ()).
Proof.
  intros HP1 HP2. case_decide; [|apply logs_only_rng, rng_frame_ret].
  apply logs_only_bind; [by apply logs_only_estimate_loss|]. intros [lt le].
  by apply logs_only_emit.
Qed.

(** An optimization step that returns leaves a module and an optimizer. *)
Lemma optimization_step_Ok i (w : World) loss w' :
  optimization_step i w = (Ok loss, w') →
  is_Some (net w') ∧ is_Some (optimizer w').
Proof.
  unfold optimization_step. intros Hrun.
  apply bind_inv in Hrun as [([xb yb] & w1 & _ & Hrun)|(e & _ & [=])].
  apply bind_inv in Hrun as [(g & w2 & _ & Hrun)|(e & _ & [=])].
  apply bind_inv in Hrun as [([logits l] & w3 & _ & Hrun)|(e & _ & [=])].
  apply bind_inv in Hrun as [(l' & w4 & _ & Hrun)|(e & _ & [=])].
  apply bind_inv in Hrun as [(m & w5 & _ & Hrun)|(e & _ & [=])].
  apply bind_inv in Hrun as [(o & w6 & _ & Hrun)|(e & _ & [=])].
  destruct (AdamW_step o (state_dict m) (backward m xb yb g)) as [sd o'].
  injection Hrun as _ <-. simpl. eauto.
Qed.

(** [save_checkpoint] without a path: [torch.save] raises after the message
    of line 69 was printed. *)
Lemma save_checkpoint_None_run i loss (w : World) :
  is_Some (net w) → is_Some (optimizer w) →
  save_checkpoint None i loss w
  = (Raise AttributeError, set_log (log w ++ [EvPrintCheckpointing i]) w).
Proof.
  intros [m Hm] [o Ho].
  unfold save_checkpoint, emit, modify, self, the_optimizer, mbind, M_bind.
  simpl. rewrite Hm. simpl. by rewrite Ho.
Qed.

(** One epoch of a run without [--save-checkpoint]. *)
Lemma train_epoch_unsaved args epoch i (w : World) r w' :
  args_save_checkpoint args = None →
  train_epoch args epoch i w = (r, w') →
  ∃ evs, log w' = log w ++ evs
    ∧ ((r = Ok tt ∧ ¬ checkpoint_due args epoch i
        ∧ Forall (λ ev, ∀ j, ev ≠ EvPrintCheckpointing j) evs)
       ∨ (r = Raise AttributeError ∧ checkpoint_due args epoch i
          ∧ ∃ loss w0 w1 evs0,
              optimization_step i w0 = (Ok loss, w1)
              ∧ save_checkpoint None i (LossVal loss) w1 = (Raise AttributeError, w')
              ∧ evs = evs0 ++ [EvOptimizerStep i; EvPrintCheckpointing i])
       ∨ ((∃ e, r = Raise e)
          ∧ Forall (λ ev, ∀ j, ev ≠ EvPrintCheckpointing j) evs)).
Proof.
  intros Hsave. unfold train_epoch. rewrite Hsave. intros Hrun.
  apply bind_inv in Hrun as [(? & w1 & H1 & Hrun)|(e & H1 & ->)];
    apply (logs_only_periodic_estimate (λ ev, ∀ j, ev ≠ EvPrintCheckpointing j))
      in H1 as (evs1 & Hlog1 & Hevs1); try done.
  2:{ exists evs1. split; [done|]. right. right. eauto. }
  apply bind_inv in Hrun as [(loss & w2 & H2 & Hrun)|(e & H2 & ->)].
  2:{ apply optimization_step_log in H2. rewrite app_nil_r in H2.
      exists evs1. split; [congruence|]. right. right. eauto. }
  pose proof (optimization_step_Ok _ _ _ _ H2) as [Hnet Hopt].
  pose proof H2 as Hstep. apply optimization_step_log in H2.
  assert (Forall (λ ev, ∀ j, ev ≠ EvPrintCheckpointing j) (evs1 ++ [EvOptimizerStep i]))
    as Hevs2 by (apply Forall_app; split; [done|]; by constructor).
  apply bind_inv in Hrun as [(due & w3 & H3 & Hrun)|(e & H3 & ->)].
  2:{ apply interval_test_run in H3 as [-> _].
      exists (evs1 ++ [EvOptimizerStep i]). rewrite H2, Hlog1, app_assoc.
      split; [done|]. right. right. eauto. }
  apply interval_test_run in H3 as [-> Hdue]. rewrite (Hdue due eq_refl) in Hrun.
  destruct (decide (checkpoint_due args epoch i)) as [Hd|Hd].
  - rewrite bool_decide_eq_true_2 in Hrun by done.
    pose proof Hrun as Hrun'.
    rewrite (save_checkpoint_None_run i (LossVal loss) w2 Hnet Hopt) in Hrun.
    injection Hrun as <- <-.
    exists (evs1 ++ [EvOptimizerStep i; EvPrintCheckpointing i]). split.
    { simpl. rewrite H2, Hlog1, <- !app_assoc. done. }
    right. left. split; [done|]. split; [done|].
    exists loss, w1, w2, evs1. split; [done|]. split; [|done].
    by apply save_checkpoint_None_run.
  - rewrite bool_decide_eq_false_2 in Hrun by done. injection Hrun as <- <-.
    exists (evs1 ++ [EvOptimizerStep i]). rewrite H2, Hlog1, app_assoc.
    split; [done|]. by left.
Qed.

Lemma for_each_unsaved args epoch (l : list Z) :
  args_save_checkpoint args = None →
  ∀ (w : World) r w',
    for_each l (train_epoch args epoch) w = (r, w') →
    ∃ evs, log w' = log w ++ evs
      ∧ ((r = Ok tt ∧ Forall (λ i, ¬ checkpoint_due args epoch i) l)
         ∨ (r = Raise AttributeError
            ∧ ∃ i loss w0 w1 evs0, i ∈ l ∧ checkpoint_due args epoch i
                ∧ optimization_step i w0 = (Ok loss, w1)
                ∧ save_checkpoint None i (LossVal loss) w1 = (Raise AttributeError, w')
                ∧ evs = evs0 ++ [EvOptimizerStep i; EvPrintCheckpointing i])
         ∨ ((∃ e, r = Raise e)
            ∧ Forall (λ ev, ∀ j, ev ≠ EvPrintCheckpointing j) evs)).
Proof.
  intros Hsave. induction l as [|i l IH]; intros w r w' Hrun; simpl in Hrun.
  - injection Hrun as <- <-. exists []. rewrite app_nil_r. split; [done|]. by left.
  - apply bind_inv in Hrun as [([] & w1 & H1 & Hrun)|(e & H1 & ->)].
    + apply (train_epoch_unsaved _ _ _ _ _ _ Hsave) in H1
        as (evs1 & Hlog1 & [(_ & Hnd & Hevs1)|[([=] & _)|([e [=]] & _)]]).
      apply IH in Hrun as (evs2 & Hlog2 & Hcase).
      exists (evs1 ++ evs2). rewrite Hlog2, Hlog1, app_assoc. split; [done|].
      destruct Hcase as [[-> Hl]|[(-> & j & loss & wa & w2 & evs0 & Hj & Hd & Hst & Hsv & ->)
                                  |([e ->] & Hevs2)]].
      * left. split; [done|]. by constructor.
      * right. left. split; [done|]. exists j, loss, wa, w2, (evs1 ++ evs0).
        split; [by right|]. split; [done|]. split; [done|]. split; [done|].
        by rewrite app_assoc.
      * right. right. split; [eauto|]. by apply Forall_app.
    + apply (train_epoch_unsaved _ _ _ _ _ _ Hsave) in H1
        as (evs1 & Hlog1 & [([=] & _)|[(He & Hd & loss & wa & w2 & evs0 & Hst & Hsv & ->)
                                       |(_ & Hevs1)]]).
      * exists (evs0 ++ [EvOptimizerStep i; EvPrintCheckpointing i]). split; [done|].
        right. left. split; [done|]. exists i, loss, wa, w2, evs0.
        split; [by left|]. done.
      * exists evs1. split; [done|]. right. right. eauto.
Qed.

(** X8. A training run of at least one epoch without [--save-checkpoint]
    cannot complete.  Either it fails in a loss estimate or a training step
    before any checkpoint is attempted, or it reaches an epoch at which a
    checkpoint is due (the final epoch at the latest) and fails there: the
    optimizer step of the epoch returns, [save_checkpoint] is called with
    its loss and the path [None], prints its message and raises
    [AttributeError] at [torch.save], which ends the run. *)
Theorem training_without_save_path_fails args e0 (w : World) :
  args_save_checkpoint args = None → (e0 < args_epochs args)%Z →
  ∃ e w' evs,
    training_loop args e0 w = (Raise e, w') ∧ log w' = log w ++ evs
    ∧ ((e = AttributeError
        ∧ ∃ i loss w0 w1 evs0,
            (e0 ≤ i < args_epochs args)%Z ∧ checkpoint_due args e0 i
            ∧ optimization_step i w0 = (Ok loss, w1)
            ∧ save_checkpoint None i (LossVal loss) w1 = (Raise AttributeError, w')
            ∧ evs = evs0 ++ [EvOptimizerStep i; EvPrintCheckpointing i])
       ∨ Forall (λ ev, ∀ i, ev ≠ EvPrintCheckpointing i) evs).
Proof.
  intros Hsave HE.
  destruct (training_loop args e0 w) as [r w'] eqn:Hrun.
  unfold training_loop in Hrun.
  apply bind_inv in Hrun as [([] & w1 & [= <-] & Hrun)|(e & [=] & _)].
  apply (for_each_unsaved _ _ _ Hsave) in Hrun as (evs & Hlog & Hcase).
  simpl in Hlog. rewrite <- app_assoc in Hlog.
  destruct Hcase as [[-> Hl]|[(-> & i & loss & wa & w2 & evs0 & Hi & Hd & Hst & Hsv & ->)
                              |([e ->] & Hevs)]].
  - exfalso. rewrite Forall_forall in Hl.
    apply (Hl (args_epochs args - 1)%Z); [apply elem_of_range; lia | by right].
  - exists AttributeError, w', ([EvPrintStartingTraining] ++ evs0
                                 ++ [EvOptimizerStep i; EvPrintCheckpointing i]).
    split; [done|]. split; [done|]. left. split; [done|].
    exists i, loss, wa, w2, ([EvPrintStartingTraining] ++ evs0).
    split; [by apply elem_of_range|]. split; [done|]. split; [done|]. split; [done|].
    by rewrite <- app_assoc.
  - exists e, w', ([EvPrintStartingTraining] ++ evs). split; [done|]. split; [done|].
    right. apply Forall_app. split; [|done]. by constructor.
Qed.

Lemma logs_only_modify (P : Event → Prop) f :
  (∀ w, log (f w) = log w) → logs_only P (modify f).
Proof. intros Hf w r w' [= <- <-]. exists []. by rewrite Hf, app_nil_r. Qed.

Lemma logs_only_save_checkpoint (P : Event → Prop) path i loss :
  P (EvPrintCheckpointing i) → (∀ p, P (EvCheckpointWritten p i)) →
  logs_only P (save_checkpoint path i loss).
Proof.
  intros HP1 HP2. unfold save_checkpoint.
  apply logs_only_bind; [by apply logs_only_emit|]. intros _.
  apply logs_only_bind; [apply logs_only_rng, rng_frame_self|]. intros m.
  apply logs_only_bind; [apply logs_only_rng, rng_frame_the_optimizer|]. intros o.
  destruct path as [p|]; [|apply logs_only_rng, rng_frame_raise].
  apply logs_only_bind; [by apply logs_only_modify|]. intros _.
  by apply logs_only_emit.
Qed.

Lemma logs_only_optimization_step (P : Event → Prop) i :
  P (EvOptimizerStep i) → logs_only P (optimization_step i).
Proof.
  intros HP w r w' Hrun. apply optimization_step_log in Hrun.
  eexists. split; [exact Hrun|]. destruct r; by repeat constructor.
Qed.

(** The events of epoch [i] of the loop. *)
Lemma logs_only_train_epoch (P : Event → Prop) args epoch i :
  P EvEstimateLoss → (∀ lt le, P (EvPrintStep i lt le)) → P (EvOptimizerStep i) →
  P (EvPrintCheckpointing i) → (∀ p, P (EvCheckpointWritten p i)) →
  logs_only P (train_epoch args epoch i).
Proof.
  intros HP1 HP2 HP3 HP4 HP5. unfold train_epoch.
  apply logs_only_bind; [by apply logs_only_periodic_estimate|]. intros _.
  apply logs_only_bind; [by apply logs_only_optimization_step|]. intros loss.
  apply logs_only_bind.
  { intros w r w' Hrun. apply interval_test_run in Hrun as [-> _].
    exists []. by rewrite app_nil_r. }
  intros due. destruct (due || _); [by apply logs_only_save_checkpoint|].
  apply logs_only_rng, rng_frame_ret.
Qed.

(** An epoch other than the starting one, with a checkpoint interval of
    zero. *)
Lemma train_epoch_zero_interval args epoch i (w : World) r w' :
  args_checkpoint_interval args = 0%Z → i ≠ epoch →
  train_epoch args epoch i w = (r, w') →
  ∃ evs, log w' = log w ++ evs
    ∧ ((r = Raise ZeroDivisionError
        ∧ (∃ w0 loss, optimization_step i w0 = (Ok loss, w'))
        ∧ ∃ evs0, evs = evs0 ++ [EvOptimizerStep i])
       ∨ ((∃ e, r = Raise e) ∧ Forall (λ ev, ev ≠ EvOptimizerStep i) evs)).
Proof.
  intros Hint Hi. unfold train_epoch. rewrite Hint. intros Hrun.
  apply bind_inv in Hrun as [(? & w1 & H1 & Hrun)|(e & H1 & ->)];
    apply (logs_only_periodic_estimate (λ ev, ev ≠ EvOptimizerStep i))
      in H1 as (evs1 & Hlog1 & Hevs1); try done.
  2:{ exists evs1. split; [done|]. right. eauto. }
  apply bind_inv in Hrun as [(loss & w2 & H2 & Hrun)|(e & H2 & ->)].
  2:{ apply optimization_step_log in H2. rewrite app_nil_r in H2.
      exists evs1. split; [congruence|]. right. eauto. }
  pose proof H2 as Hstep. apply optimization_step_log in H2.
  rewrite decide_True in Hrun by done. unfold py_mod in Hrun.
  rewrite decide_True in Hrun by done.
  injection Hrun as <- <-.
  exists (evs1 ++ [EvOptimizerStep i]). rewrite H2, Hlog1, app_assoc.
  split; [done|]. left. split; [done|]. split; [eauto|]. eauto.
Qed.

Lemma Forall_not_elem_of {A} (x : A) (l : list A) : Forall (λ y, y ≠ x) l → x ∉ l.
Proof. rewrite Forall_forall. intros Hl Hx. by apply (Hl x Hx). Qed.

(** X9. With [--checkpoint-interval 0] a training run of at least two
    epochs cannot complete.  Either it fails before the optimizer step of
    the second epoch of the loop has returned (in a loss estimate or a
    training step), or this step returns and the test that follows it,
    [i % args.checkpoint_interval], raises [ZeroDivisionError], which ends
    the run. *)
Theorem zero_checkpoint_interval_fails args e0 (w : World) :
  args_checkpoint_interval args = 0%Z → (e0 + 1 < args_epochs args)%Z →
  ∃ e w' evs,
    training_loop args e0 w = (Raise e, w') ∧ log w' = log w ++ evs
    ∧ ((e = ZeroDivisionError
        ∧ (∃ w0 loss, optimization_step (e0 + 1) w0 = (Ok loss, w'))
        ∧ py_mod (e0 + 1) (args_checkpoint_interval args) w'
          = (Raise ZeroDivisionError, w')
        ∧ ∃ evs0, evs = evs0 ++ [EvOptimizerStep (e0 + 1)])
       ∨ EvOptimizerStep (e0 + 1)%Z ∉ evs).
Proof.
  intros Hint HE.
  destruct (training_loop args e0 w) as [r w'] eqn:Hrun.
  unfold training_loop in Hrun.
  apply bind_inv in Hrun as [([] & w1 & [= <-] & Hrun)|(e & [=] & _)].
  rewrite (range_cons e0) in Hrun by lia.
  rewrite (range_cons (e0 + 1)) in Hrun by lia.
  cbn [for_each] in Hrun.
  assert (Forall (λ ev, ev ≠ EvOptimizerStep (e0 + 1)) [EvPrintStartingTraining])
    as Hstart by (by repeat constructor).
  apply bind_inv in Hrun as [([] & w2 & H2 & Hrun)|(e & H2 & ->)];
    apply (logs_only_train_epoch (λ ev, ev ≠ EvOptimizerStep (e0 + 1)))
      in H2 as (evs2 & Hlog2 & Hevs2); try done.
  2:{ intros [=]. lia. }
  3:{ intros [=]. lia. }
  2:{ exists e, w', ([EvPrintStartingTraining] ++ evs2).
      split; [done|]. simpl in Hlog2. rewrite <- app_assoc in Hlog2. split; [done|].
      right. apply not_elem_of_app. split; by apply Forall_not_elem_of. }
  simpl in Hlog2. rewrite <- app_assoc in Hlog2.
  apply bind_inv in Hrun as [([] & w3 & H3 & Hrun)|(e & H3 & ->)];
    apply (train_epoch_zero_interval _ _ _ _ _ _ Hint) in H3
      as (evs3 & Hlog3 & Hcase); try lia.
  { destruct Hcase as [([=] & _)|([e [=]] & _)]. }
  rewrite Hlog2, <- app_assoc in Hlog3.
  destruct Hcase as [(-> & Hstep & evs0 & ->)|([e' [= <-]] & Hevs3)].
  - exists ZeroDivisionError, w', ([EvPrintStartingTraining] ++ evs2 ++ evs0
                                     ++ [EvOptimizerStep (e0 + 1)]).
    split; [done|]. split; [done|]. left. split; [done|]. split; [done|].
    split; [unfold py_mod; by rewrite decide_True|].
    exists ([EvPrintStartingTraining] ++ evs2 ++ evs0). by rewrite <- !app_assoc.
  - exists e, w', ([EvPrintStartingTraining] ++ evs2 ++ evs3).
    split; [done|]. split; [done|]. right.
    rewrite !not_elem_of_app. repeat split; by apply Forall_not_elem_of.
Qed.

End Proofs.

(** ** The statements above on concrete inputs *)

Section Runs.
#[local] Existing Instance small_config.
#[local] Existing Instance idle_engine.
#[local] Existing Instance unary_tokenizers.

Lemma after_setup_run args :
  (main_setup args start_world).1 = Ok (1, 0%Z, LossInf) →
  main_setup args start_world = (Ok (1, 0%Z, LossInf), after_setup args).
Proof. unfold after_setup. destruct (main_setup args start_world). simpl. by intros ->. Qed.

Lemma setup_generate_5 :
  (main_setup (small_args (Some 5%Z) None 0) start_world).1 = Ok (1, 0%Z, LossInf).
Proof. vm_compute. reflexivity. Qed.

Lemma setup_train_1 :
  (main_setup (small_args None None 1) start_world).1 = Ok (1, 0%Z, LossInf).
Proof. vm_compute. reflexivity. Qed.



(** C4, as stated, fails: with 5 heads for an embedding width of 384
    (384 % 5 = 4) construction returns a model. *)
Lemma construction_succeeds_with_five_heads :
  @EMBED_SIZE five_heads_config mod @NUM_HEADS five_heads_config ≠ 0
  ∧ ∃ m w', @GPT_init five_heads_config _ _ 65 start_world = (Ok m, w').
Proof.
  split; [by vm_compute|].
  destruct (@total_GPT_init five_heads_config _ _ 65 start_world)
    as (m & w' & Hrun & _); [by vm_compute|]. eauto.
Qed.

(** C5, as stated, fails: with a checkpoint path that names no file, the
    error is raised only after the tokenizer was trained, both data files
    were tokenized and the model and the optimizer were constructed. *)
Lemma missing_checkpoint_found_after_construction :
  let args := small_args None (Some "missing.pt"%string) 1 in
  fs start_world !! "missing.pt"%string = None
  ∧ (main args start_world).1 = Raise (FileNotFoundError "missing.pt")
  ∧ log (main args start_world).2 =
      [EvPrintDevice; EvTokenizerTrained; EvPrintSavingTokenizer "tok.json";
       EvPrintTokenizing TRAIN; EvDataTokenized TRAIN;
       EvPrintTokenizing EVAL; EvDataTokenized EVAL; EvPrintFinishedLoading;
       EvModelConstructed 1; EvOptimizerConstructed]
  ∧ is_Some (net (main args start_world).2).
Proof.
  split; [vm_compute; reflexivity|]. split; [vm_compute; reflexivity|].
  split; [vm_compute; reflexivity|]. vm_compute. eauto.
Qed.

(** C6, as stated, fails: in a run of one epoch the starting epoch 0 is
    also the final one, and a checkpoint is written at it. *)
Lemma checkpoint_at_starting_epoch :
  let args := small_args None None 1 in
  let run := training_loop args 0 (after_setup args) in
  run.1 = Ok tt
  ∧ saved_epochs (drop (length (log (after_setup args))) (log run.2)) = [0%Z]
  ∧ ∃ c, fs run.2 !! "ck.pt"%string = Some (FCheckpoint c) ∧ ck_epoch c = 0%Z.
Proof.
  split; [vm_compute; reflexivity|]. split; [vm_compute; reflexivity|].
  vm_compute. eauto.
Qed.

(** C10, as stated, fails for N = 0: the sequence [generate] returns is
    then not a newly built tensor but the caller's own context tensor, the
    one at address 0 that existed before the call; nothing is built. *)
Lemma generate_returns_its_argument :
  heap one_token_world !! 0 = Some [[0]]
  ∧ generate 0 0 one_token_world = (Ok 0, one_token_world)
  ∧ length (heap (generate 0 0 one_token_world).2) = length (heap one_token_world).
Proof.
  split; [vm_compute; reflexivity|]. split; vm_compute; reflexivity.
Qed.

Lemma net_one_token_world :
  net one_token_world = net (after_setup (small_args None None 1)).
Proof. vm_compute. reflexivity. Qed.

Lemma causal_attention_weights_witness :
  2 ≤ @SEQ_LEN (source_config 1)
  ∧ ∃ wei,
      Head_attention ones_head
        [[replicate 384 1%R; replicate 384 2%R]] start_world = (Ok wei, start_world)
      ∧ entry wei 0 0 1 = Some 0%R.
Proof.
  split; [simpl; lia|].
  destruct (@causal_attention_weights (source_config 1) _ _ ones_head
              [[replicate 384 1%R; replicate 384 2%R]] 2 start_world)
    as (wei & Hrun & Hzero).
  - reflexivity.
  - by repeat constructor.
  - simpl. lia.
  - exists wei. split; [exact Hrun|]. apply Hzero; simpl; lia.
Defined.


Lemma generate_frame_witness :
  net (generate 0 2 one_token_world).2 = net one_token_world
  ∧ heap (generate 0 2 one_token_world).2 !! 0 = Some [[0]].
Proof.
  destruct (generate_frame 0 2 one_token_world) as (Hnet & _ & _ & _ & Hheap & _).
  split; [exact Hnet|]. apply Hheap. vm_compute. reflexivity.
Defined.


Lemma construction_has_no_divisibility_check_witness :
  0 < @NUM_HEADS five_heads_config
  ∧ ∃ m w', @GPT_init five_heads_config _ _ 65 start_world = (Ok m, w')
            ∧ length (blocks (state_dict m)) = 6.
Proof.
  split; [simpl; lia|].
  destruct (@construction_has_no_divisibility_check five_heads_config _ _ 65 start_world)
    as (m & w' & Hrun & _ & Hlen & _); [simpl; lia|].
  exists m, w'. exact (conj Hrun Hlen).
Defined.

Lemma missing_checkpoint_is_fatal_witness :
  fs start_world !! "missing.pt"%string = None
  ∧ ∃ e w', main (small_args None (Some "missing.pt"%string) 1) start_world
            = (Raise e, w').
Proof.
  split; [vm_compute; reflexivity|].
  destruct (missing_checkpoint_is_fatal
              (small_args None (Some "missing.pt"%string) 1) "missing.pt" start_world)
    as (e & w' & evs & Hrun & _).
  - reflexivity.
  - discriminate.
  - vm_compute. reflexivity.
  - exists e, w'. exact Hrun.
Defined.

Lemma checkpoints_of_training_loop_witness :
  let args := small_args None None 1 in
  ∃ evs, log (training_loop args 0 (after_setup args)).2
         = log (after_setup args) ++ evs
         ∧ (0%Z ∈ saved_epochs evs ↔ 0%Z = (1 - 1)%Z).
Proof.
  intros args.
  destruct (checkpoints_of_training_loop args 0 (after_setup args))
    as (evs & Hlog & _ & Hall).
  exists evs. split; [exact Hlog|]. apply Hall. vm_compute. reflexivity.
Defined.

Lemma generation_length_is_300_witness :
  let args := small_args (Some 5%Z) None 0 in
  ∃ w2 row,
    main args start_world = (Ok tt, w2)
    ∧ log w2 = log (after_setup args)
                 ++ [EvPrintGenerating 5; EvGenerate 300;
                     EvPrintText (decode (1 : @Tokenizer unary_tokenizers) row)]
    ∧ length row = 301.
Proof.
  intros args.
  destruct (generation_length_is_300 args 5 (1 : @Tokenizer unary_tokenizers) 0 LossInf start_world
              (after_setup args))
    as (w2 & row & Hrun & Hlog & Hlen & _).
  - reflexivity.
  - discriminate.
  - apply after_setup_run, setup_generate_5.
  - simpl. lia.
  - simpl. lia.
  - simpl. lia.
  - exists w2, row. exact (conj Hrun (conj Hlog Hlen)).
Defined.

Lemma checkpoint_round_trip_witness :
  ∃ w1 w3,
    @save_checkpoint grouped_engine unary_tokenizers (Some "ck.pt"%string) 7 (LossVal 1)
      trained_world = (Ok tt, w1)
    ∧ net (fresh_process w1) = Some (one_param_model 2)
    ∧ optimizer (fresh_process w1) = Some ((1, 0) : @OptState grouped_engine)
    ∧ @load_checkpoint grouped_engine unary_tokenizers "ck.pt" (fresh_process w1)
      = (Ok (7%Z, LossVal 1), w3)
    ∧ net w3 = Some (one_param_model 1)
    ∧ optimizer w3 = Some ((1, 3) : @OptState grouped_engine).
Proof.
  destruct (@checkpoint_round_trip small_config grouped_engine unary_tokenizers
              "ck.pt" 7 (LossVal 1) (one_param_model 1)
              ((1, 3) : @OptState grouped_engine) trained_world)
    as (w1 & Hsave & Hfile & _ & Hload & _); [reflexivity..|].
  destruct (Hload (fresh_process w1) (one_param_model 2)
              ((1, 0) : @OptState grouped_engine))
    as (w3 & Hrun & Hnet & Hopt & _); [exact Hfile | reflexivity..|].
  exists w1, w3. split; [exact Hsave|]. split; [reflexivity|]. split; [reflexivity|].
  split; [exact Hrun|]. split; [exact Hnet | exact Hopt].
Defined.

Lemma generation_path_runs_dropout_witness :
  let args := small_args (Some 5%Z) None 0 in
  ∃ m, net (after_setup args) = Some m ∧ training m = true.
Proof.
  intros args.
  destruct (generation_path_runs_dropout args (1 : @Tokenizer unary_tokenizers) 0 LossInf start_world
              (after_setup args))
    as (m & Hnet & Htrain & _).
  - apply after_setup_run, setup_generate_5.
  - simpl. lia.
  - simpl. lia.
  - simpl. lra.
  - exists m. exact (conj Hnet Htrain).
Defined.

Lemma attention_rows_are_distributions_witness :
  2 ≤ @SEQ_LEN (source_config 1)
  ∧ ∃ wei row,
      Head_attention ones_head
        [[replicate 384 1%R; replicate 384 2%R]] start_world = (Ok wei, start_world)
      ∧ wei !! 0 ≫= (.!! 1) = Some row
      ∧ vsum row = 1%R.
Proof.
  split; [simpl; lia|].
  destruct (@attention_rows_are_distributions (source_config 1) _ _ ones_head
              [[replicate 384 1%R; replicate 384 2%R]] 2 start_world)
    as (wei & Hrun & Hrows).
  - reflexivity.
  - by repeat constructor.
  - simpl. lia.
  - destruct (Hrows 0 1) as (row & Hrow & _ & Hsum & _); [simpl; lia..|].
    exists wei, row. exact (conj Hrun (conj Hrow Hsum)).
Defined.

Lemma get_batch_raises_on_short_stream_witness :
  length (DATA start_world TRAIN) ≤ SEQ_LEN
  ∧ get_batch TRAIN start_world = (Raise RuntimeError, start_world).
Proof.
  split; [simpl; lia|]. apply get_batch_raises_on_short_stream. simpl. lia.
Defined.

Lemma generate_zero_trains_witness :
  main (small_args (Some 0%Z) None 0) start_world
  = main (small_args None None 0) start_world.
Proof.
  exact (generate_zero_trains (small_args (Some 0%Z) None 0) start_world eq_refl).
Defined.

Lemma eval_world_net :
  ∃ m, net eval_world = Some m ∧ training m = false.
Proof.
  destruct (main_setup_Ok _ _ _ _ _ _ (after_setup_run _ setup_train_1))
    as (m & Hnet & _); [simpl; lia|].
  exists {| state_dict := state_dict m; training := false |}.
  unfold eval_world, GPT_eval. rewrite (set_training_run false _ m Hnet).
  exact (conj eq_refl eq_refl).
Qed.

Lemma eval_forward_is_pure_witness :
  (GPT_forward [[0]] None eval_world).2 = eval_world.
Proof.
  destruct eval_world_net as (m & Hnet & Hmode).
  exact (proj1 (eval_forward_is_pure [[0]] None eval_world m Hnet Hmode)).
Defined.

Lemma forward_raises_on_unknown_token_witness :
  let w := after_setup (small_args None None 1) in
  GPT_forward [[5]] None w = (Raise IndexError, w).
Proof.
  intros w.
  destruct (main_setup_Ok _ _ _ _ _ _ (after_setup_run _ setup_train_1))
    as (m & Hnet & _ & Hte & _); [simpl; lia|].
  apply (forward_raises_on_unknown_token m [[5]] None w Hnet).
  rewrite Hte. intros Hall. apply Forall_inv, Forall_inv in Hall. simpl in Hall. lia.
Defined.

Lemma forward_raises_on_long_context_witness :
  let w := after_setup (small_args None None 1) in
  SEQ_LEN < 3 ∧ GPT_forward [[0; 0; 0]] None w = (Raise IndexError, w).
Proof.
  intros w. split; [simpl; lia|].
  destruct (main_setup_Ok _ _ _ _ _ _ (after_setup_run _ setup_train_1))
    as (m & Hnet & _ & Hte & Hpe & _); [simpl; lia|].
  apply (forward_raises_on_long_context m [[0; 0; 0]] None w 1 3 Hnet Hpe).
  - rewrite Hte. repeat constructor.
  - split; [reflexivity|]. by repeat constructor.
  - lia.
  - simpl. lia.
Defined.

Lemma estimate_loss_mode_witness :
  let w := after_setup (small_args None None 1) in
  ∃ m, net w = Some m
       ∧ optimizer (estimate_loss w).2 = optimizer w
       ∧ fs (estimate_loss w).2 = fs w.
Proof.
  intros w.
  destruct (main_setup_Ok _ _ _ _ _ _ (after_setup_run _ setup_train_1))
    as (m & Hnet & _); [simpl; lia|].
  destruct (estimate_loss_mode m w Hnet) as (_ & Hopt & _ & Hfs).
  exists m. exact (conj Hnet (conj Hopt Hfs)).
Defined.

Lemma unsaved_run :
  (training_loop (unsaved_args 1) 0 (after_setup (unsaved_args 1))).1
  = Raise AttributeError
  ∧ log (training_loop (unsaved_args 1) 0 (after_setup (unsaved_args 1))).2
    = log (after_setup (unsaved_args 1))
        ++ [EvPrintStartingTraining; EvOptimizerStep 0; EvPrintCheckpointing 0].
Proof. split; vm_compute; reflexivity. Qed.

Lemma training_without_save_path_fails_witness :
  ∃ w' loss w0 w1,
    training_loop (unsaved_args 1) 0 (after_setup (unsaved_args 1))
    = (Raise AttributeError, w')
    ∧ optimization_step 0 w0 = (Ok loss, w1)
    ∧ save_checkpoint None 0 (LossVal loss) w1 = (Raise AttributeError, w')
    ∧ log w' = log (after_setup (unsaved_args 1))
                 ++ [EvPrintStartingTraining; EvOptimizerStep 0; EvPrintCheckpointing 0].
Proof.
  destruct (training_without_save_path_fails (unsaved_args 1) 0
              (after_setup (unsaved_args 1)))
    as (e & w' & evs & Hrun & Hlog & Hcase); [reflexivity | reflexivity |].
  pose proof unsaved_run as [He Hl]. rewrite Hrun in He, Hl.
  cbn [fst snd] in He, Hl. injection He as ->.
  destruct Hcase as [(_ & i & loss & w0 & w1 & evs0 & Hi & _ & Hstep & Hsv & _)|Hnone].
  - assert (i = 0%Z) as -> by (cbn [args_epochs unsaved_args] in Hi; lia).
    exists w', loss, w0, w1.
    exact (conj Hrun (conj Hstep (conj Hsv Hl))).
  - exfalso. rewrite Hlog in Hl. apply app_inv_head in Hl. subst evs.
    rewrite Forall_forall in Hnone.
    apply (Hnone (EvPrintCheckpointing 0)) with 0%Z; [|exact eq_refl].
    apply list_elem_of_further, list_elem_of_further, list_elem_of_here.
Defined.

Lemma zero_interval_run :
  (training_loop (zero_interval_args 2) 0 (after_setup (zero_interval_args 2))).1
  = Raise ZeroDivisionError
  ∧ log (training_loop (zero_interval_args 2) 0 (after_setup (zero_interval_args 2))).2
    = log (after_setup (zero_interval_args 2))
        ++ [EvPrintStartingTraining; EvOptimizerStep 0; EvOptimizerStep 1].
Proof. split; vm_compute; reflexivity. Qed.

Lemma zero_checkpoint_interval_fails_witness :
  ∃ w' w0 loss,
    training_loop (zero_interval_args 2) 0 (after_setup (zero_interval_args 2))
    = (Raise ZeroDivisionError, w')
    ∧ optimization_step 1 w0 = (Ok loss, w')
    ∧ log w' = log (after_setup (zero_interval_args 2))
                 ++ [EvPrintStartingTraining; EvOptimizerStep 0; EvOptimizerStep 1].
Proof.
  destruct (zero_checkpoint_interval_fails (zero_interval_args 2) 0
              (after_setup (zero_interval_args 2)))
    as (e & w' & evs & Hrun & Hlog & Hcase); [reflexivity | reflexivity |].
  pose proof zero_interval_run as [He Hl]. rewrite Hrun in He, Hl.
  cbn [fst snd] in He, Hl. injection He as ->.
  destruct Hcase as [(_ & (w0 & loss & Hstep) & _)|Hnone].
  - exists w', w0, loss. exact (conj Hrun (conj Hstep Hl)).
  - exfalso. rewrite Hlog in Hl. apply app_inv_head in Hl. subst evs.
    apply Hnone.
    apply list_elem_of_further, list_elem_of_further, list_elem_of_here.
Defined.

Lemma main_without_epochs_trains_nothing_witness :
  let args := small_args (Some 0%Z) None 0 in
  main args start_world
  = (Ok tt, set_log (log (after_setup args) ++ [EvPrintStartingTraining]) (after_setup args)).
Proof.
  intros args.
  apply (main_without_epochs_trains_nothing args start_world
           (1 : @Tokenizer unary_tokenizers) 0 LossInf (after_setup args)).
  - apply after_setup_run. vm_compute. reflexivity.
  - right. reflexivity.
  - simpl. lia.
Defined.

Lemma preprocess_cache_round_trip_witness :
  ∃ w1, preprocess_split TRAIN (Some "t"%string) (1 : @Tokenizer unary_tokenizers) start_world
        = (Ok tt, w1)
    ∧ DATA w1 TRAIN = [0; 0; 0; 0]
    ∧ ∃ w3, preprocess_split TRAIN (Some "t"%string) (7 : @Tokenizer unary_tokenizers) w1
            = (Ok tt, w3)
        ∧ DATA w3 TRAIN = [0; 0; 0; 0].
Proof.
  destruct (preprocess_cache_round_trip TRAIN "t" "ab" (1 : @Tokenizer unary_tokenizers)
              start_world) as (w1 & Hrun & Hdata & _ & Hagain).
  - vm_compute. reflexivity.
  - vm_compute. reflexivity.
  - exists w1. split; [exact Hrun|]. split; [exact Hdata|].
    destruct (Hagain (7 : @Tokenizer unary_tokenizers) w1 eq_refl) as (w3 & Hrun3 & Hdata3 & _).
    exists w3. exact (conj Hrun3 Hdata3).
Defined.

Lemma get_tokenizer_round_trip_witness :
  let w1 := (get_tokenizer (Some "t"%string) (Some "e"%string) "tok.json" start_world).2 in
  ∃ w3, get_tokenizer None None "tok.json" w1
        = (Ok (1 : @Tokenizer unary_tokenizers), w3)
    ∧ fs w3 = fs w1.
Proof.
  intros w1.
  apply (get_tokenizer_round_trip (Some "t"%string) (Some "e"%string) "tok.json" start_world
           (1 : @Tokenizer unary_tokenizers) w1); [|reflexivity].
  vm_compute. reflexivity.
Defined.

Lemma load_checkpoint_is_not_atomic_witness :
  net foreign_checkpoint_world = Some (one_param_model 2)
  ∧ ∃ w', @load_checkpoint grouped_engine unary_tokenizers "ck.pt" foreign_checkpoint_world
          = (Raise ValueError, w')
      ∧ net w' = Some (one_param_model 1)
      ∧ net w' ≠ net foreign_checkpoint_world
      ∧ optimizer w' = Some ((1, 0) : @OptState grouped_engine).
Proof.
  split; [reflexivity|].
  destruct (@load_checkpoint_is_not_atomic grouped_engine unary_tokenizers "ck.pt"
              {| ck_epoch := 3; ck_model_state_dict := state_dict (one_param_model 1);
                 ck_optimizer_state_dict := ((2, 5) : @OptState grouped_engine);
                 ck_loss := LossInf |}
              (one_param_model 2) ((1, 0) : @OptState grouped_engine)
              foreign_checkpoint_world)
    as (w' & Hrun & Hnet & Hopt).
  - reflexivity.
  - reflexivity.
  - vm_compute. reflexivity.
  - reflexivity.
  - simpl. intros [=].
  - exists w'. split; [exact Hrun|]. split; [exact Hnet|]. split; [|exact Hopt].
    rewrite Hnet. simpl. intros [= H12]. lra.
Defined.

Lemma generate_stays_in_vocabulary_witness :
  heap one_token_world !! 0 = Some [[0]]
  ∧ ∃ out w' ctx',
      generate 0 3 one_token_world = (Ok out, w')
      ∧ heap w' !! out = Some ctx' ∧ tokens_below 1 ctx'.
Proof.
  split; [vm_compute; reflexivity|].
  destruct (main_setup_Ok _ _ _ _ _ _ (after_setup_run _ setup_train_1))
    as (m & Hnet & _ & Hwf); [simpl; lia|].
  destruct (generate_stays_in_vocabulary 1 m 0 [[0]] one_token_world 1 1 3)
    as (out & w' & ctx' & Hrun & Hout & _ & _ & _ & Hbelow & _).
  - rewrite net_one_token_world. exact Hnet.
  - exact Hwf.
  - simpl. lia.
  - lia.
  - vm_compute. reflexivity.
  - split; [reflexivity|]. by repeat constructor.
  - lia.
  - by repeat constructor.
  - exists out, w', ctx'. exact (conj Hrun (conj Hout Hbelow)).
Defined.

Lemma estimate_loss_after_setup :
  match (estimate_loss (after_setup (small_args None None 1))).1 with
  | Ok _ => True
  | Raise _ => False
  end.
Proof. vm_compute. exact I. Qed.

Lemma estimate_loss_draws_batches_only_witness :
  let w := after_setup (small_args None None 1) in
  ∃ l w', estimate_loss w = (Ok l, w')
    ∧ generator w' = advance 200 (generator w).
Proof.
  intros w. pose proof estimate_loss_after_setup as HOk. fold w in HOk.
  destruct (main_setup_Ok _ _ _ _ _ _ (after_setup_run _ setup_train_1))
    as (m & Hnet & _); [simpl; lia|].
  destruct (estimate_loss w) as [[l|e] w'] eqn:Hrun; [|destruct HOk].
  exists l, w'. split; [reflexivity|].
  exact (proj1 (estimate_loss_draws_batches_only m w l w' Hnet Hrun)).
Defined.

Lemma training_schedule_witness :
  let args := small_args None None 1 in
  ∃ evs, log (training_loop args 0 (after_setup args)).2 = log (after_setup args) ++ evs
         ∧ omap milestone evs = [Stepped 0; Saved 0].
Proof.
  intros args.
  destruct (training_schedule args 0 (after_setup args)) as (evs & Hlog & _ & Hall).
  exists evs. split; [exact Hlog|].
  destruct Hall as [Hall _]; [vm_compute; reflexivity|]. exact Hall.
Defined.

Lemma new_model_biases_are_zero_witness :
  ∃ m w', GPT_init 1 start_world = (Ok m, w')
          ∧ bias (lm_head (state_dict m)) = Some (zeros 1).
Proof.
  destruct (total_GPT_init 1 start_world) as (m & w' & Hrun & _); [simpl; lia|].
  exists m, w'. split; [exact Hrun|].
  exact (proj1 (proj2 (new_model_biases_are_zero 1 start_world m w' Hrun))).
Defined.

Lemma after_setup_lm_head_bias :
  (λ m, bias (lm_head (state_dict m))) <$> net (after_setup (small_args None None 1))
  = Some (Some [0%R]).
Proof. vm_compute. reflexivity. Qed.

Lemma forward_logits_shape_witness :
  let w := after_setup (small_args None None 1) in
  ∃ l w', GPT_forward [[0; 0]] None w = (Ok (Logits3 l, None), w')
    ∧ Forall (Forall (λ r, length r = 1)) l.
Proof.
  intros w.
  destruct (main_setup_Ok _ _ _ _ _ _ (after_setup_run _ setup_train_1))
    as (m & Hnet & _ & Hwf); [simpl; lia|].
  pose proof after_setup_lm_head_bias as Hbias. rewrite Hnet in Hbias.
  injection Hbias as Hbias.
  destruct (forward_logits_shape 1 m [[0; 0]] w 1 2 Hnet Hwf) as (l & w' & Hrun & _ & Hl).
  - unfold bias_fits. rewrite Hbias. destruct Hwf as (_ & _ & _ & ->). reflexivity.
  - split; [reflexivity|]. by repeat constructor.
  - simpl. lia.
  - repeat constructor.
  - exists l, w'. exact (conj Hrun Hl).
Defined.

Lemma two_token_setup :
  (main_setup (small_args None None 1) (initial_world two_token_files counting_generator)).1
  = Ok (2, 0%Z, LossInf).
Proof. vm_compute. reflexivity. Qed.

Lemma two_token_masks :
  (λ m, (λ b, tril <$> heads (sa b)) <$> blocks (state_dict m))
    <$> net (main_setup (small_args None None 1)
               (initial_world two_token_files counting_generator)).2
  = Some [[tril_ones 2]].
Proof. vm_compute. reflexivity. Qed.

Lemma two_token_embeddings :
  (λ m, token_embedding_table (state_dict m)) <$> net two_token_world
  = Some [[INR 74; INR 75]; [INR 76; INR 77]].
Proof. vm_compute. reflexivity. Qed.

Lemma run_eq {A} (c : M A) (w : World) r : (c w).1 = r → c w = (r, (c w).2).
Proof. destruct (c w). simpl. by intros ->. Qed.

Lemma two_token_world_model :
  ∃ m, net two_token_world = Some m ∧ training m = false
       ∧ GPT_wf 2 (state_dict m)
       ∧ Forall Block_causal (blocks (state_dict m)).
Proof.
  destruct (main_setup_Ok _ _ _ _ _ _ (run_eq _ _ _ two_token_setup))
    as (m & Hnet & _ & Hwf); [simpl; lia|].
  pose proof two_token_masks as Hmasks. rewrite Hnet in Hmasks.
  injection Hmasks as Hmasks.
  exists {| state_dict := state_dict m; training := false |}.
  split; [|split; [reflexivity|split; [exact Hwf|]]].
  - unfold two_token_world, GPT_eval. rewrite (set_training_run false _ m Hnet).
    exact eq_refl.
  - change (Forall Block_causal (blocks (state_dict m))).
    destruct (blocks (state_dict m)) as [|b [|? ?]]; try discriminate Hmasks.
    injection Hmasks as Hmasks. constructor; [|constructor].
    destruct (heads (sa b)) as [|h [|? ?]] eqn:Hheads; try discriminate Hmasks.
    injection Hmasks as Hmasks. split.
    + by rewrite Hheads.
    + rewrite Hheads. constructor; [exact Hmasks | constructor].
Qed.

Lemma eval_forward_is_causal_witness :
  (λ m, token_embedding_table (state_dict m)) <$> net two_token_world
  = Some [[INR 74; INR 75]; [INR 76; INR 77]]
  ∧ ∃ l l',
      GPT_forward [[0; 0]] None two_token_world = (Ok (Logits3 l, None), two_token_world)
      ∧ GPT_forward [[0; 1]] None two_token_world = (Ok (Logits3 l', None), two_token_world)
      ∧ take 1 <$> l' = take 1 <$> l.
Proof.
  split; [exact two_token_embeddings|].
  destruct two_token_world_model as (m & Hnet & Hmode & Hwf & Hcausal).
  destruct (eval_forward_is_causal 2 m [[0; 0]] [[0; 1]] two_token_world 1 2 1
              Hnet Hmode Hwf Hcausal)
    as (l & l' & Hl & Hl' & _ & _ & Hk).
  - split; [reflexivity|]. repeat constructor.
  - split; [reflexivity|]. repeat constructor.
  - simpl. lia.
  - repeat constructor.
  - repeat constructor.
  - reflexivity.
  - exists l, l'. exact (conj Hl (conj Hl' Hk)).
Defined.

Lemma next_token_depends_on_window_witness :
  let w := (alloc [[0; 0]] (alloc [[7; 0; 0]] (after_setup (small_args None None 1))).2).2 in
  match generate_step 0 w, generate_step 1 w with
  | (Ok l1, w1), (Ok l2, w2) =>
      ∃ next, heap w1 = heap w ++ [zip_with app [[7; 0; 0]] next]
              ∧ heap w2 = heap w ++ [zip_with app [[0; 0]] next]
              ∧ generator w1 = generator w2
  | (Raise e1, w1), (Raise e2, w2) => e1 = e2 ∧ w1 = w2
  | _, _ => False
  end.
Proof.
  intros w.
  apply (next_token_depends_on_window 0 1 [[7; 0; 0]] [[0; 0]] w).
  - vm_compute. reflexivity.
  - vm_compute. reflexivity.
  - vm_compute. reflexivity.
Defined.

Lemma first_position_attends_to_itself_witness :
  2 ≤ @SEQ_LEN (source_config 1)
  ∧ ∃ out,
      @Head_forward (source_config 1) _ _ ones_head false
        [[replicate 384 1%R; replicate 384 2%R]] start_world = (Ok out, start_world)
      ∧ out !! 0 ≫= (.!! 0)
        = Some (Linear_forward (value ones_head) (replicate 384 1%R)).
Proof.
  split; [simpl; lia|].
  destruct (@first_position_attends_to_itself (source_config 1) _ _ ones_head
              [[replicate 384 1%R; replicate 384 2%R]] 2 start_world)
    as (out & Hrun & Hfirst).
  - reflexivity.
  - by repeat constructor.
  - simpl. lia.
  - exists out. split; [exact Hrun|]. by apply (Hfirst 0 _ _ eq_refl eq_refl).
Defined.

Lemma train_epoch_after_setup :
  (train_epoch (small_args None None 1) 0 0 (after_setup (small_args None None 1))).1
  = Ok tt.
Proof. vm_compute. reflexivity. Qed.

Lemma checkpoint_is_snapshot_witness :
  let args := small_args None None 1 in
  ∃ c, fs (train_epoch args 0 0 (after_setup args)).2 !! "ck.pt"%string
       = Some (FCheckpoint c)
       ∧ ck_epoch c = 0%Z.
Proof.
  intros args. pose proof train_epoch_after_setup as HOk. fold args in HOk.
  destruct (train_epoch args 0 0 (after_setup args)) as [r w'] eqn:Hrun.
  simpl in HOk. subst r.
  destruct (checkpoint_is_snapshot args 0 0 "ck.pt" (after_setup args) w' Hrun)
    as (m & o & loss & _ & _ & _ & _ & _ & _ & _ & Hfs).
  - right. reflexivity.
  - reflexivity.
  - eexists. split; [exact Hfs | reflexivity].
Defined.

Lemma resume_setup :
  match (main_setup (small_args None (Some "ck.pt"%string) 1)
           (training_loop (small_args None None 1) 0
              (after_setup (small_args None None 1))).2).1 with
  | Ok _ => True
  | Raise _ => False
  end.
Proof. vm_compute. exact I. Qed.

Lemma setup_resumes_from_checkpoint_witness :
  let w := (training_loop (small_args None None 1) 0
              (after_setup (small_args None None 1))).2 in
  ∃ tk epoch loss w1 c,
    main_setup (small_args None (Some "ck.pt"%string) 1) w = (Ok (tk, epoch, loss), w1)
    ∧ fs w1 !! "ck.pt"%string = Some (FCheckpoint c)
    ∧ epoch = ck_epoch c.
Proof.
  intros w. pose proof resume_setup as HOk. fold w in HOk.
  destruct (main_setup (small_args None (Some "ck.pt"%string) 1) w)
    as [[[[tk epoch] loss]|e] w1] eqn:Hrun; [|destruct HOk].
  destruct (setup_resumes_from_checkpoint (small_args None (Some "ck.pt"%string) 1)
              "ck.pt" w tk epoch loss w1) as (c & Hfs & Hepoch & _).
  - reflexivity.
  - discriminate.
  - exact Hrun.
  - exists tk, epoch, loss, w1, c. split; [reflexivity|]. exact (conj Hfs Hepoch).
Defined.

Lemma forward_with_targets_run :
  match (GPT_forward [[0; 0]] (Some [[0; 0]]) (after_setup (small_args None None 1))).1 with
  | Ok _ => True
  | Raise _ => False
  end.
Proof. vm_compute. exact I. Qed.

Lemma forward_with_targets_witness :
  let w := after_setup (small_args None None 1) in
  ∃ l3 r w', GPT_forward [[0; 0]] (Some [[0; 0]]) w = (Ok (Logits2 (concat l3), Some r), w')
    ∧ GPT_forward [[0; 0]] None w = (Ok (Logits3 l3, None), w').
Proof.
  intros w. pose proof forward_with_targets_run as HOk. fold w in HOk.
  destruct (GPT_forward [[0; 0]] (Some [[0; 0]]) w) as [[[lg loss]|e] w'] eqn:Hrun;
    [|destruct HOk].
  destruct (forward_with_targets [[0; 0]] [[0; 0]] w lg loss w' Hrun)
    as (l3 & r & Hnone & -> & -> & _).
  exists l3, r, w'. split; [reflexivity|]. exact Hnone.
Defined.

Lemma estimate_loss_needs_both_splits_witness :
  let w := set_DATA (λ s, match s with TRAIN => [0; 0; 0; 0] | EVAL => [0] end)
             (after_setup (small_args None None 1)) in
  SEQ_LEN < length (DATA w TRAIN) ∧ ∃ e, (estimate_loss w).1 = Raise e.
Proof.
  intros w. split; [simpl; lia|].
  apply (estimate_loss_needs_both_splits EVAL w). simpl. lia.
Defined.

Lemma net_empty_context_world :
  net empty_context_world = net (after_setup (small_args None None 1)).
Proof. vm_compute. reflexivity. Qed.

Lemma generate_needs_a_token_witness :
  heap empty_context_world !! 0 = Some [[]]
  ∧ ∃ w', generate 0 3 empty_context_world = (Raise IndexError, w').
Proof.
  split; [vm_compute; reflexivity|].
  destruct (main_setup_Ok _ _ _ _ _ _ (after_setup_run _ setup_train_1))
    as (m & Hnet & _ & Hwf); [simpl; lia|].
  apply (generate_needs_a_token 1 m 0 [[]] empty_context_world 1 3).
  - rewrite net_empty_context_world. exact Hnet.
  - exact Hwf.
  - vm_compute. reflexivity.
  - split; [reflexivity|]. by repeat constructor.
  - lia.
  - lia.
Defined.

End Runs.
